(** * pcc-lite-verifier: a shallow embedding of [src/verifier.py]

    The verifier receives an envelope and an anchor configuration, both
    obtained with [json.load], and runs a fixed chain of gates over them.
    This development embeds the Python values the verifier can receive,
    the Python operations it applies to them (with the exceptions they
    raise), the graph construction and the two graph algorithms, the
    canonical JSON encoding with SHA-256, and [verify] itself.

    Modelling boundary.  A value is a JSON document without fractional
    numbers: [None], [bool], [int], [str], [list], [dict] with [str] keys.
    A [str] is kept as the byte string of its UTF-8 encoding, so the byte
    order on strings is the code point order Python sorts by.  A [dict] is
    the list of its items in insertion order; Python keeps the keys of a
    dict distinct, which is the predicate [wf_value] below.

    Two kinds of input that [json.load] can return lie outside this
    domain.  The first is a [float].  A float compares equal to an [int]
    of the same value ([0.0 == 0]), so what the code decides with [==] is
    stated here with [py_eq] and never by a list of the values that
    compare equal.  The second is a [str] that holds a lone surrogate
    (the escape [\ud800] read on its own): it has no UTF-8 encoding, and
    [.encode("utf-8")], like a write to a file opened with
    [encoding="utf-8"], raises [UnicodeEncodeError] on it.  The encoders
    are embedded on the strings that can be encoded; [encodable] below
    is that condition, read on the bytes the UTF-8 scheme gives a
    surrogate, and it is a hypothesis of the theorems that say which
    exceptions [verify] and the runner's step can raise. *)

From Stdlib Require Import List ZArith Bool Ascii String Lia Permutation.
From Stdlib Require Import Sorted OrderedTypeEx DecimalString Relations.
From Stdlib Require DecimalZ DecimalPos.
Import ListNotations.
Open Scope string_scope.
Open Scope Z_scope.
Open Scope list_scope.

(** ** Python values and exceptions *)

#[local] Unset Elimination Schemes.
Inductive value : Type :=
| VNone
| VBool (b : bool)
| VInt (z : Z)
| VStr (s : string)
| VList (l : list value)
| VDict (d : list (string * value)).

#[local] Set Elimination Schemes.

Definition dict := list (string * value).

Inductive exn : Type := TypeError | AttributeError | KeyError.

Inductive result (A : Type) : Type :=
| Returned (a : A)
| Raised (e : exn).

Arguments Returned {A} a.
Arguments Raised {A} e.

Definition bind {A B : Type} (m : result A) (k : A -> result B) : result B :=
  match m with
  | Returned a => k a
  | Raised e => Raised e
  end.

Declare Scope py_scope.
Delimit Scope py_scope with py.
Notation "x <- m ;; k" := (bind m (fun x => k))
  (at level 100, m at next level, right associativity) : py_scope.
Open Scope py_scope.

(** [for x in xs: acc = body(acc, x)], stopping at the first exception. *)
Fixpoint for_each {A S : Type} (xs : list A) (body : S -> A -> result S)
  (acc : S) : result S :=
  match xs with
  | [] => Returned acc
  | x :: xs' => acc' <- body acc x ;; for_each xs' body acc'
  end.

(** *** dict objects: items in insertion order *)

Fixpoint dict_get {V : Type} (d : list (string * V)) (k : string) : option V :=
  match d with
  | [] => None
  | (k', v) :: d' => if String.eqb k' k then Some v else dict_get d' k
  end.

Definition dict_mem {V : Type} (d : list (string * V)) (k : string) : bool :=
  match dict_get d k with Some _ => true | None => false end.

(** [d[k] = v]: an existing key keeps its position, a new one goes last. *)
Fixpoint dict_set {V : Type} (d : list (string * V)) (k : string) (v : V)
  : list (string * V) :=
  match d with
  | [] => [(k, v)]
  | (k', v') :: d' =>
      if String.eqb k' k then (k', v) :: d' else (k', v') :: dict_set d' k v
  end.

(** [d.pop(k, None)], the popped value dropped. *)
Definition dict_pop {V : Type} (d : list (string * V)) (k : string)
  : list (string * V) :=
  filter (fun kv => negb (String.eqb (fst kv) k)) d.

Definition keys {V : Type} (d : list (string * V)) : list string := map fst d.

(** *** sets of strings: members in insertion order, no repetition *)

Definition set_mem (s : list string) (x : string) : bool :=
  existsb (String.eqb x) s.

Definition set_add (s : list string) (x : string) : list string :=
  if set_mem s x then s else s ++ [x].

(** *** the operations of Python the verifier applies to loaded values *)

(** [v[k]] with a [str] index: only a dict accepts it. *)
Definition py_getitem (v : value) (k : string) : result value :=
  match v with
  | VDict d =>
      match dict_get d k with
      | Some x => Returned x
      | None => Raised KeyError
      end
  | _ => Raised TypeError
  end.

(** [v.get(k, default)]: only a dict has the method. *)
Definition py_get (v : value) (k : string) (default : value) : result value :=
  match v with
  | VDict d =>
      match dict_get d k with
      | Some x => Returned x
      | None => Returned default
      end
  | _ => Raised AttributeError
  end.

(** [v.get(key)] with a key that is itself a loaded value: the keys of a
    loaded dict are strings, and a list or a dict cannot be hashed. *)
Definition py_get_key (v key : value) : result value :=
  match v with
  | VDict d =>
      match key with
      | VStr k => py_get v k VNone
      | VList _ | VDict _ => Raised TypeError
      | _ => Returned VNone
      end
  | _ => Raised AttributeError
  end.

(** [env.get(k)] on a value known to be a dict. *)
Definition get_or_none (d : dict) (k : string) : value :=
  match dict_get d k with Some x => x | None => VNone end.

(** [for x in v]: a list yields its elements, a dict its keys, a str its
    characters (here the bytes of the encoding: what matters to the
    verifier is that each of them is a str); nothing else is iterable. *)
Definition py_iter (v : value) : result (list value) :=
  match v with
  | VList l => Returned l
  | VDict d => Returned (map (fun kv => VStr (fst kv)) d)
  | VStr s => Returned (map (fun c => VStr (String c EmptyString))
                            (list_ascii_of_string s))
  | _ => Raised TypeError
  end.

(** [isinstance(v, str) and v] *)
Definition nonempty_str (v : value) : option string :=
  match v with
  | VStr EmptyString => None
  | VStr s => Some s
  | _ => None
  end.

(** [isinstance(v, int)]: [bool] is a subclass of [int] in Python. *)
Definition as_int (v : value) : option Z :=
  match v with
  | VInt z => Some z
  | VBool true => Some 1
  | VBool false => Some 0
  | _ => None
  end.

(** [a == b] on the values of the domain.  Numbers compare by value
    across [bool] and [int]; lists compare element by element; dicts
    compare as mappings, whatever the insertion order. *)
Fixpoint py_eq (a b : value) : bool :=
  match a, b with
  | VNone, VNone => true
  | VStr s, VStr t => String.eqb s t
  | VList l1, VList l2 =>
      (fix all2 (l1 l2 : list value) : bool :=
         match l1, l2 with
         | [], [] => true
         | x :: l1', y :: l2' => py_eq x y && all2 l1' l2'
         | _, _ => false
         end) l1 l2
  | VDict d1, VDict d2 =>
      Nat.eqb (List.length d1) (List.length d2) &&
      (fix sub (d : list (string * value)) : bool :=
         match d with
         | [] => true
         | (k, v) :: d' =>
             match dict_get d2 k with
             | Some w => py_eq v w
             | None => false
             end && sub d'
         end) d1
  | _, _ =>
      match as_int a, as_int b with
      | Some x, Some y => Z.eqb x y
      | _, _ => false
      end
  end.

(** [x in s] for a set [s] of strings: the element is hashed first, and a
    list or a dict is unhashable. *)
Definition py_in_set (x : value) (s : list string) : result bool :=
  match x with
  | VList _ | VDict _ => Raised TypeError
  | VStr t => Returned (set_mem s t)
  | _ => Returned false
  end.

(** ** SHA-256 ([hashlib.sha256(b).hexdigest()])

    Words are integers below [2^32]; a byte string is a [string]. *)

Module Sha256.

Definition w32 (x : Z) : Z := x mod 4294967296.

Definition add32 (x y : Z) : Z := w32 (x + y).

Definition rotr (n x : Z) : Z :=
  Z.lor (Z.shiftr x n) (w32 (Z.shiftl x (32 - n))).

Definition Ch (x y z : Z) : Z :=
  Z.lxor (Z.land x y) (Z.land (w32 (Z.lnot x)) z).

Definition Maj (x y z : Z) : Z :=
  Z.lxor (Z.lxor (Z.land x y) (Z.land x z)) (Z.land y z).

Definition Sigma0 (x : Z) : Z :=
  Z.lxor (Z.lxor (rotr 2 x) (rotr 13 x)) (rotr 22 x).

Definition Sigma1 (x : Z) : Z :=
  Z.lxor (Z.lxor (rotr 6 x) (rotr 11 x)) (rotr 25 x).

Definition sigma0 (x : Z) : Z :=
  Z.lxor (Z.lxor (rotr 7 x) (rotr 18 x)) (Z.shiftr x 3).

Definition sigma1 (x : Z) : Z :=
  Z.lxor (Z.lxor (rotr 17 x) (rotr 19 x)) (Z.shiftr x 10).

Definition K : list Z :=
  [1116352408; 1899447441; 3049323471; 3921009573; 961987163; 1508970993;
   2453635748; 2870763221; 3624381080; 310598401; 607225278; 1426881987;
   1925078388; 2162078206; 2614888103; 3248222580; 3835390401; 4022224774;
   264347078; 604807628; 770255983; 1249150122; 1555081692; 1996064986;
   2554220882; 2821834349; 2952996808; 3210313671; 3336571891; 3584528711;
   113926993; 338241895; 666307205; 773529912; 1294757372; 1396182291;
   1695183700; 1986661051; 2177026350; 2456956037; 2730485921; 2820302411;
   3259730800; 3345764771; 3516065817; 3600352804; 4094571909; 275423344;
   430227734; 506948616; 659060556; 883997877; 958139571; 1322822218;
   1537002063; 1747873779; 1955562222; 2024104815; 2227730452; 2361852424;
   2428436474; 2756734187; 3204031479; 3329325298].

Definition H0 : list Z :=
  [1779033703; 3144134277; 1013904242; 2773480762; 1359893119; 2600822924;
   528734635; 1541459225].

Definition bytes_of (s : string) : list Z :=
  map (fun c => Z.of_N (N_of_ascii c)) (list_ascii_of_string s).

(** The big-endian bytes of [x], [n] of them. *)
Fixpoint be_bytes (n : nat) (x : Z) : list Z :=
  match n with
  | O => []
  | S n' => be_bytes n' (Z.shiftr x 8) ++ [x mod 256]
  end.

Definition pad (msg : list Z) : list Z :=
  let len := Z.of_nat (List.length msg) in
  msg ++ [128] ++ repeat 0 (Z.to_nat ((55 - len) mod 64)) ++ be_bytes 8 (8 * len).

(** Big-endian words of a byte list, four bytes each. *)
Fixpoint words (fuel : nat) (bs : list Z) : list Z :=
  match fuel, bs with
  | S fuel', b0 :: b1 :: b2 :: b3 :: bs' =>
      (((b0 * 256 + b1) * 256 + b2) * 256 + b3) :: words fuel' bs'
  | _, _ => []
  end.

(** The message schedule, most recent word first. *)
Fixpoint schedule (n : nat) (rw : list Z) : list Z :=
  match n with
  | O => rw
  | S n' =>
      let w := add32 (add32 (sigma1 (nth 1 rw 0)) (nth 6 rw 0))
                     (add32 (sigma0 (nth 14 rw 0)) (nth 15 rw 0)) in
      schedule n' (w :: rw)
  end.

Definition state : Type := (Z * Z * Z * Z * Z * Z * Z * Z)%type.

Definition round (st : state) (kw : Z * Z) : state :=
  let '(a, b, c, d, e, f, g, h) := st in
  let t1 := add32 (add32 (add32 h (Sigma1 e)) (add32 (Ch e f g) (fst kw))) (snd kw) in
  let t2 := add32 (Sigma0 a) (Maj a b c) in
  (add32 t1 t2, a, b, c, add32 d t1, e, f, g).

Definition compress (st : state) (block : list Z) : state :=
  let w := rev (schedule 48 (rev block)) in
  let '(a, b, c, d, e, f, g, h) := st in
  let '(a', b', c', d', e', f', g', h') :=
    fold_left round (combine K w) st in
  (add32 a a', add32 b b', add32 c c', add32 d d',
   add32 e e', add32 f f', add32 g g', add32 h h').

Fixpoint blocks (fuel : nat) (ws : list Z) (st : state) : state :=
  match fuel, ws with
  | S fuel', _ :: _ => blocks fuel' (skipn 16 ws) (compress st (firstn 16 ws))
  | _, _ => st
  end.

Definition digest (msg : list Z) : list Z :=
  let p := pad msg in
  let ws := words (List.length p) p in
  let '(a, b, c, d, e, f, g, h) :=
    blocks (List.length ws) ws
           (nth 0 H0 0, nth 1 H0 0, nth 2 H0 0, nth 3 H0 0,
            nth 4 H0 0, nth 5 H0 0, nth 6 H0 0, nth 7 H0 0) in
  [a; b; c; d; e; f; g; h].

Definition hex_digit (x : Z) : ascii :=
  nth (Z.to_nat x) (list_ascii_of_string "0123456789abcdef") "0"%char.

(** [n] lowercase hexadecimal digits of [x], most significant first. *)
Fixpoint hex (n : nat) (x : Z) : string :=
  match n with
  | O => EmptyString
  | S n' => hex n' (Z.shiftr x 4) ++ String (hex_digit (x mod 16)) EmptyString
  end.

Definition hexdigest (s : string) : string :=
  String.concat "" (map (hex 8) (digest (bytes_of s))).

End Sha256.

(** [_sha256_hex] *)
Definition _sha256_hex (b : string) : string := Sha256.hexdigest b.

(** ** Canonical JSON
    ([json.dumps(obj, sort_keys=True, separators=(",", ":"), ensure_ascii=False)]) *)

Definition dquote : ascii := "034"%char.
Definition backslash : ascii := "092"%char.

Definition str1 (c : ascii) : string := String c EmptyString.

(** One character inside a JSON string: the quote, the backslash and the
    control characters are escaped, everything else is emitted as it is. *)
Definition escape_char (c : ascii) : string :=
  match N_of_ascii c with
  | 34%N => String backslash (str1 dquote)
  | 92%N => String backslash (str1 backslash)
  | 8%N => String backslash "b"
  | 12%N => String backslash "f"
  | 10%N => String backslash "n"
  | 13%N => String backslash "r"
  | 9%N => String backslash "t"
  | n => if N.ltb n 32
         then String backslash ("u00" ++ Sha256.hex 2 (Z.of_N n))
         else str1 c
  end.

Fixpoint escape (s : string) : string :=
  match s with
  | EmptyString => EmptyString
  | String c s' => escape_char c ++ escape s'
  end.

Definition json_string (s : string) : string :=
  String dquote (escape s ++ str1 dquote).

(** [str(z)] for an [int]. *)
Definition str_of_Z (z : Z) : string :=
  DecimalString.NilZero.string_of_int (Z.to_int z).

(** [sorted(items)] on the items of a dict: their keys are distinct, so the
    order is the order of the keys. *)
Fixpoint insert_item {V : Type} (kv : string * V) (l : list (string * V))
  : list (string * V) :=
  match l with
  | [] => [kv]
  | kv' :: l' =>
      if String.leb (fst kv) (fst kv') then kv :: l
      else kv' :: insert_item kv l'
  end.

Fixpoint sort_items {V : Type} (l : list (string * V)) : list (string * V) :=
  match l with
  | [] => []
  | kv :: l' => insert_item kv (sort_items l')
  end.

Definition json_item (kv : string * string) : string :=
  json_string (fst kv) ++ ":" ++ snd kv.

(** The encoder.  The values of a dict are encoded before its items are
    put in key order; [sort_items_map] below shows that the two commute. *)
Fixpoint dumps (v : value) : string :=
  match v with
  | VNone => "null"
  | VBool true => "true"
  | VBool false => "false"
  | VInt z => str_of_Z z
  | VStr s => json_string s
  | VList l => "[" ++ String.concat "," (map dumps l) ++ "]"
  | VDict d =>
      "{" ++ String.concat ","
               (map json_item
                    (sort_items
                       (map (fun kv => match kv with
                                       | (k, x) => (k, dumps x)
                                       end) d))) ++ "}"
  end.

(** [_canonical_json_bytes]: the text is already held as its UTF-8
    bytes.  On a text with a lone surrogate [.encode("utf-8")] raises:
    the bytes are those of the call on an [encodable] value. *)
Definition _canonical_json_bytes (obj : value) : string := dumps obj.

(** [compute_witness_hash] *)
Definition compute_witness_hash (env_without_witness : dict) : string :=
  _sha256_hex (_canonical_json_bytes (VDict env_without_witness)).

(** ** The verifier: constants *)

Definition REASON_SCHEMA : string := "schema_invalid".
Definition REASON_TOPO : string := "invalid_tcc_topology".
Definition REASON_TARGET : string := "missing_or_invalid_targetref".
Definition REASON_ANCHOR_C : string := "outdated_or_missing_constitution_anchor".
Definition REASON_ANCHOR_E : string := "outdated_or_missing_energy_anchor".
Definition REASON_COVER : string := "missing_gatevector_coverage".
Definition REASON_BUDGET : string := "egl_budget_exceeded".
Definition REASON_WITNESS : string := "witness_mismatch".

(** The values of the [REASON] table. *)
Definition REASON : list string :=
  [REASON_SCHEMA; REASON_TOPO; REASON_TARGET; REASON_ANCHOR_C;
   REASON_ANCHOR_E; REASON_COVER; REASON_BUDGET; REASON_WITNESS].

Definition REQ_GATES_MIN : list string :=
  ["G_TOPO"; "G_TARGETREF"; "G_ANCHOR_CONST"; "G_ANCHOR_ENERGY"; "G_BUDGET"].

Definition ALLOWED_ACTIONS : list string := ["FAST"; "MID"; "HEAVY"; "EXTERNAL"].

(** ** [_basic_schema_ok]: every exception of the subscripts is caught *)

Definition _basic_schema_ok (env : dict) : bool :=
  match
    (_ <- py_getitem (VDict env) "proposal_digest" ;;
     _ <- py_getitem (VDict env) "action_class" ;;
     _ <- py_getitem (VDict env) "energy_est_uj" ;;
     _ <- py_getitem (VDict env) "tcc" ;;
     _ <- py_getitem (VDict env) "witness_hash" ;;
     tcc <- py_getitem (VDict env) "tcc" ;;
     _ <- py_getitem tcc "root" ;;
     _ <- py_getitem tcc "receipt" ;;
     _ <- py_getitem tcc "nodes" ;;
     _ <- py_getitem tcc "edges" ;;
     Returned true)
  with
  | Returned b => b
  | Raised _ => false
  end.

(** ** [_build_graph] *)

Definition adjacency : Type := list (string * list string).

(** [adj.setdefault(k, [])], the returned list dropped. *)
Definition adj_setdefault (adj : adjacency) (k : string) : adjacency :=
  if dict_mem adj k then adj else adj ++ [(k, [])].

(** [adj.setdefault(a, []).append(b)] *)
Fixpoint adj_append (adj : adjacency) (a b : string) : adjacency :=
  match adj with
  | [] => [(a, [b])]
  | (k, outs) :: adj' =>
      if String.eqb k a then (k, outs ++ [b]) :: adj'
      else (k, outs) :: adj_append adj' a b
  end.

(** [adj.get(x, [])] *)
Definition adj_get (adj : adjacency) (x : string) : list string :=
  match dict_get adj x with Some outs => outs | None => [] end.

Definition add_node (st : adjacency * list string) (n : value)
  : result (adjacency * list string) :=
  let '(adj, nodeset) := st in
  nid <- py_get n "id" VNone ;;
  match nonempty_str nid with
  | Some s => Returned (adj_setdefault adj s, set_add nodeset s)
  | None => Returned st
  end.

Definition add_edge (st : adjacency * list string) (e : value)
  : result (adjacency * list string) :=
  let '(adj, nodeset) := st in
  a <- py_get e "from" VNone ;;
  b <- py_get e "to" VNone ;;
  match nonempty_str a, nonempty_str b with
  | Some a, Some b =>
      Returned (adj_append adj a b, set_add (set_add nodeset a) b)
  | _, _ => Returned st
  end.

(** The set [nodeset] is iterated in the order its members were added;
    Python fixes no order for a set, and the two graph algorithms below
    are shown not to depend on it. *)
Definition _build_graph (tcc : dict) : result (adjacency * list string) :=
  nodes <- py_get (VDict tcc) "nodes" (VList []) ;;
  ns <- py_iter nodes ;;
  st1 <- for_each ns add_node ([], []) ;;
  edges <- py_get (VDict tcc) "edges" (VList []) ;;
  es <- py_iter edges ;;
  st2 <- for_each es add_edge st1 ;;
  let '(adj, nodeset) := st2 in
  Returned (fold_left adj_setdefault nodeset adj, nodeset).

(** ** [_is_dag]: Kahn's topological sort *)

Definition indegree : Type := list (string * Z).

(** [if b in indeg: indeg[b] += 1 else: indeg[b] = 1] *)
Definition indeg_incr (indeg : indegree) (b : string) : indegree :=
  match dict_get indeg b with
  | Some d => dict_set indeg b (d + 1)
  | None => dict_set indeg b 1
  end.

Definition indeg_init (adj : adjacency) (nodes : list string) : indegree :=
  fold_left (fun indeg item => fold_left indeg_incr (snd item) indeg)
            adj (map (fun n => (n, 0)) nodes).

(** [indeg[y] -= 1; if indeg[y] == 0: queue.append(y)].  The Python list
    [queue] is held last element first, so that [append] is a cons and
    [pop()] takes the head. *)
Definition relax (st : indegree * list string) (y : string)
  : result (indegree * list string) :=
  let '(indeg, queue) := st in
  match dict_get indeg y with
  | None => Raised KeyError
  | Some d =>
      let indeg' := dict_set indeg y (d - 1) in
      if Z.eqb (d - 1) 0 then Returned (indeg', y :: queue)
      else Returned (indeg', queue)
  end.

(** The [while queue] loop; [None] when the fuel runs out. *)
Fixpoint kahn_loop (fuel : nat) (adj : adjacency) (indeg : indegree)
  (queue : list string) (seen : Z) : option (result (Z * indegree)) :=
  match fuel with
  | O => None
  | S fuel' =>
      match queue with
      | [] => Some (Returned (seen, indeg))
      | x :: queue' =>
          match for_each (adj_get adj x) relax (indeg, queue') with
          | Raised e => Some (Raised e)
          | Returned (indeg', queue'') =>
              kahn_loop fuel' adj indeg' queue'' (seen + 1)
          end
      end
  end.

(** What bounds the iterations left: the queue and the in-degrees still
    to be consumed. *)
Definition kahn_measure (indeg : indegree) (queue : list string) : nat :=
  List.length queue +
  fold_right (fun kv s => Z.to_nat (snd kv) + s)%nat 0%nat indeg.

Definition _is_dag (adj : adjacency) (nodes : list string) : result bool :=
  let indeg := indeg_init adj nodes in
  let queue := rev (map fst (filter (fun kv => Z.eqb (snd kv) 0) indeg)) in
  match kahn_loop (S (kahn_measure indeg queue)) adj indeg queue 0 with
  | Some (Returned (seen, indeg')) =>
      Returned (Z.eqb seen (Z.of_nat (List.length indeg')))
  | Some (Raised e) => Raised e
  | None => Returned false
  end.

(** ** [_reachable]: depth-first search with an explicit stack *)

(** The [while stack] loop; the Python list [stack] is held last element
    first.  [None] when the fuel runs out. *)
Fixpoint dfs_loop (fuel : nat) (adj : adjacency) (sink : string)
  (stack seen : list string) : option bool :=
  match fuel with
  | O => None
  | S fuel' =>
      match stack with
      | [] => Some false
      | x :: stack' =>
          if set_mem seen x then dfs_loop fuel' adj sink stack' seen
          else if String.eqb x sink then Some true
          else dfs_loop fuel' adj sink
                        (rev_append (adj_get adj x) stack') (set_add seen x)
      end
  end.

Definition dfs_measure (adj : adjacency) (stack seen : list string) : nat :=
  List.length stack +
  fold_right (fun item s =>
                if set_mem seen (fst item) then s
                else List.length (snd item) + s)%nat 0%nat adj.

Definition _reachable (adj : adjacency) (root sink : string) : bool :=
  match dfs_loop (S (dfs_measure adj [root] [])) adj sink [root] [] with
  | Some b => b
  | None => false
  end.

(** ** [_find_nodes_by_type] *)

Definition _find_nodes_by_type (tcc : dict) (node_type : string)
  : result (list value) :=
  nodes <- py_get (VDict tcc) "nodes" (VList []) ;;
  ns <- py_iter nodes ;;
  for_each ns
    (fun acc n =>
       t <- py_get n "type" VNone ;;
       Returned (if py_eq t (VStr node_type) then acc ++ [n] else acc))
    [].

(** ** [verify] *)

(** The triple [(ok, reason, debug)]; [debug] is a dict. *)
Definition outcome : Type := (bool * string * dict)%type.

Definition debug (stage : string) (detail : string) : dict :=
  [("stage", VStr stage); ("detail", VStr detail)].

(** A gate either rejects with a triple or lets the chain go on. *)
Definition reject (reason stage detail : string) : result (option outcome) :=
  Returned (Some (false, reason, debug stage detail)).

(** [sorted] on a list of strings. *)
Fixpoint insert_str (x : string) (l : list string) : list string :=
  match l with
  | [] => [x]
  | y :: l' => if String.leb x y then x :: l else y :: insert_str x l'
  end.

Fixpoint sorted (l : list string) : list string :=
  match l with
  | [] => []
  | x :: l' => insert_str x (sorted l')
  end.

(** [repr] of a list of strings, as the f-string of the coverage gate
    prints it.  It is applied to members of [REQ_GATES_MIN] only: letters
    and underscores, which [repr] puts between single quotes unchanged. *)
Definition repr_str (s : string) : string := "'" ++ s ++ "'".

Definition repr_list (l : list string) : string :=
  "[" ++ String.concat ", " (map repr_str l) ++ "]".

(** [str(x)] for an instance of [int]. *)
Definition str_of_int (v : value) : string :=
  match v with
  | VInt z => str_of_Z z
  | VBool true => "True"
  | VBool false => "False"
  | _ => ""
  end.

Definition str_of_len {A : Type} (l : list A) : string :=
  str_of_Z (Z.of_nat (List.length l)).

(** The scan of [gate_outputs] that fills the set [passed]. *)
Definition gate_step (passed : list string) (it : value) : list string :=
  match it with
  | VDict d =>
      let gid := get_or_none d "gate_id" in
      let out := get_or_none d "output" in
      match gid with
      | VStr g => if py_eq out (VInt 0) then set_add passed g else passed
      | _ => passed
      end
  | _ => passed
  end.

Definition passed_gates (gate_outputs : list value) : list string :=
  fold_left gate_step gate_outputs [].

(** [sorted(list(REQ_GATES_MIN - passed))] *)
Definition missing_gates (passed : list string) : list string :=
  sorted (filter (fun g => negb (set_mem passed g)) REQ_GATES_MIN).

(** The gates from the schema checks to the budget gate.  They read their
    arguments and build containers of their own; [None] is returned when
    all of them let the envelope through. *)
Definition verify_gates (env anchors : dict) : result (option outcome) :=
  if negb (_basic_schema_ok env) then
    Returned (Some (false, REASON_SCHEMA, [("stage", VStr "schema")]))
  else
  let proposal_digest := get_or_none env "proposal_digest" in
  let action_class := get_or_none env "action_class" in
  let energy_est_uj := get_or_none env "energy_est_uj" in
  let tcc := get_or_none env "tcc" in
  match nonempty_str proposal_digest with
  | None => reject REASON_SCHEMA "schema" "invalid proposal_digest"
  | Some _ =>
  allowed <- py_in_set action_class ALLOWED_ACTIONS ;;
  if negb allowed then reject REASON_SCHEMA "schema" "invalid action_class"
  else
  match as_int energy_est_uj with
  | None => reject REASON_SCHEMA "schema" "invalid energy_est_uj"
  | Some est =>
  if Z.ltb est 0 then reject REASON_SCHEMA "schema" "invalid energy_est_uj"
  else
  match tcc with
  | VDict tcc =>
  (* 1) Topology Gate *)
  g <- _build_graph tcc ;;
  let '(adj, nodeset) := g in
  match nonempty_str (get_or_none tcc "root"),
        nonempty_str (get_or_none tcc "receipt") with
  | Some root, Some receipt =>
  dag <- _is_dag adj nodeset ;;
  if negb dag then reject REASON_TOPO "topology" "not a DAG"
  else
  if negb (_reachable adj root receipt) then
    reject REASON_TOPO "topology" "receipt not reachable from root"
  else
  (* 2) TargetRef Gate *)
  tnodes <- _find_nodes_by_type tcc "TargetRef" ;;
  match tnodes with
  | [tnode] =>
  payloadT <- py_get tnode "payload" (VDict []) ;;
  td <- py_get payloadT "target_digest" VNone ;;
  if negb (py_eq td proposal_digest) then
    reject REASON_TARGET "targetref" "target_digest != proposal_digest"
  else
  (* 3) Two Anchors Gate *)
  anodes <- _find_nodes_by_type tcc "IntentAnchor" ;;
  match anodes with
  | [anode] =>
  payloadA <- py_get anode "payload" (VDict []) ;;
  hc <- py_get payloadA "h_constitution" VNone ;;
  he <- py_get payloadA "h_energy_policy" VNone ;;
  if negb (py_eq hc (get_or_none anchors "constitution_hash_current")) then
    reject REASON_ANCHOR_C "anchor_const" "h_constitution mismatch"
  else
  if negb (py_eq he (get_or_none anchors "energy_policy_hash_current")) then
    reject REASON_ANCHOR_E "anchor_energy" "h_energy_policy mismatch"
  else
  (* 4) Minimal GateVector Coverage *)
  gnodes <- _find_nodes_by_type tcc "GateVector" ;;
  match gnodes with
  | [gnode] =>
  payloadG <- py_get gnode "payload" (VDict []) ;;
  gate_outputs <- py_get payloadG "gate_outputs" (VList []) ;;
  match gate_outputs with
  | VList gate_outputs =>
  let passed := passed_gates gate_outputs in
  if negb (forallb (set_mem passed) REQ_GATES_MIN) then
    reject REASON_COVER "coverage"
           ("missing=" ++ repr_list (missing_gates passed))
  else
  (* 5) Budget Gate *)
  budget_map <- py_get (VDict anchors) "energy_budget_uj" (VDict []) ;;
  budget <- py_get_key budget_map action_class ;;
  match as_int budget with
  | None => reject REASON_SCHEMA "budget" "missing budget"
  | Some b =>
  if Z.gtb est b then
    reject REASON_BUDGET "budget"
           ("est=" ++ str_of_int energy_est_uj ++ " > budget=" ++ str_of_int budget)
  else
    Returned None
  end
  | _ => reject REASON_SCHEMA "gatevector" "gate_outputs not list"
  end
  | _ => reject REASON_SCHEMA "gatevector"
                ("GateVector count=" ++ str_of_len gnodes)
  end
  | _ => reject REASON_SCHEMA "anchor"
                ("IntentAnchor count=" ++ str_of_len anodes)
  end
  | _ => reject REASON_TARGET "targetref"
                ("TargetRef count=" ++ str_of_len tnodes)
  end
  | _, _ => reject REASON_TOPO "topology" "missing root/receipt"
  end
  | _ => reject REASON_SCHEMA "schema" "tcc not dict"
  end
  end
  end.

(** The witness gate: [env_wo = dict(env)] is a new dict with the items of
    [env], and [witness_hash] is popped from that copy. *)
Definition witness_gate (env : dict) : outcome :=
  let witness_hash := get_or_none env "witness_hash" in
  let env_wo := dict_pop env "witness_hash" in
  let expected := compute_witness_hash env_wo in
  if negb (py_eq witness_hash (VStr expected)) then
    (false, REASON_WITNESS, debug "witness" "witness_hash mismatch")
  else
    (true, "OK", [("stage", VStr "ok")]).

Definition verify (env anchors : dict) : result outcome :=
  r <- verify_gates env anchors ;;
  match r with
  | Some rejection => Returned rejection
  | None => Returned (witness_gate env)
  end.

(** ** [_auto_fill_witness] (run_vectors.py) *)

Definition _auto_fill_witness (env : dict) : dict :=
  if py_eq (get_or_none env "witness_hash") (VStr "AUTO") then
    dict_set env "witness_hash"
             (VStr (compute_witness_hash (dict_pop env "witness_hash")))
  else env.

(** ** Predicates on values *)

Fixpoint nodupb (l : list string) : bool :=
  match l with
  | [] => true
  | x :: l' => negb (set_mem l' x) && nodupb l'
  end.

(** A value as Python can hold it: the keys of every dict are distinct. *)
Fixpoint wf_value (v : value) : bool :=
  match v with
  | VList l => forallb wf_value l
  | VDict d =>
      nodupb (map fst d) &&
      forallb (fun kv => match kv with (_, x) => wf_value x end) d
  | _ => true
  end.

(** Equality of structure and content: the same JSON type, the same
    scalars, lists equal element by element, dicts with the same keys bound
    to equal values, in whatever order the keys were inserted. *)
Fixpoint struct_eq (a b : value) : bool :=
  match a, b with
  | VNone, VNone => true
  | VBool x, VBool y => Bool.eqb x y
  | VInt x, VInt y => Z.eqb x y
  | VStr s, VStr t => String.eqb s t
  | VList l1, VList l2 =>
      (fix all2 (l1 l2 : list value) : bool :=
         match l1, l2 with
         | [], [] => true
         | x :: l1', y :: l2' => struct_eq x y && all2 l1' l2'
         | _, _ => false
         end) l1 l2
  | VDict d1, VDict d2 =>
      Nat.eqb (List.length d1) (List.length d2) &&
      (fix sub (d : list (string * value)) : bool :=
         match d with
         | [] => true
         | (k, v) :: d' =>
             match dict_get d2 k with
             | Some w => struct_eq v w
             | None => false
             end && sub d'
         end) d1
  | _, _ => false
  end.

(** A lowercase hexadecimal SHA-256 digest: 64 characters among
    [0-9a-f]. *)
Definition is_lower_hex (c : ascii) : bool :=
  existsb (Ascii.eqb c) (list_ascii_of_string "0123456789abcdef").

Definition is_hexdigest (s : string) : bool :=
  Nat.eqb (String.length s) 64 && forallb is_lower_hex (list_ascii_of_string s).

(** Induction on a value, with the hypothesis for every element of a list
    and for every value of a dict. *)
Section ValueInduction.

Variable P : value -> Prop.
Hypothesis HNone : P VNone.
Hypothesis HBool : forall b, P (VBool b).
Hypothesis HInt : forall z, P (VInt z).
Hypothesis HStr : forall s, P (VStr s).
Hypothesis HList : forall l, Forall P l -> P (VList l).
Hypothesis HDict : forall d, Forall (fun kv => P (snd kv)) d -> P (VDict d).

Fixpoint value_ind (v : value) : P v :=
  match v with
  | VNone => HNone
  | VBool b => HBool b
  | VInt z => HInt z
  | VStr s => HStr s
  | VList l =>
      HList l ((fix go (l : list value) : Forall P l :=
                  match l with
                  | [] => Forall_nil P
                  | x :: l' => Forall_cons x (value_ind x) (go l')
                  end) l)
  | VDict d =>
      HDict d ((fix go (d : list (string * value))
                  : Forall (fun kv => P (snd kv)) d :=
                  match d with
                  | [] => Forall_nil _
                  | (k, x) :: d' =>
                      @Forall_cons _ (fun kv => P (snd kv)) (k, x) d'
                                   (value_ind x) (go d')
                  end) d)
  end.

End ValueInduction.

(** ** Sample envelopes and anchor configurations *)

Definition gate_entry (g : string) (out : value) : value :=
  VDict [("gate_id", VStr g); ("output", out)].

Definition sample_node (id type : string) (payload : dict) : value :=
  VDict [("id", VStr id); ("type", VStr type); ("payload", VDict payload)].

Definition sample_edge (a b : string) : value :=
  VDict [("from", VStr a); ("to", VStr b)].

(** The three nodes a certificate needs, with the given payload for the
    IntentAnchor node. *)
Definition sample_nodes (anchor_payload : dict) : list value :=
  [sample_node "n_target" "TargetRef" [("target_digest", VStr "proposal-1")];
   sample_node "n_anchor" "IntentAnchor" anchor_payload;
   sample_node "n_gates" "GateVector"
     [("gate_outputs",
       VList (map (fun g => gate_entry g (VInt 0)) REQ_GATES_MIN))]].

Definition sample_hashes : dict :=
  [("h_constitution", VStr "const-v1"); ("h_energy_policy", VStr "energy-v1")].

Definition sample_edges : list value :=
  [sample_edge "n_target" "n_anchor"; sample_edge "n_anchor" "n_gates"].

Definition sample_tcc (nodes edges : value) : dict :=
  [("root", VStr "n_target"); ("receipt", VStr "n_gates");
   ("nodes", nodes); ("edges", edges)].

(** An envelope that asks for its witness to be filled in. *)
Definition sample_env (action_class : value) (tcc : dict) : dict :=
  [("proposal_digest", VStr "proposal-1"); ("action_class", action_class);
   ("energy_est_uj", VInt 10); ("tcc", VDict tcc);
   ("witness_hash", VStr "AUTO")].

Definition sample_anchors : dict :=
  [("constitution_hash_current", VStr "const-v1");
   ("energy_policy_hash_current", VStr "energy-v1");
   ("energy_budget_uj", VDict [("FAST", VInt 10)])].

(** A fully valid envelope. *)
Definition env_valid : dict :=
  Eval vm_compute in
    _auto_fill_witness
      (sample_env (VStr "FAST")
         (sample_tcc (VList (sample_nodes sample_hashes)) (VList sample_edges))).

(** The valid envelope with one more entry in [nodes], the number 1. *)
Definition env_stray_node : dict :=
  Eval vm_compute in
    _auto_fill_witness
      (sample_env (VStr "FAST")
         (sample_tcc (VList (sample_nodes sample_hashes ++ [VInt 1]))
                     (VList sample_edges))).

(** An envelope whose only node entry is the number 1. *)
Definition env_number_node : dict :=
  [("proposal_digest", VStr "p"); ("action_class", VStr "FAST");
   ("energy_est_uj", VInt 0);
   ("tcc", VDict [("root", VStr "a"); ("receipt", VStr "a");
                  ("nodes", VList [VInt 1]); ("edges", VList [])]);
   ("witness_hash", VStr "")].

(** An envelope whose [action_class] is an empty list and whose
    certificate has an empty [root] and a two-node cycle. *)
Definition env_list_action : dict :=
  [("proposal_digest", VStr "p"); ("action_class", VList []);
   ("energy_est_uj", VInt 0);
   ("tcc", VDict [("root", VStr ""); ("receipt", VStr "B");
                  ("nodes", VList []);
                  ("edges", VList [sample_edge "A" "B"; sample_edge "B" "A"])]);
   ("witness_hash", VStr "")].

(** The same certificate shape with a valid [action_class]. *)
Definition env_cycle (nodes : value) : dict :=
  [("proposal_digest", VStr "p"); ("action_class", VStr "FAST");
   ("energy_est_uj", VInt 0);
   ("tcc", VDict [("root", VStr "A"); ("receipt", VStr "B");
                  ("nodes", nodes);
                  ("edges", VList [sample_edge "A" "B"; sample_edge "B" "A"])]);
   ("witness_hash", VStr "")].

(** An anchor configuration without the two current hashes, and a valid
    envelope whose IntentAnchor payload carries none either. *)
Definition anchors_without_hashes : dict :=
  [("energy_budget_uj", VDict [("FAST", VInt 10)])].

Definition env_without_hashes : dict :=
  Eval vm_compute in
    _auto_fill_witness
      (sample_env (VStr "FAST")
         (sample_tcc (VList (sample_nodes [])) (VList sample_edges))).

(** ** The arguments of [verify] as objects in a store

    In Python the envelope and the anchors are objects: every dict and
    every list is an object of its own, held by reference, and two
    references may name the same object.  The store below keeps the
    objects by address; [load] reads the document a reference stands for.
    The gates before the witness gate only read their arguments, so they
    run on what [load] returns; the witness gate copies the envelope and
    pops a key from the copy, which the store makes explicit. *)

Definition loc : Type := nat.

Inductive hval : Type :=
| HNone
| HBool (b : bool)
| HInt (z : Z)
| HStr (s : string)
| HRef (l : loc).

Inductive hobj : Type :=
| ODict (items : list (string * hval))
| OList (elems : list hval).

(** The object at address [l] is the [l]-th of the list. *)
Definition heap : Type := list hobj.

Fixpoint map_opt {A B : Type} (f : A -> option B) (l : list A)
  : option (list B) :=
  match l with
  | [] => Some []
  | x :: l' =>
      match f x, map_opt f l' with
      | Some y, Some r => Some (y :: r)
      | _, _ => None
      end
  end.

Definition load_item {V W : Type} (f : V -> option W) (kv : string * V)
  : option (string * W) :=
  match f (snd kv) with
  | Some w => Some (fst kv, w)
  | None => None
  end.

(** The document behind a reference; [None] when a reference dangles or
    the nesting is deeper than the fuel. *)
Fixpoint load (fuel : nat) (h : heap) (v : hval) : option value :=
  match fuel with
  | O => None
  | S fuel' =>
      match v with
      | HNone => Some VNone
      | HBool b => Some (VBool b)
      | HInt z => Some (VInt z)
      | HStr s => Some (VStr s)
      | HRef l =>
          match nth_error h l with
          | Some (OList elems) =>
              option_map VList (map_opt (load fuel' h) elems)
          | Some (ODict items) =>
              option_map VDict (map_opt (load_item (load fuel' h)) items)
          | None => None
          end
      end
  end.

(** A new object, at the first free address. *)
Definition heap_alloc (h : heap) (o : hobj) : heap * loc :=
  (h ++ [o], List.length h).

(** The object at [l] replaced. *)
Fixpoint heap_store (h : heap) (l : loc) (o : hobj) : heap :=
  match h, l with
  | [], _ => []
  | _ :: h', O => o :: h'
  | o' :: h', S l' => o' :: heap_store h' l' o
  end.

(** The witness gate on the store: [env_wo = dict(env)] allocates a dict
    with the items of [env] (the same references), and
    [env_wo.pop("witness_hash", None)] updates that new object. *)
Definition witness_gate_on_heap (fuel : nat) (h : heap) (env : loc)
  : option (outcome * heap) :=
  match nth_error h env with
  | Some (ODict items) =>
      let witness_hash :=
        match dict_get items "witness_hash" with
        | Some v => v
        | None => HNone
        end in
      let '(h1, env_wo) := heap_alloc h (ODict items) in
      let h2 := heap_store h1 env_wo (ODict (dict_pop items "witness_hash")) in
      match load fuel h2 (HRef env_wo), load fuel h2 witness_hash with
      | Some (VDict wo), Some wh =>
          let expected := compute_witness_hash wo in
          Some (if negb (py_eq wh (VStr expected)) then
                  (false, REASON_WITNESS, debug "witness" "witness_hash mismatch")
                else
                  (true, "OK", [("stage", VStr "ok")]),
                h2)
      | _, _ => None
      end
  | _ => None
  end.

(** [verify] on the store: the result and the store it leaves.  [None]
    when [env] or [anchors] is not a reference to a dict whose document
    can be loaded with the given fuel. *)
Definition verify_on_heap (fuel : nat) (h : heap) (env anchors : loc)
  : option (result outcome * heap) :=
  match load fuel h (HRef env), load fuel h (HRef anchors) with
  | Some (VDict e), Some (VDict a) =>
      match verify_gates e a with
      | Raised x => Some (Raised x, h)
      | Returned (Some rejection) => Some (Returned rejection, h)
      | Returned None =>
          match witness_gate_on_heap fuel h env with
          | Some (o, h') => Some (Returned o, h')
          | None => None
          end
      end
  | _, _ => None
  end.

(** What [json.load] builds: every dict and list of the document becomes
    an object of the store. *)
Fixpoint json_load (v : value) (h : heap) : hval * heap :=
  match v with
  | VNone => (HNone, h)
  | VBool b => (HBool b, h)
  | VInt z => (HInt z, h)
  | VStr s => (HStr s, h)
  | VList l =>
      let '(elems, h') :=
        (fix go (l : list value) (h : heap) : list hval * heap :=
           match l with
           | [] => ([], h)
           | x :: l' =>
               let '(hx, h1) := json_load x h in
               let '(r, h2) := go l' h1 in
               (hx :: r, h2)
           end) l h in
      (HRef (List.length h'), h' ++ [OList elems])
  | VDict d =>
      let '(items, h') :=
        (fix go (d : list (string * value)) (h : heap)
           : list (string * hval) * heap :=
           match d with
           | [] => ([], h)
           | (k, x) :: d' =>
               let '(hx, h1) := json_load x h in
               let '(r, h2) := go d' h1 in
               ((k, hx) :: r, h2)
           end) d h in
      (HRef (List.length h'), h' ++ [ODict items])
  end.

(** A store holding the valid sample envelope and the sample anchors. *)
Definition sample_heap : heap * loc * loc :=
  Eval vm_compute in
    let '(e, h1) := json_load (VDict env_valid) [] in
    let '(a, h2) := json_load (VDict sample_anchors) h1 in
    (h2,
     match e with HRef l => l | _ => O end,
     match a with HRef l => l | _ => O end).

(** ** The certificate graph, as a relation *)

(** [x -> y] is an edge when [y] is among the successors recorded for
    [x]. *)
Definition edge (adj : adjacency) (x y : string) : Prop :=
  In y (adj_get adj x).

(** No directed cycle: no node reaches itself along one edge or more. *)
Definition acyclic (adj : adjacency) : Prop :=
  forall x, ~ clos_trans string (edge adj) x x.

(** [y] is reachable from [x] along zero or more edges. *)
Definition reachable (adj : adjacency) (x y : string) : Prop :=
  clos_refl_trans string (edge adj) x y.

(** What [_build_graph] guarantees about its result: one adjacency list
    per node, and every edge target is a node. *)
Definition graph_ok (adj : adjacency) (nodes : list string) : Prop :=
  NoDup (map fst adj) /\
  NoDup nodes /\
  (forall x, In x (map fst adj) <-> In x nodes) /\
  (forall x outs y, In (x, outs) adj -> In y outs -> In y nodes).

(** ** The certificate as the specification reads it *)

Definition is_dict (v : value) : bool :=
  match v with VDict _ => true | _ => false end.

(** The id a node entry declares, when it is a non-empty string. *)
Definition declared_node (n : value) : option string :=
  match n with
  | VDict d => nonempty_str (get_or_none d "id")
  | _ => None
  end.

(** The edge an edge entry declares, when both ends are non-empty
    strings. *)
Definition declared_edge (e : value) : option (string * string) :=
  match e with
  | VDict d =>
      match nonempty_str (get_or_none d "from"),
            nonempty_str (get_or_none d "to") with
      | Some a, Some b => Some (a, b)
      | _, _ => None
      end
  | _ => None
  end.

Definition node_ids (ns : list value) : list string :=
  flat_map (fun n => match declared_node n with
                     | Some s => [s]
                     | None => []
                     end) ns.

Definition edge_pairs (es : list value) : list (string * string) :=
  flat_map (fun e => match declared_edge e with
                     | Some p => [p]
                     | None => []
                     end) es.

(** The successors of [x], in the order the edges are listed. *)
Definition successors (es : list value) (x : string) : list string :=
  map snd (filter (fun p => String.eqb (fst p) x) (edge_pairs es)).

(** ** Notions the proofs use *)

Definition key_le {V : Type} (a b : string * V) : Prop :=
  String.leb (fst a) (fst b) = true.

Definition str_le (a b : string) : Prop := String.leb a b = true.

(** An entry of [gate_outputs] that reports the gate [g] as passed. *)
Definition reports_pass (it : value) (g : string) : Prop :=
  exists d, it = VDict d /\
            get_or_none d "gate_id" = VStr g /\
            py_eq (get_or_none d "output") (VInt 0) = true.

(** The value [tcc.get(k, [])] iterates. *)
Definition tcc_list (tcc : dict) (k : string) : value :=
  match dict_get tcc k with Some v => v | None => VList [] end.

Definition cnt (l : list string) (y : string) : nat :=
  count_occ string_dec l y.

(** The targets of the edges whose source is not in [done], with
    multiplicity. *)
Definition pending (adj : adjacency) (done : list string) : list string :=
  flat_map snd (filter (fun kv => negb (set_mem done (fst kv))) adj).

Definition indeg_sum (indeg : indegree) : nat :=
  fold_right (fun kv s => Z.to_nat (snd kv) + s)%nat 0%nat indeg.

(** The nodes of [done], most recent first, each preceded by all its
    predecessors. *)
Fixpoint topo (adj : adjacency) (done : list string) : Prop :=
  match done with
  | [] => True
  | x :: done' => (forall w, edge adj w x -> In w done') /\ topo adj done'
  end.

(** A walk: each node has an edge to the next. *)
Fixpoint walk (adj : adjacency) (l : list string) : Prop :=
  match l with
  | x :: (y :: _) as l' => edge adj x y /\ walk adj l'
  | _ => True
  end.

(** The state of the loop: [done] lists the nodes popped so far, most
    recent first. *)
Definition kahn_inv (adj : adjacency) (nodes : list string)
  (indeg : indegree) (queue done : list string) (seen : Z) : Prop :=
  map fst indeg = nodes /\
  (forall y, In y nodes ->
             dict_get indeg y = Some (Z.of_nat (cnt (pending adj done) y))) /\
  NoDup (queue ++ done) /\
  incl (queue ++ done) nodes /\
  (forall y, In y nodes ->
             (cnt (pending adj done) y = 0%nat <-> In y (queue ++ done))) /\
  seen = Z.of_nat (List.length done) /\
  topo adj done.

(** What holds of the adjacency and the node set all along
    [_build_graph]. *)
Definition builder_inv (adj : adjacency) (nodeset : list string) : Prop :=
  NoDup (map fst adj) /\
  NoDup nodeset /\
  (forall x, In x (map fst adj) -> In x nodeset) /\
  (forall x y, edge adj x y -> In y nodeset).

Definition unseen_sum (adj : adjacency) (seen : list string) : nat :=
  fold_right (fun (item : string * list string) s =>
                if set_mem seen (fst item) then s
                else List.length (snd item) + s)%nat 0%nat adj.

(** The state of the search: everything met so far is reachable from the
    root, the sink was not visited, and the successors of a visited node
    are visited or waiting on the stack. *)
Definition dfs_inv (adj : adjacency) (root sink : string)
  (stack seen : list string) : Prop :=
  (forall z, In z (stack ++ seen) -> reachable adj root z) /\
  ~ In sink seen /\
  (forall z y, In z seen -> edge adj z y -> In y (stack ++ seen)) /\
  In root (stack ++ seen).

(** ** The invariants of the specification *)

(** The entries of [nodes] or [edges] when it is a list; anything else
    lists nothing. *)
Definition entries (v : value) : list value :=
  match v with VList l => l | _ => [] end.

(** The certificate graph: [a -> b] when some edge entry declares it. *)
Definition tcc_edge (es : list value) (a b : string) : Prop :=
  In (a, b) (edge_pairs es).

Definition tcc_acyclic (es : list value) : Prop :=
  forall x, ~ clos_trans string (tcc_edge es) x x.

Definition tcc_reachable (es : list value) (a b : string) : Prop :=
  clos_refl_trans string (tcc_edge es) a b.

(** The node entries of a given type. *)
Definition has_type (ty : string) (n : value) : bool :=
  match n with
  | VDict d => py_eq (get_or_none d "type") (VStr ty)
  | _ => false
  end.

Definition nodes_of_type (ns : list value) (ty : string) : list value :=
  filter (has_type ty) ns.

(** The payload of a node entry; a node without a payload, or whose
    payload is not a mapping, carries no field. *)
Definition payload_of (n : value) : dict :=
  match n with
  | VDict d =>
      match dict_get d "payload" with
      | Some (VDict p) => p
      | _ => []
      end
  | _ => []
  end.

(** [budget[action_class]] in the anchor configuration. *)
Definition budget_of (anchors : dict) (action_class : string) : value :=
  match dict_get anchors "energy_budget_uj" with
  | Some (VDict m) => get_or_none m action_class
  | _ => VNone
  end.

(** The schema checks: the required fields exist, [proposal_digest] is a
    non-empty string, [action_class] is one of the four names,
    [energy_est_uj] is a non-negative integer, [tcc] is a mapping. *)
Definition schema_ok (env : dict) : bool :=
  match dict_get env "proposal_digest", dict_get env "action_class",
        dict_get env "energy_est_uj", dict_get env "tcc",
        dict_get env "witness_hash" with
  | Some pd, Some ac, Some est, Some (VDict tcc), Some _ =>
      match nonempty_str pd with Some _ => true | None => false end &&
      match ac with VStr a => set_mem ALLOWED_ACTIONS a | _ => false end &&
      match as_int est with Some z => Z.leb 0 z | None => false end &&
      dict_mem tcc "root" && dict_mem tcc "receipt" &&
      dict_mem tcc "nodes" && dict_mem tcc "edges"
  | _, _, _, _, _ => false
  end.

(** The invariants the specification states for an admissible envelope,
    read on the entries that are well formed. *)
Definition stated_invariants (env anchors : dict) : Prop :=
  schema_ok env = true /\
  exists tcc root receipt action_class est tnode anode gnode gate_outputs budget,
    dict_get env "tcc" = Some (VDict tcc) /\
    nonempty_str (get_or_none tcc "root") = Some root /\
    nonempty_str (get_or_none tcc "receipt") = Some receipt /\
    tcc_acyclic (entries (get_or_none tcc "edges")) /\
    tcc_reachable (entries (get_or_none tcc "edges")) root receipt /\
    nodes_of_type (entries (get_or_none tcc "nodes")) "TargetRef" = [tnode] /\
    py_eq (get_or_none (payload_of tnode) "target_digest")
          (get_or_none env "proposal_digest") = true /\
    nodes_of_type (entries (get_or_none tcc "nodes")) "IntentAnchor" = [anode] /\
    py_eq (get_or_none (payload_of anode) "h_constitution")
          (get_or_none anchors "constitution_hash_current") = true /\
    py_eq (get_or_none (payload_of anode) "h_energy_policy")
          (get_or_none anchors "energy_policy_hash_current") = true /\
    nodes_of_type (entries (get_or_none tcc "nodes")) "GateVector" = [gnode] /\
    dict_get (payload_of gnode) "gate_outputs" = Some (VList gate_outputs) /\
    (forall g, In g REQ_GATES_MIN -> In g (passed_gates gate_outputs)) /\
    get_or_none env "action_class" = VStr action_class /\
    as_int (get_or_none env "energy_est_uj") = Some est /\
    as_int (budget_of anchors action_class) = Some budget /\
    est <= budget /\
    get_or_none env "witness_hash"
    = VStr (compute_witness_hash (dict_pop env "witness_hash")).

(** What [verify] needs besides, not to raise: the entries of [nodes] and
    [edges] are mappings, the payloads it reads are mappings, and so is
    the budget table. *)
Definition payload_is_dict (n : value) : bool :=
  match n with
  | VDict d =>
      match dict_get d "payload" with
      | Some (VDict _) | None => true
      | Some _ => false
      end
  | _ => false
  end.

Definition list_of_dicts (v : value) : bool :=
  match py_iter v with
  | Returned l => forallb is_dict l
  | Raised _ => false
  end.

Definition well_shaped (env anchors : dict) : Prop :=
  exists tcc,
    dict_get env "tcc" = Some (VDict tcc) /\
    list_of_dicts (get_or_none tcc "nodes") = true /\
    list_of_dicts (get_or_none tcc "edges") = true /\
    (forall ty n, In ty ["TargetRef"; "IntentAnchor"; "GateVector"] ->
                  In n (nodes_of_type (entries (get_or_none tcc "nodes")) ty) ->
                  payload_is_dict n = true) /\
    match dict_get anchors "energy_budget_uj" with
    | Some (VDict _) | None => True
    | Some _ => False
    end.

(** The tests of [verify_gates], in the order they run, all passing. *)
Definition passes_all_gates (env anchors : dict) : Prop :=
  exists pd est tcc adj nodeset root receipt tnode payloadT td
         anode payloadA hc he gnode payloadG gate_outputs budget_map budget b,
    _basic_schema_ok env = true /\
    nonempty_str (get_or_none env "proposal_digest") = Some pd /\
    py_in_set (get_or_none env "action_class") ALLOWED_ACTIONS = Returned true /\
    as_int (get_or_none env "energy_est_uj") = Some est /\
    Z.ltb est 0 = false /\
    get_or_none env "tcc" = VDict tcc /\
    _build_graph tcc = Returned (adj, nodeset) /\
    nonempty_str (get_or_none tcc "root") = Some root /\
    nonempty_str (get_or_none tcc "receipt") = Some receipt /\
    _is_dag adj nodeset = Returned true /\
    _reachable adj root receipt = true /\
    _find_nodes_by_type tcc "TargetRef" = Returned [tnode] /\
    py_get tnode "payload" (VDict []) = Returned payloadT /\
    py_get payloadT "target_digest" VNone = Returned td /\
    py_eq td (get_or_none env "proposal_digest") = true /\
    _find_nodes_by_type tcc "IntentAnchor" = Returned [anode] /\
    py_get anode "payload" (VDict []) = Returned payloadA /\
    py_get payloadA "h_constitution" VNone = Returned hc /\
    py_get payloadA "h_energy_policy" VNone = Returned he /\
    py_eq hc (get_or_none anchors "constitution_hash_current") = true /\
    py_eq he (get_or_none anchors "energy_policy_hash_current") = true /\
    _find_nodes_by_type tcc "GateVector" = Returned [gnode] /\
    py_get gnode "payload" (VDict []) = Returned payloadG /\
    py_get payloadG "gate_outputs" (VList []) = Returned (VList gate_outputs) /\
    forallb (set_mem (passed_gates gate_outputs)) REQ_GATES_MIN = true /\
    py_get (VDict anchors) "energy_budget_uj" (VDict []) = Returned budget_map /\
    py_get_key budget_map (get_or_none env "action_class") = Returned budget /\
    as_int budget = Some b /\
    Z.gtb est b = false.

(** ** Inputs on which [verify] cannot raise *)

(** The UTF-8 scheme gives a surrogate (U+D800 to U+DFFF) the byte 237
    followed by a byte from 160 up; in the encoding of every other code
    point the byte 237 is followed by a byte below 160. *)
Definition head_high (s : string) : bool :=
  match s with
  | String b _ => N.leb 160 (N_of_ascii b)
  | EmptyString => false
  end.

Fixpoint has_surrogate (s : string) : bool :=
  match s with
  | EmptyString => false
  | String a r =>
      (N.eqb (N_of_ascii a) 237 && head_high r) || has_surrogate r
  end.

Fixpoint last_lead (s : string) : bool :=
  match s with
  | EmptyString => false
  | String a EmptyString => N.eqb (N_of_ascii a) 237
  | String _ r => last_lead r
  end.

(** A text without a surrogate that makes none when it is put next to
    another one: it starts with no byte from 160 up and ends with no
    byte 237. *)
Definition clean (s : string) : bool :=
  negb (has_surrogate s) && negb (head_high s) && negb (last_lead s).

(** Every byte is below 128. *)
Definition low (s : string) : bool :=
  forallb (fun c => N.ltb (N_of_ascii c) 128) (list_ascii_of_string s).

(** No string of the value, key or content, at any depth, holds a lone
    surrogate: the value can be written as UTF-8. *)
Fixpoint encodable (v : value) : bool :=
  match v with
  | VStr s => negb (has_surrogate s)
  | VList l => forallb encodable l
  | VDict d =>
      forallb (fun kv => match kv with
                         | (k, x) => negb (has_surrogate k) && encodable x
                         end) d
  | _ => true
  end.



(** ** Reading a canonical encoding (used to show it is unambiguous) *)

(** The characters that follow an encoded value inside a list or a
    dict. *)
Definition is_stop (c : ascii) : bool :=
  Ascii.eqb c "," || Ascii.eqb c "]" || Ascii.eqb c "}".

(** What may follow an encoded value: nothing, or one of those
    characters. *)
Definition stops (r : string) : Prop :=
  match r with
  | EmptyString => True
  | String c _ => is_stop c = true
  end.

(** The characters of a decimal numeral. *)
Definition is_num_char (c : ascii) : bool :=
  existsb (Ascii.eqb c) (list_ascii_of_string "-0123456789").

Definition hex_value (c : ascii) : option N :=
  (fix find (l : list ascii) (i : N) : option N :=
     match l with
     | [] => None
     | d :: l' => if Ascii.eqb c d then Some i else find l' (i + 1)%N
     end) (list_ascii_of_string "0123456789abcdef") 0%N.

(** The character the escape sequence at the head of [s] stands for, and
    what follows the sequence. *)
Definition unescape_char (s : string) : option (ascii * string) :=
  match s with
  | EmptyString => None
  | String c rest =>
      if Ascii.eqb c backslash then
        match rest with
        | EmptyString => None
        | String e rest' =>
            if Ascii.eqb e dquote then Some (dquote, rest')
            else if Ascii.eqb e backslash then Some (backslash, rest')
            else if Ascii.eqb e "b" then Some (ascii_of_N 8, rest')
            else if Ascii.eqb e "f" then Some (ascii_of_N 12, rest')
            else if Ascii.eqb e "n" then Some (ascii_of_N 10, rest')
            else if Ascii.eqb e "r" then Some (ascii_of_N 13, rest')
            else if Ascii.eqb e "t" then Some (ascii_of_N 9, rest')
            else if Ascii.eqb e "u" then
              match rest' with
              | String _ (String _ (String h (String l rest''))) =>
                  match hex_value h, hex_value l with
                  | Some a, Some b => Some (ascii_of_N (16 * a + b), rest'')
                  | _, _ => None
                  end
              | _ => None
              end
            else None
        end
      else Some (c, rest)
  end.

(** The JSON type of a value, and the type the first character of an
    encoding announces. *)
Definition value_class (v : value) : nat :=
  match v with
  | VNone => 0
  | VBool true => 1
  | VBool false => 2
  | VInt _ => 3
  | VStr _ => 4
  | VList _ => 5
  | VDict _ => 6
  end.

Definition head_class (c : ascii) : nat :=
  if Ascii.eqb c "n" then 0
  else if Ascii.eqb c "t" then 1
  else if Ascii.eqb c "f" then 2
  else if is_num_char c then 3
  else if Ascii.eqb c dquote then 4
  else if Ascii.eqb c "[" then 5
  else if Ascii.eqb c "{" then 6
  else 7.

(** The items of a list or a dict from the first separator on, and from
    the first item on, up to the closing character and what follows. *)
Fixpoint seq_rest (items : list string) (close : ascii) (r : string) : string :=
  match items with
  | [] => String close r
  | x :: rest => String "," (x ++ seq_rest rest close r)
  end.

Definition seq_enc (items : list string) (close : ascii) (r : string) : string :=
  match items with
  | [] => String close r
  | x :: rest => (x ++ seq_rest rest close r)%string
  end.

(** An item of a sequence is read back unambiguously: whatever item its
    encoding, followed by a stop, is matched against. *)
Definition item_unambiguous {A : Type} (enc : A -> string) (ok : A -> Prop)
  (rel : A -> A -> Prop) (x : A) : Prop :=
  forall y r r', ok y -> stops r -> stops r' ->
                 (enc x ++ r = enc y ++ r')%string -> rel x y /\ r = r'.

(** ** The runner ([run_vectors.py])

    Modelling boundary.  The files the runner writes live in a flat file
    system, a map from paths to contents; directories are not modelled,
    [_ensure_out] being what makes the opens below succeed.  The vector
    directory is given by its listing, each name with the document
    [json.load] reads from the file; the anchor configuration is the JSON
    object [_load_anchors] returns; the clock is the sequence of the
    readings of [int(time.time())]. *)

(** *** [json.dumps(obj, ensure_ascii=False)]: insertion order, the
    separators [", "] and [": "] *)

Fixpoint dumps_default (v : value) : string :=
  match v with
  | VNone => "null"
  | VBool true => "true"
  | VBool false => "false"
  | VInt z => str_of_Z z
  | VStr s => json_string s
  | VList l => "[" ++ String.concat ", " (map dumps_default l) ++ "]"
  | VDict d =>
      "{" ++ String.concat ", "
               (map (fun kv => match kv with
                               | (k, x) =>
                                   (json_string k ++ ": " ++ dumps_default x)%string
                               end) d) ++ "}"
  end.

(** *** [json.dumps(obj, ensure_ascii=False, indent=2)], which is what
    [json.dump] writes: one item per line, two more spaces per level, an
    empty list or dict on one line *)

Definition newline : ascii := "010"%char.

Fixpoint spaces (n : nat) : string :=
  match n with
  | O => EmptyString
  | S n' => String " " (spaces n')
  end.

Definition newline_indent (level : nat) : string :=
  String newline (spaces (2 * level)).

Fixpoint dumps_indent (level : nat) (v : value) : string :=
  match v with
  | VNone => "null"
  | VBool true => "true"
  | VBool false => "false"
  | VInt z => str_of_Z z
  | VStr s => json_string s
  | VList [] => "[]"
  | VList l =>
      "[" ++ newline_indent (S level) ++
      String.concat ("," ++ newline_indent (S level))%string
                    (map (dumps_indent (S level)) l) ++
      newline_indent level ++ "]"
  | VDict [] => "{}"
  | VDict d =>
      "{" ++ newline_indent (S level) ++
      String.concat ("," ++ newline_indent (S level))%string
                    (map (fun kv => match kv with
                                    | (k, x) =>
                                        (json_string k ++ ": " ++
                                         dumps_indent (S level) x)%string
                                    end) d) ++
      newline_indent level ++ "}"
  end.

(** *** Files *)

Definition filesystem : Type := list (string * string).

(** [os.path.join(a, b)] for a relative [b]. *)
Definition ends_with (s suffix : string) : bool :=
  let n := String.length s in
  let m := String.length suffix in
  Nat.leb m n && String.eqb (String.substring (n - m) m s) suffix.

Definition path_join (a b : string) : string :=
  match a with
  | EmptyString => b
  | _ => if ends_with a "/" then (a ++ b)%string else (a ++ "/" ++ b)%string
  end.

(** [_read_bytes] *)
Definition _read_bytes (fs : filesystem) (p : string) : string :=
  if negb (dict_mem fs p) then EmptyString
  else match dict_get fs p with
       | Some content => content
       | None => EmptyString
       end.

(** [_append_jsonl]: mode ["a"] creates the file when it is missing.
    The write encodes the line as UTF-8 and raises on a lone surrogate:
    the file system is the one the call leaves for an [encodable]
    record. *)
Definition _append_jsonl (fs : filesystem) (path : string) (obj : dict)
  : filesystem :=
  let old := match dict_get fs path with
             | Some content => content
             | None => EmptyString
             end in
  dict_set fs path
           (old ++ dumps_default (VDict obj) ++ String newline EmptyString)%string.

(** [if os.path.exists(p): os.remove(p)] *)
Definition remove_if_exists (fs : filesystem) (p : string) : filesystem :=
  if dict_mem fs p then dict_pop fs p else fs.

(** *** [main] *)

Section Runner.

(** [ROOT], and the readings of the clock in the order they are taken. *)
Variable ROOT : string.
Variable now : nat -> Z.

Definition OUT_DIR : string := path_join ROOT "out".
Definition receipts_path : string := path_join OUT_DIR "receipts.jsonl".
Definition tomb_path : string := path_join OUT_DIR "tombstone.jsonl".
Definition seal_path : string := path_join OUT_DIR "ledger_seal.jsonl".
Definition summary_path : string := path_join OUT_DIR "summary.json".

(** The state of the loop: the files, the dict [summary], and how many
    times the clock was read. *)
Record run_state : Type := {
  rs_fs : filesystem;
  rs_ok : Z;
  rs_fail : Z;
  rs_details : list value;
  rs_tick : nat
}.

(** [env.get("tcc", {}).get(k)] *)
Definition tcc_field (env : dict) (k : string) : result value :=
  tcc <- py_get (VDict env) "tcc" (VDict []) ;;
  py_get tcc k VNone.

(** The body of the loop for the file [fn] whose document is [doc]. *)
Definition process_vector (anchors : dict) (fn : string) (doc : value)
  (st : run_state) : result run_state :=
  match doc with
  | VDict env0 =>
      let env := _auto_fill_witness env0 in
      r <- verify env anchors ;;
      let '(ok, reason, dbg) := r in
      let ts := now (rs_tick st) in
      let row := VDict [("file", VStr fn); ("ok", VBool ok);
                        ("reason", VStr reason); ("debug", VDict dbg)] in
      let details := rs_details st ++ [row] in
      if ok then
        proposal_digest <- py_getitem (VDict env) "proposal_digest" ;;
        action_class <- py_getitem (VDict env) "action_class" ;;
        energy_est_uj <- py_getitem (VDict env) "energy_est_uj" ;;
        epoch <- tcc_field env "epoch" ;;
        nonce <- tcc_field env "nonce" ;;
        let receipt :=
          [("kind", VStr "RECEIPT"); ("ts", VInt ts); ("file", VStr fn);
           ("proposal_digest", proposal_digest);
           ("action_class", action_class);
           ("energy_est_uj", energy_est_uj);
           ("epoch", epoch); ("nonce", nonce);
           ("allow", VBool true); ("reason_code", VStr "OK")] in
        Returned {| rs_fs := _append_jsonl (rs_fs st) receipts_path receipt;
                    rs_ok := rs_ok st + 1;
                    rs_fail := rs_fail st;
                    rs_details := details;
                    rs_tick := S (rs_tick st) |}
      else
        epoch <- tcc_field env "epoch" ;;
        nonce <- tcc_field env "nonce" ;;
        let tomb :=
          [("kind", VStr "TOMBSTONE"); ("ts", VInt ts); ("file", VStr fn);
           ("proposal_digest", get_or_none env "proposal_digest");
           ("action_class", get_or_none env "action_class");
           ("energy_est_uj", get_or_none env "energy_est_uj");
           ("epoch", epoch); ("nonce", nonce);
           ("allow", VBool false); ("reason_code", VStr reason);
           ("failure_stage", get_or_none dbg "stage");
           ("detail", get_or_none dbg "detail")] in
        Returned {| rs_fs := _append_jsonl (rs_fs st) tomb_path tomb;
                    rs_ok := rs_ok st;
                    rs_fail := rs_fail st + 1;
                    rs_details := details;
                    rs_tick := S (rs_tick st) |}
  | _ => Raised AttributeError
  end.

(** [sorted([f for f in os.listdir(VEC_DIR) if f.endswith(".json")])],
    each name with its document. *)
Definition vector_files (vec_dir : list (string * value))
  : list (string * value) :=
  sort_items (filter (fun kv => ends_with (fst kv) ".json") vec_dir).

(** The [for fn in files] loop; an exception ends it with the state
    reached before the file that raised. *)
Fixpoint run_loop (anchors : dict) (files : list (string * value))
  (st : run_state) : option exn * run_state :=
  match files with
  | [] => (None, st)
  | (fn, doc) :: files' =>
      match process_vector anchors fn doc st with
      | Returned st' => run_loop anchors files' st'
      | Raised e => (Some e, st)
      end
  end.

(** [main]: the lines printed, or the exception, and the files left. *)
Definition main (anchors : dict) (vec_dir : list (string * value))
  (fs : filesystem) : result (list string) * filesystem :=
  let fs0 :=
    fold_left remove_if_exists
              [receipts_path; tomb_path; seal_path; summary_path] fs in
  let files := vector_files vec_dir in
  let st0 := {| rs_fs := fs0; rs_ok := 0; rs_fail := 0;
                rs_details := []; rs_tick := O |} in
  match run_loop anchors files st0 with
  | (Some e, st) => (Raised e, rs_fs st)
  | (None, st) =>
      let receipts_bytes := _read_bytes (rs_fs st) receipts_path in
      let tomb_bytes := _read_bytes (rs_fs st) tomb_path in
      let seal :=
        [("kind", VStr "LEDGER_SEAL"); ("ts", VInt (now (rs_tick st)));
         ("receipts_sha256", VStr (_sha256_hex receipts_bytes));
         ("tombstone_sha256", VStr (_sha256_hex tomb_bytes));
         ("root_sha256",
          VStr (_sha256_hex
                  (receipts_bytes ++ String newline EmptyString ++ tomb_bytes)%string))]
      in
      let fs1 := _append_jsonl (rs_fs st) seal_path seal in
      let summary :=
        VDict [("ok", VInt (rs_ok st)); ("fail", VInt (rs_fail st));
               ("details", VList (rs_details st))] in
      let fs2 := dict_set fs1 summary_path (dumps_indent 0 summary) in
      (Returned ["DONE.";
                 ("OK=" ++ str_of_Z (rs_ok st) ++
                  " FAIL=" ++ str_of_Z (rs_fail st))%string;
                 ("Outputs: " ++ OUT_DIR)%string],
       fs2)
  end.

End Runner.

(** The number of line ends in a text. *)
Fixpoint count_lines (s : string) : nat :=
  match s with
  | EmptyString => O
  | String c s' => (if Ascii.eqb c newline then 1 else 0) + count_lines s'
  end.

(** A character that is not a control character. *)
Definition printable (c : ascii) : bool := negb (N.ltb (N_of_ascii c) 32).

Definition all_printable (s : string) : bool :=
  forallb printable (list_ascii_of_string s).

(** The name a row of [summary["details"]] records. *)
Definition row_file (row : value) : value :=
  match row with
  | VDict d => get_or_none d "file"
  | _ => VNone
  end.

(** Whether the runner's loop writes a receipt for a file of the vector
    directory. *)
Definition admitted (anchors : dict) (file : string * value) : bool :=
  match snd file with
  | VDict env =>
      match verify (_auto_fill_witness env) anchors with
      | Returned (true, _, _) => true
      | _ => false
      end
  | _ => false
  end.

(** A run of [main] on three vectors and a stale ledger: a vector that
    asks for its witness and is admitted, one whose certificate has a
    cycle, and a file that is no vector. *)
Definition sample_run : result (list string) * filesystem :=
  Eval vm_compute in
    main "/repo" (fun _ => 1700000000) sample_anchors
         [("b.json",
           VDict (sample_env (VStr "FAST")
                    (sample_tcc (VList (sample_nodes sample_hashes))
                                (VList sample_edges))));
          ("a.json", VDict (env_cycle (VList [])));
          ("notes.txt", VNone)]
         [("/repo/out/receipts.jsonl", "stale");
          ("/repo/out/ledger_seal.jsonl", "stale")].

(** A run that aborts: the second vector, in sorted order, is a list. *)
Definition sample_aborted_run : result (list string) * filesystem :=
  Eval vm_compute in
    main "/repo" (fun _ => 1700000000) sample_anchors
         [("b.json", VList []);
          ("a.json", VDict (env_cycle (VList [])));
          ("c.json", VDict (env_cycle (VList [])))]
         [("/repo/out/summary.json", "stale")].

(** ** The same document under two insertion orders *)

(** Two values as Python holds them, equal in structure and content. *)
Definition same (a b : value) : Prop :=
  wf_value a = true /\ wf_value b = true /\ struct_eq a b = true.

Definition same_opt (o o' : option value) : Prop :=
  match o, o' with
  | Some x, Some y => same x y
  | None, None => True
  | _, _ => False
  end.

(** Two results: the same exception, or returned values related by
    [rel]. *)
Definition same_result {A : Type} (rel : A -> A -> Prop) (r r' : result A)
  : Prop :=
  match r, r' with
  | Returned x, Returned y => rel x y
  | Raised e, Raised e' => e = e'
  | _, _ => False
  end.

(** * Properties *)

(** ** The embedding agrees with Python on sample inputs *)

Example sha256_empty :
  _sha256_hex "" = "e3b0c44298fc1c149afbf4c8996fb92427ae41e4649b934ca495991b7852b855".
Proof. vm_compute. reflexivity. Qed.

Example sha256_abc :
  _sha256_hex "abc" = "ba7816bf8f01cfea414140de5dae2223b00361a396177a9cb410ff61f20015ad".
Proof. vm_compute. reflexivity. Qed.

Example sha256_two_blocks :
  _sha256_hex "aaaaaaaaaaaaaaaaaaaaaaaaaaaaaaaaaaaaaaaaaaaaaaaaaaaaaaaa" =
  "b35439a4ac6f0948b6d6f9e3c6af0f5f590ce20f1bde7090ef7970686ec6738a".
Proof. vm_compute. reflexivity. Qed.

Example dumps_sample :
  dumps (VDict [("b", VList [VInt 1; VBool true; VNone]);
                ("a", VDict [("z", VStr "x"); ("y", VInt (-3))])])
  = String.concat (str1 dquote)
      ["{"; "a"; ":{"; "y"; ":-3,"; "z"; ":"; "x"; "},"; "b"; ":[1,true,null]}"].
Proof. vm_compute. reflexivity. Qed.

(** ** Case analysis of the gate chain *)

Ltac reasons :=
  cbv [REASON_SCHEMA REASON_TOPO REASON_TARGET REASON_ANCHOR_C REASON_ANCHOR_E
       REASON_COVER REASON_BUDGET REASON_WITNESS] in *.

(** Splits the hypothesis [H : verify_gates env anchors = _] along the
    branches of the chain, in the order the gates run, keeping the
    equation of each test. *)
Ltac gates_inv H :=
  unfold verify_gates, reject in H;
  repeat match type of H with
         | bind ?m _ = _ =>
             let E := fresh "E" in
             destruct m eqn:E; cbn [bind] in H
         | (let '(_, _) := ?p in _) = _ => destruct p
         | match ?x with _ => _ end = _ =>
             let E := fresh "E" in
             destruct x eqn:E
         end.

Lemma verify_gates_reason env anchors ok reason d :
  verify_gates env anchors = Returned (Some (ok, reason, d)) ->
  ok = false /\
  In reason [REASON_SCHEMA; REASON_TOPO; REASON_TARGET; REASON_ANCHOR_C;
             REASON_ANCHOR_E; REASON_COVER; REASON_BUDGET].
Proof.
  intros H. gates_inv H; inversion H; subst; split; try reflexivity;
    simpl; tauto.
Qed.

(** ** dict operations *)

Lemma dict_pop_set {V : Type} (d : list (string * V)) k v :
  dict_pop (dict_set d k v) k = dict_pop d k.
Proof.
  induction d as [|[k' v'] d IH]; simpl.
  - now rewrite String.eqb_refl.
  - destruct (String.eqb k' k) eqn:E; simpl; rewrite E; simpl.
    + reflexivity.
    + now rewrite IH.
Qed.

Lemma dict_get_set {V : Type} (d : list (string * V)) k v :
  dict_get (dict_set d k v) k = Some v.
Proof.
  induction d as [|[k' v'] d IH]; simpl.
  - now rewrite String.eqb_refl.
  - destruct (String.eqb k' k) eqn:E; simpl; now rewrite E.
Qed.

Lemma dict_pop_idem {V : Type} (d : list (string * V)) k :
  dict_pop (dict_pop d k) k = dict_pop d k.
Proof.
  unfold dict_pop. induction d as [|[k' v'] d IH]; simpl; [reflexivity|].
  destruct (String.eqb k' k) eqn:E; simpl; [assumption|].
  rewrite E. simpl. now rewrite IH.
Qed.

Lemma py_eq_str s : py_eq (VStr s) (VStr s) = true.
Proof. simpl. apply String.eqb_refl. Qed.

(** ** The witness gate *)

Lemma witness_gate_filled env :
  witness_gate
    (dict_set env "witness_hash"
       (VStr (compute_witness_hash (dict_pop env "witness_hash"))))
  = (true, "OK", [("stage", VStr "ok")]).
Proof.
  unfold witness_gate, get_or_none.
  rewrite dict_get_set, dict_pop_set, py_eq_str. reflexivity.
Qed.

Lemma verify_witness_mismatch env anchors d :
  verify env anchors = Returned (false, REASON_WITNESS, d) ->
  witness_gate env = (false, REASON_WITNESS, d).
Proof.
  unfold verify. intros H.
  destruct (verify_gates env anchors) as [[[[ok reason] d']|]|e] eqn:E;
    cbn [bind] in H; inversion H; subst.
  - apply verify_gates_reason in E. destruct E as [_ E].
    reasons. simpl in E. intuition discriminate.
  - reflexivity.
Qed.

(** C6. Witness round trip: for every envelope, the envelope with
    [witness_hash] removed, given as [witness_hash] the canonical hash
    computed on it, passes the witness gate, and [verify] never answers
    [witness_mismatch] for it, whatever the anchors. *)
Theorem witness_round_trip :
  forall env : dict,
    let env_wo := dict_pop env "witness_hash" in
    let env' :=
      dict_set env_wo "witness_hash" (VStr (compute_witness_hash env_wo)) in
    witness_gate env' = (true, "OK", [("stage", VStr "ok")]) /\
    forall anchors d, verify env' anchors <> Returned (false, REASON_WITNESS, d).
Proof.
  intros env env_wo env'.
  assert (G : witness_gate env' = (true, "OK", [("stage", VStr "ok")])).
  { pose proof (witness_gate_filled env_wo) as F.
    unfold env_wo in F at 2. rewrite dict_pop_idem in F. exact F. }
  split; [exact G|].
  intros anchors d H. apply verify_witness_mismatch in H.
  rewrite G in H. discriminate.
Qed.

(** The same for [_auto_fill_witness]: an envelope that asks for ["AUTO"]
    is filled in place and passes the witness gate. *)
Lemma auto_fill_passes_witness_gate env :
  get_or_none env "witness_hash" = VStr "AUTO" ->
  witness_gate (_auto_fill_witness env) = (true, "OK", [("stage", VStr "ok")]).
Proof.
  intros H. unfold _auto_fill_witness. rewrite H, py_eq_str.
  apply witness_gate_filled.
Qed.

(** ** The order on strings and the sort of the items of a dict *)

Lemma leb_refl s : String.leb s s = true.
Proof.
  destruct (String.leb_total s s); assumption.
Qed.

Lemma leb_lt_or_eq s t :
  String.leb s t = true <-> String_as_OT.lt s t \/ s = t.
Proof.
  unfold String.leb.
  destruct (String.compare s t) eqn:C.
  - apply String.compare_eq_iff in C. intuition.
  - apply String_as_OT.cmp_lt in C. intuition.
  - split; [discriminate|]. intros [L | E].
    + apply String_as_OT.cmp_lt in L. unfold String_as_OT.cmp in L. congruence.
    + subst. pose proof (String_as_OT.cmp_eq t t) as Q.
      unfold String_as_OT.cmp in Q. rewrite C in Q.
      destruct Q as [_ Q]. discriminate (Q eq_refl).
Qed.

Lemma leb_trans s t u :
  String.leb s t = true -> String.leb t u = true -> String.leb s u = true.
Proof.
  rewrite !leb_lt_or_eq. intros [L1 | E1] [L2 | E2]; subst; auto.
  left. eapply String_as_OT.lt_trans; eassumption.
Qed.

Lemma insert_item_perm {V : Type} (kv : string * V) l :
  Permutation (kv :: l) (insert_item kv l).
Proof.
  induction l as [|kv' l IH]; simpl; [apply Permutation_refl|].
  destruct (String.leb (fst kv) (fst kv')); [apply Permutation_refl|].
  eapply perm_trans; [apply perm_swap|]. now apply perm_skip.
Qed.

Lemma sort_items_perm {V : Type} (l : list (string * V)) :
  Permutation l (sort_items l).
Proof.
  induction l as [|kv l IH]; simpl; [constructor|].
  eapply perm_trans; [|apply insert_item_perm]. now apply perm_skip.
Qed.

Lemma insert_item_sorted {V : Type} (kv : string * V) l :
  StronglySorted key_le l -> StronglySorted key_le (insert_item kv l).
Proof.
  induction 1 as [|kv' l S IH F]; simpl.
  - repeat constructor.
  - destruct (String.leb (fst kv) (fst kv')) eqn:E.
    + constructor; [now constructor|].
      constructor; [exact E|].
      eapply Forall_impl; [|exact F]. intros c Hc.
      unfold key_le in *. eapply leb_trans; eassumption.
    + constructor; [exact IH|].
      eapply Permutation_Forall; [apply insert_item_perm|].
      constructor; [|exact F]. unfold key_le.
      destruct (String.leb_total (fst kv) (fst kv')); congruence.
Qed.

Lemma sort_items_sorted {V : Type} (l : list (string * V)) :
  StronglySorted key_le (sort_items l).
Proof.
  induction l; simpl; [constructor|now apply insert_item_sorted].
Qed.

Lemma same_key_same_item {V : Type} (l : list (string * V)) a b :
  NoDup (map fst l) -> In a l -> In b l -> fst a = fst b -> a = b.
Proof.
  induction l as [|c l IH]; simpl; [tauto|].
  intros N Ha Hb E. inversion N as [|? ? Nc N']; subst.
  destruct Ha as [-> | Ha], Hb as [-> | Hb]; auto.
  - exfalso. apply Nc. rewrite E. now apply in_map.
  - exfalso. apply Nc. rewrite <- E. now apply in_map.
Qed.

(** Two key-sorted lists with distinct keys and the same items are the
    same list. *)
Lemma sorted_items_unique {V : Type} (l1 l2 : list (string * V)) :
  StronglySorted key_le l1 -> StronglySorted key_le l2 ->
  NoDup (map fst l2) -> Permutation l1 l2 -> l1 = l2.
Proof.
  intros S1. revert l2.
  induction S1 as [|a l1 S1 IH F1]; intros l2 S2 N P.
  - apply Permutation_nil in P. now subst.
  - destruct l2 as [|b l2].
    + apply Permutation_sym, Permutation_nil in P. discriminate.
    + inversion S2 as [|? ? S2' F2]; subst.
      assert (a = b) as ->.
      { assert (Ia : In a (b :: l2))
          by (eapply Permutation_in; [exact P|now left]).
        assert (Ib : In b (a :: l1))
          by (eapply Permutation_in; [apply Permutation_sym; exact P|now left]).
        destruct Ia as [Ia | Ia]; [now subst|].
        destruct Ib as [Ib | Ib]; [now subst|].
        apply (same_key_same_item (b :: l2)); auto; [now right|now left|].
        rewrite Forall_forall in F1, F2.
        apply String.leb_antisym; [apply (F1 _ Ib)|apply (F2 _ Ia)]. }
      f_equal. apply IH; auto.
      * simpl in N. now inversion N.
      * eapply Permutation_cons_inv; exact P.
Qed.

Lemma sort_items_perm_eq {V : Type} (l1 l2 : list (string * V)) :
  NoDup (map fst l2) -> Permutation l1 l2 -> sort_items l1 = sort_items l2.
Proof.
  intros N P. apply sorted_items_unique; try apply sort_items_sorted.
  - eapply Permutation_NoDup; [|exact N].
    apply Permutation_map, sort_items_perm.
  - eapply perm_trans; [apply Permutation_sym, sort_items_perm|].
    eapply perm_trans; [exact P|apply sort_items_perm].
Qed.

(** Encoding the values of the items commutes with sorting them. *)
Lemma insert_item_map {V W : Type} (f : V -> W) (kv : string * V) l :
  insert_item (fst kv, f (snd kv)) (map (fun c => (fst c, f (snd c))) l)
  = map (fun c => (fst c, f (snd c))) (insert_item kv l).
Proof.
  induction l as [|c l IH]; simpl; [reflexivity|].
  destruct (String.leb (fst kv) (fst c)); simpl; [reflexivity|].
  now rewrite IH.
Qed.

Lemma sort_items_map {V W : Type} (f : V -> W) (l : list (string * V)) :
  sort_items (map (fun c => (fst c, f (snd c))) l)
  = map (fun c => (fst c, f (snd c))) (sort_items l).
Proof.
  induction l as [|c l IH]; simpl; [reflexivity|].
  rewrite IH. apply insert_item_map.
Qed.

(** ** Sets, dicts and the predicates on values *)

Lemma set_mem_In s x : set_mem s x = true <-> In x s.
Proof.
  unfold set_mem. rewrite existsb_exists. split.
  - intros [y [I E]]. apply String.eqb_eq in E. now subst.
  - intros I. exists x. split; [exact I|apply String.eqb_refl].
Qed.

Lemma set_mem_false s x : set_mem s x = false <-> ~ In x s.
Proof.
  rewrite <- set_mem_In. destruct (set_mem s x); intuition congruence.
Qed.

Lemma nodupb_NoDup l : nodupb l = true <-> NoDup l.
Proof.
  induction l as [|x l IH]; simpl.
  - split; [constructor|reflexivity].
  - rewrite andb_true_iff, negb_true_iff, set_mem_false, IH. split.
    + intros [A B]. now constructor.
    + intros N. inversion N. auto.
Qed.

Lemma dict_get_In {V : Type} (d : list (string * V)) k v :
  dict_get d k = Some v -> In (k, v) d.
Proof.
  induction d as [|[k' v'] d IH]; simpl; [discriminate|].
  destruct (String.eqb k' k) eqn:E.
  - apply String.eqb_eq in E. intros [= ->]. subst. now left.
  - intros H. right. now apply IH.
Qed.

Lemma dict_get_None {V : Type} (d : list (string * V)) k :
  dict_get d k = None <-> ~ In k (map fst d).
Proof.
  induction d as [|[k' v'] d IH]; simpl; [tauto|].
  destruct (String.eqb k' k) eqn:E.
  - apply String.eqb_eq in E. subst. split; [discriminate|tauto].
  - apply String.eqb_neq in E. rewrite IH. tauto.
Qed.

Lemma wf_value_dict d :
  wf_value (VDict d) = true <->
  NoDup (map fst d) /\ forall k x, In (k, x) d -> wf_value x = true.
Proof.
  cbn [wf_value]. rewrite andb_true_iff, nodupb_NoDup, forallb_forall.
  split; intros [N F]; split; auto.
  - intros k x I. apply (F (k, x) I).
  - intros [k x] I. eapply F; eassumption.
Qed.

Lemma wf_value_list l :
  wf_value (VList l) = true <-> forall x, In x l -> wf_value x = true.
Proof. cbn [wf_value]. apply forallb_forall. Qed.

Lemma struct_eq_list l1 l2 :
  struct_eq (VList l1) (VList l2) = true <->
  Forall2 (fun x y => struct_eq x y = true) l1 l2.
Proof.
  cbn [struct_eq]. revert l2.
  induction l1 as [|x l1 IH]; intros [|y l2]; split; intros H;
    try discriminate; try constructor; try (now inversion H).
  - apply andb_true_iff in H. tauto.
  - apply andb_true_iff in H. apply IH. tauto.
  - inversion H; subst. apply andb_true_iff. split; [assumption|now apply IH].
Qed.

Lemma struct_eq_dict d1 d2 :
  struct_eq (VDict d1) (VDict d2) = true <->
  List.length d1 = List.length d2 /\
  forall k v, In (k, v) d1 ->
              exists w, dict_get d2 k = Some w /\ struct_eq v w = true.
Proof.
  cbn [struct_eq]. rewrite andb_true_iff, Nat.eqb_eq.
  apply and_iff_compat_l.
  induction d1 as [|[k v] d1 IH].
  - split; [intros _ ? ? []|reflexivity].
  - rewrite andb_true_iff, IH. split.
    + intros [A B] k' v' [[= <- <-] | I]; [|now apply B].
      destruct (dict_get d2 k) as [w|]; [|discriminate]. now exists w.
    + intros F. split.
      * destruct (F k v (or_introl eq_refl)) as [w [-> E]]. exact E.
      * intros k' v' I. apply F. now right.
Qed.

Lemma dumps_dict d :
  dumps (VDict d) =
  ("{" ++ String.concat ","
            (map json_item
                 (sort_items (map (fun c => (fst c, dumps (snd c))) d))) ++ "}")%string.
Proof.
  cbn [dumps]. do 5 f_equal. apply map_ext. now intros [k x].
Qed.

(** ** Canonical encoding and the insertion order of keys *)

Lemma dumps_struct_eq a :
  forall b, wf_value a = true -> wf_value b = true ->
            struct_eq a b = true -> dumps a = dumps b.
Proof.
  induction a as [| x | x | s | l1 IH | d1 IH] using value_ind;
    intros b Wa Wb E; destruct b as [| y | y | t | l2 | d2];
    try discriminate E.
  - reflexivity.
  - apply Bool.eqb_prop in E. now subst.
  - apply Z.eqb_eq in E. now subst.
  - apply String.eqb_eq in E. now subst.
  - apply struct_eq_list in E. cbn [dumps]. do 3 f_equal.
    rewrite wf_value_list in Wa, Wb.
    induction E as [|x y l1 l2 Exy E IHE]; [reflexivity|].
    inversion IH as [|? ? Hx IH']; subst. simpl. f_equal.
    + apply Hx; auto; [apply Wa|apply Wb]; now left.
    + apply IHE; auto; intros z I; [apply Wa|apply Wb]; now right.
  - apply struct_eq_dict in E. destruct E as [L E].
    apply wf_value_dict in Wa, Wb.
    destruct Wa as [N1 W1], Wb as [N2 W2].
    rewrite !dumps_dict. do 4 f_equal.
    set (enc := fun c : string * value => (fst c, dumps (snd c))).
    assert (K : forall d, map fst (map enc d) = map fst d)
      by (intros d; rewrite map_map; reflexivity).
    apply sort_items_perm_eq; [now rewrite K|].
    apply NoDup_Permutation_bis.
    + apply (NoDup_map_inv fst). now rewrite K.
    + rewrite !length_map. lia.
    + intros c I. apply in_map_iff in I. destruct I as [[k v] [<- I]].
      destruct (E k v I) as [w [G S]].
      apply dict_get_In in G.
      rewrite Forall_forall in IH.
      assert (Q : dumps v = dumps w) by (apply (IH (k, v) I w); eauto).
      unfold enc at 1. cbn [fst snd]. rewrite Q.
      change (k, dumps w) with (enc (k, w)). now apply in_map.
Qed.

Lemma hex_digit_lower x : is_lower_hex (Sha256.hex_digit x) = true.
Proof.
  unfold Sha256.hex_digit.
  assert (F : forallb is_lower_hex (list_ascii_of_string "0123456789abcdef") = true)
    by reflexivity.
  rewrite forallb_forall in F.
  destruct (nth_in_or_default (Z.to_nat x)
              (list_ascii_of_string "0123456789abcdef") "0"%char) as [I | ->].
  - now apply F.
  - reflexivity.
Qed.

Lemma list_ascii_app s t :
  list_ascii_of_string (s ++ t) = (list_ascii_of_string s ++ list_ascii_of_string t)%list.
Proof. induction s; simpl; [reflexivity|now f_equal]. Qed.

Lemma string_length_app s t :
  String.length (s ++ t) = (String.length s + String.length t)%nat.
Proof. induction s; simpl; [reflexivity|now f_equal]. Qed.

Lemma hex_shape n x :
  String.length (Sha256.hex n x) = n /\
  forallb is_lower_hex (list_ascii_of_string (Sha256.hex n x)) = true.
Proof.
  revert x. induction n as [|n IH]; intros x; simpl; [auto|].
  destruct (IH (Z.shiftr x 4)) as [L F].
  rewrite string_length_app, list_ascii_app, forallb_app, L, F.
  simpl. rewrite hex_digit_lower. split; [lia|reflexivity].
Qed.

Lemma sha256_hex_is_hexdigest b : is_hexdigest (_sha256_hex b) = true.
Proof.
  unfold _sha256_hex, Sha256.hexdigest, Sha256.digest.
  destruct (Sha256.blocks _ _ _) as [[[[[[[a0 a1] a2] a3] a4] a5] a6] a7].
  unfold is_hexdigest. cbn [map String.concat].
  repeat rewrite string_length_app.
  repeat rewrite list_ascii_app. repeat rewrite forallb_app.
  repeat match goal with
         | |- context [Sha256.hex 8 ?w] =>
             let L := fresh "L" in let F := fresh "F" in
             destruct (hex_shape 8 w) as [L F];
             rewrite ?L, ?F; clear L F;
             generalize (Sha256.hex 8 w); intro
         end.
  reflexivity.
Qed.

(** C5. Canonical hashing does not depend on the insertion order of keys:
    two values of equal structure and content, whose dicts may list their
    keys in different orders, have the same canonical encoding, hence the
    same SHA-256 digest, which is 64 lowercase hexadecimal characters; for
    two such dicts [compute_witness_hash] gives the same result. *)
Theorem canonical_hash_key_order_independent :
  forall a b : value,
    wf_value a = true -> wf_value b = true -> struct_eq a b = true ->
    _canonical_json_bytes a = _canonical_json_bytes b /\
    _sha256_hex (_canonical_json_bytes a) = _sha256_hex (_canonical_json_bytes b) /\
    is_hexdigest (_sha256_hex (_canonical_json_bytes a)) = true /\
    (forall d1 d2, a = VDict d1 -> b = VDict d2 ->
                   compute_witness_hash d1 = compute_witness_hash d2).
Proof.
  intros a b Wa Wb E.
  assert (D : _canonical_json_bytes a = _canonical_json_bytes b)
    by (unfold _canonical_json_bytes; now apply dumps_struct_eq).
  repeat split.
  - exact D.
  - now rewrite D.
  - apply sha256_hex_is_hexdigest.
  - intros d1 d2 -> ->. unfold compute_witness_hash. now rewrite D.
Qed.

Lemma canonical_hash_key_order_independent_witness :
  let a := VDict [("b", VInt 2);
                  ("a", VDict [("y", VNone); ("x", VList [VBool true; VStr "s"])])] in
  let b := VDict [("a", VDict [("x", VList [VBool true; VStr "s"]); ("y", VNone)]);
                  ("b", VInt 2)] in
  _canonical_json_bytes a = _canonical_json_bytes b /\
  _sha256_hex (_canonical_json_bytes a) = _sha256_hex (_canonical_json_bytes b) /\
  is_hexdigest (_sha256_hex (_canonical_json_bytes a)) = true /\
  (forall d1 d2, a = VDict d1 -> b = VDict d2 ->
                 compute_witness_hash d1 = compute_witness_hash d2).
Proof.
  intros a b.
  apply (canonical_hash_key_order_independent a b); reflexivity.
Defined.

(** ** The coverage gate *)

Lemma set_add_In s y x : In x (set_add s y) <-> In x s \/ x = y.
Proof.
  unfold set_add. destruct (set_mem s y) eqn:E.
  - apply set_mem_In in E. split; [tauto|]. intros [I | ->]; assumption.
  - rewrite in_app_iff. simpl. intuition.
Qed.

Lemma set_add_NoDup s y : NoDup s -> NoDup (set_add s y).
Proof.
  intros N. unfold set_add. destruct (set_mem s y) eqn:E; [exact N|].
  apply set_mem_false in E.
  apply NoDup_app; [exact N|repeat constructor; tauto|].
  intros x I [<- | []]. congruence.
Qed.

Lemma gate_step_In passed it g :
  In g (gate_step passed it) <-> In g passed \/ reports_pass it g.
Proof.
  unfold gate_step, reports_pass.
  destruct it as [| | | | |d];
    try (split; [tauto|intros [I | [d [D _]]]; [exact I|discriminate D]]).
  destruct (get_or_none d "gate_id") as [| | |g'| |] eqn:G;
    try (split; [tauto|intros [I | [d' [[= <-] [G' _]]]];
                        [exact I|congruence]]).
  destruct (py_eq (get_or_none d "output") (VInt 0)) eqn:O.
  - rewrite set_add_In. split.
    + intros [I | ->]; [now left|]. right. exists d. auto.
    + intros [I | [d' [[= <-] [G' _]]]]; [now left|]. right. congruence.
  - split; [tauto|]. intros [I | [d' [[= <-] [_ O']]]]; [exact I|congruence].
Qed.

Lemma fold_gate_step_In gos passed g :
  In g (fold_left gate_step gos passed) <->
  In g passed \/ exists it, In it gos /\ reports_pass it g.
Proof.
  revert passed. induction gos as [|it gos IH]; intros passed; simpl.
  - split; [tauto|]. intros [I | [it [[] _]]]. exact I.
  - rewrite IH, gate_step_In. split.
    + intros [[I | R] | [it' [I R]]]; eauto.
    + intros [I | [it' [[<- | I] R]]]; eauto.
Qed.

Lemma fold_gate_step_NoDup gos passed :
  NoDup passed -> NoDup (fold_left gate_step gos passed).
Proof.
  revert passed. induction gos as [|it gos IH]; intros passed N; simpl;
    [exact N|].
  apply IH. unfold gate_step.
  destruct it; try exact N.
  destruct (get_or_none d "gate_id"); try exact N.
  destruct (py_eq _ _); [now apply set_add_NoDup|exact N].
Qed.

(** A later entry for an id that is already in [passed] changes nothing,
    whatever its output. *)
Lemma gate_step_already_passed passed d g :
  get_or_none d "gate_id" = VStr g -> In g passed ->
  gate_step passed (VDict d) = passed.
Proof.
  intros G I. unfold gate_step. rewrite G.
  destruct (py_eq _ _); [|reflexivity].
  unfold set_add. apply set_mem_In in I. now rewrite I.
Qed.

Lemma insert_str_perm x l : Permutation (x :: l) (insert_str x l).
Proof.
  induction l as [|y l IH]; simpl; [apply Permutation_refl|].
  destruct (String.leb x y); [apply Permutation_refl|].
  eapply perm_trans; [apply perm_swap|]. now apply perm_skip.
Qed.

Lemma sorted_perm l : Permutation l (sorted l).
Proof.
  induction l as [|x l IH]; simpl; [constructor|].
  eapply perm_trans; [|apply insert_str_perm]. now apply perm_skip.
Qed.

Lemma insert_str_sorted x l :
  StronglySorted str_le l -> StronglySorted str_le (insert_str x l).
Proof.
  induction 1 as [|y l S IH F]; simpl.
  - repeat constructor.
  - destruct (String.leb x y) eqn:E.
    + constructor; [now constructor|].
      constructor; [exact E|].
      eapply Forall_impl; [|exact F]. intros c Hc.
      unfold str_le in *. eapply leb_trans; eassumption.
    + constructor; [exact IH|].
      eapply Permutation_Forall; [apply insert_str_perm|].
      constructor; [|exact F]. unfold str_le.
      destruct (String.leb_total x y); congruence.
Qed.

Lemma sorted_sorted l : StronglySorted str_le (sorted l).
Proof.
  induction l; simpl; [constructor|now apply insert_str_sorted].
Qed.

Lemma missing_gates_spec passed :
  (forall g, In g (missing_gates passed) <->
             In g REQ_GATES_MIN /\ ~ In g passed) /\
  StronglySorted str_le (missing_gates passed) /\
  NoDup (missing_gates passed).
Proof.
  unfold missing_gates. split; [|split].
  - intros g. split.
    + intros I. eapply Permutation_in in I;
        [|apply Permutation_sym, sorted_perm].
      apply filter_In in I. destruct I as [I N]. split; [exact I|].
      now apply negb_true_iff, set_mem_false in N.
    + intros [I N]. eapply Permutation_in; [apply sorted_perm|].
      apply filter_In. split; [exact I|].
      now apply negb_true_iff, set_mem_false.
  - apply sorted_sorted.
  - eapply Permutation_NoDup; [apply sorted_perm|].
    apply NoDup_filter. apply nodupb_NoDup. reflexivity.
Qed.

Lemma forallb_req_subset passed :
  forallb (set_mem passed) REQ_GATES_MIN = true <->
  (forall g, In g REQ_GATES_MIN -> In g passed).
Proof.
  rewrite forallb_forall. split; intros H g I; apply set_mem_In; auto.
Qed.

(** What a coverage rejection of [verify] carries. *)
Lemma verify_cover_detail env anchors d :
  verify env anchors = Returned (false, REASON_COVER, d) ->
  exists tcc gnode payloadG gate_outputs,
    get_or_none env "tcc" = VDict tcc /\
    _find_nodes_by_type tcc "GateVector" = Returned [gnode] /\
    py_get gnode "payload" (VDict []) = Returned payloadG /\
    py_get payloadG "gate_outputs" (VList []) = Returned (VList gate_outputs) /\
    missing_gates (passed_gates gate_outputs) <> [] /\
    d = [("stage", VStr "coverage");
         ("detail", VStr ("missing=" ++
                          repr_list (missing_gates (passed_gates gate_outputs))))].
Proof.
  unfold verify. intros H.
  destruct (verify_gates env anchors) as [[o|]|e] eqn:E; cbn [bind] in H;
    [| |discriminate].
  2:{ unfold witness_gate in H. destruct (negb _); inversion H. }
  inversion H; subst o; clear H.
  gates_inv E; reasons; try discriminate.
  inversion E; subst.
  do 4 eexists. repeat split; try eassumption.
  intros M.
  match goal with
  | Q : negb (forallb (set_mem (passed_gates ?gos)) _) = true |- _ =>
      apply negb_true_iff in Q;
      assert (S : forallb (set_mem (passed_gates gos)) REQ_GATES_MIN = true);
      [|congruence];
      apply forallb_req_subset; intros g I;
      destruct (in_dec string_dec g (passed_gates gos)) as [Y | N];
      [exact Y|];
      exfalso;
      assert (In g (missing_gates (passed_gates gos)))
        by (apply missing_gates_spec; tauto)
  end.
  rewrite M in *. contradiction.
Qed.

Lemma passed_gates_In gos g :
  In g (passed_gates gos) <-> exists it, In it gos /\ reports_pass it g.
Proof.
  unfold passed_gates. rewrite fold_gate_step_In. simpl. tauto.
Qed.

(** C7, as the code has it.  In the coverage gate the set [passed] holds
    a gate id exactly when some entry of [gate_outputs] is a mapping whose
    [gate_id] is that string, empty or not, and whose [output] equals 0
    ([out == 0]).  An entry for an id that is already in [passed] leaves
    the set as it is whatever its output, so entries that follow never
    revoke a pass.  On a coverage rejection the detail is ["missing="]
    followed by the list of the required ids that are not in [passed],
    sorted and without repetition. *)
Theorem coverage_gate_passed_set :
  (forall gos g,
      In g (passed_gates gos) <->
      exists d, In (VDict d) gos /\
                get_or_none d "gate_id" = VStr g /\
                py_eq (get_or_none d "output") (VInt 0) = true) /\
  (forall passed d g,
      get_or_none d "gate_id" = VStr g -> In g passed ->
      gate_step passed (VDict d) = passed) /\
  (forall gos more g,
      In g (passed_gates gos) -> In g (passed_gates (gos ++ more))) /\
  (forall passed,
      (forall g, In g (missing_gates passed) <->
                 In g REQ_GATES_MIN /\ ~ In g passed) /\
      StronglySorted str_le (missing_gates passed) /\
      NoDup (missing_gates passed)) /\
  (forall env anchors d,
      verify env anchors = Returned (false, REASON_COVER, d) ->
      exists tcc gnode payloadG gate_outputs,
        get_or_none env "tcc" = VDict tcc /\
        _find_nodes_by_type tcc "GateVector" = Returned [gnode] /\
        py_get gnode "payload" (VDict []) = Returned payloadG /\
        py_get payloadG "gate_outputs" (VList []) = Returned (VList gate_outputs) /\
        missing_gates (passed_gates gate_outputs) <> [] /\
        d = [("stage", VStr "coverage");
             ("detail",
              VStr ("missing=" ++
                    repr_list (missing_gates (passed_gates gate_outputs))))]).
Proof.
  split; [|split; [|split; [|split]]].
  - intros gos g. rewrite passed_gates_In. unfold reports_pass. split.
    + intros [it [I [d [-> [G O]]]]]. eauto.
    + intros [d [I [G O]]]. eauto 6.
  - apply gate_step_already_passed.
  - intros gos more g. rewrite !passed_gates_In.
    intros [it [I R]]. exists it. split; [|exact R].
    apply in_or_app. now left.
  - apply missing_gates_spec.
  - apply verify_cover_detail.
Qed.

(** C7 as stated asks the gate id to be a non-empty string; the scan tests
    [isinstance(gid, str)] only, so an entry with the empty id and output 0
    puts the empty string in [passed]. *)
Lemma coverage_gate_keeps_empty_id :
  let gos := [VDict [("gate_id", VStr ""); ("output", VInt 0)]] in
  let g := "" in
  In g (passed_gates gos) /\
  ~ (g <> "" /\
     exists d, In (VDict d) gos /\
               get_or_none d "gate_id" = VStr g /\
               py_eq (get_or_none d "output") (VInt 0) = true).
Proof.
  split.
  - simpl. now left.
  - intros [N _]. now apply N.
Qed.

(** ** The anchor gate *)

(** Two equations with the same left-hand side: the right-hand sides are
    identified. *)
Ltac same_lhs :=
  repeat match goal with
         | A : ?l = ?r1, B : ?l = ?r2 |- _ =>
             rewrite A in B; inversion B; subst; clear B
         end.

Ltac tidy :=
  repeat match goal with
         | H : VDict _ = VDict _ |- _ => inversion H; clear H
         | H : Returned _ = Returned _ |- _ => inversion H; clear H
         | H : Some _ = Some _ |- _ => inversion H; clear H
         end;
  subst.

Lemma verify_from_gates env anchors reason d :
  reason <> REASON_WITNESS ->
  verify env anchors = Returned (false, reason, d) ->
  verify_gates env anchors = Returned (Some (false, reason, d)).
Proof.
  unfold verify. intros N H.
  destruct (verify_gates env anchors) as [[o|]|e]; cbn [bind] in H.
  - now inversion H.
  - unfold witness_gate in H. destruct (negb _); inversion H; subst.
    now contradiction N.
  - discriminate.
Qed.

(** C9. Absent compares equal to absent in the anchor gate: when the
    anchor configuration has no [constitution_hash_current] and the
    payload of the IntentAnchor node has no [h_constitution], the
    comparison of the two succeeds and [verify] does not answer
    [outdated_or_missing_constitution_anchor]; likewise for
    [energy_policy_hash_current] and [h_energy_policy]. *)
Theorem absent_anchor_matches_absent_hash :
  forall (env anchors tcc : dict) (anode : value) (payload : dict),
    get_or_none env "tcc" = VDict tcc ->
    _find_nodes_by_type tcc "IntentAnchor" = Returned [anode] ->
    py_get anode "payload" (VDict []) = Returned (VDict payload) ->
    (dict_get anchors "constitution_hash_current" = None ->
     dict_get payload "h_constitution" = None ->
     py_eq (get_or_none payload "h_constitution")
           (get_or_none anchors "constitution_hash_current") = true /\
     forall d, verify env anchors <> Returned (false, REASON_ANCHOR_C, d)) /\
    (dict_get anchors "energy_policy_hash_current" = None ->
     dict_get payload "h_energy_policy" = None ->
     py_eq (get_or_none payload "h_energy_policy")
           (get_or_none anchors "energy_policy_hash_current") = true /\
     forall d, verify env anchors <> Returned (false, REASON_ANCHOR_E, d)).
Proof.
  intros env anchors tcc anode payload Ht Hf Hp.
  split; intros Ha Hh; (split; [unfold get_or_none; now rewrite Ha, Hh|]);
    intros d H; apply verify_from_gates in H; try (reasons; discriminate);
    gates_inv H; reasons; try discriminate; tidy; same_lhs;
    unfold py_get in *; unfold get_or_none in *;
    rewrite ?Ha, ?Hh in *; tidy; discriminate.
Qed.

Lemma absent_anchor_matches_absent_hash_witness :
  (py_eq (get_or_none [] "h_constitution")
         (get_or_none anchors_without_hashes "constitution_hash_current") = true /\
   forall d, verify env_without_hashes anchors_without_hashes
             <> Returned (false, REASON_ANCHOR_C, d)) /\
  (py_eq (get_or_none [] "h_energy_policy")
         (get_or_none anchors_without_hashes "energy_policy_hash_current") = true /\
   forall d, verify env_without_hashes anchors_without_hashes
             <> Returned (false, REASON_ANCHOR_E, d)) /\
  verify env_without_hashes anchors_without_hashes
  = Returned (true, "OK", [("stage", VStr "ok")]).
Proof.
  destruct (absent_anchor_matches_absent_hash
              env_without_hashes anchors_without_hashes
              (sample_tcc (VList (sample_nodes [])) (VList sample_edges))
              (sample_node "n_anchor" "IntentAnchor" []) []
              eq_refl eq_refl eq_refl) as [C E].
  split; [apply C; reflexivity|].
  split; [apply E; reflexivity|].
  vm_compute. reflexivity.
Defined.

(** ** What [verify] does on malformed input *)

(** C2. [verify] lets an exception escape: an envelope that passes the
    schema checks and lists the number 1 among its nodes makes
    [_build_graph] call [get] on an [int], and the [AttributeError]
    reaches the caller, whatever the anchors. *)
Theorem verify_raises_on_number_node :
  forall anchors : dict,
    verify env_number_node anchors = Raised AttributeError.
Proof. intros anchors. vm_compute. reflexivity. Qed.

(** C3. An envelope whose [action_class] is a list violates the schema
    (and, here, the topology as well: empty root, a cycle), yet [verify]
    does not answer [schema_invalid]: the membership test hashes the list
    and the [TypeError] reaches the caller. *)
Theorem verify_raises_on_list_action_class :
  forall anchors : dict,
    verify env_list_action anchors = Raised TypeError.
Proof. intros anchors. vm_compute. reflexivity. Qed.

(** A numbering of the nodes that every edge increases excludes cycles. *)
Lemma ranked_acyclic (es : list value) (rank : string -> nat) :
  (forall a b, tcc_edge es a b -> (rank a < rank b)%nat) -> tcc_acyclic es.
Proof.
  intros R.
  assert (T : forall a b, clos_trans string (tcc_edge es) a b -> (rank a < rank b)%nat).
  { intros a b C. induction C as [a b E | a b c _ I1 _ I2].
    - now apply R.
    - lia. }
  intros x C. apply T in C. lia.
Qed.

(** The stray entry changes none of the stated invariants: they are read
    on the edges and on the three typed nodes. *)
Lemma stray_node_invariants : stated_invariants env_stray_node sample_anchors.
Proof.
  split; [reflexivity|].
  do 10 eexists.
  split; [reflexivity|].
  split; [reflexivity|].
  split; [reflexivity|].
  split.
  { apply ranked_acyclic with
      (rank := fun s => if String.eqb s "n_target" then 0%nat
                        else if String.eqb s "n_anchor" then 1%nat else 2%nat).
    intros a b E. vm_compute in E.
    destruct E as [E | [E | []]]; injection E as <- <-; vm_compute; lia. }
  split.
  { apply rt_trans with (y := "n_anchor"); apply rt_step; vm_compute; auto. }
  split; [reflexivity|].
  split; [reflexivity|].
  split; [reflexivity|].
  split; [reflexivity|].
  split; [reflexivity|].
  split; [reflexivity|].
  split; [reflexivity|].
  split.
  { intros g I. vm_compute in I. vm_compute.
    repeat (destruct I as [<- | I]; [tauto|]). destruct I. }
  split; [reflexivity|].
  split; [reflexivity|].
  split; [reflexivity|].
  split; [vm_compute; discriminate|].
  vm_compute. reflexivity.
Qed.

(** C1. The valid sample envelope is admitted; the same envelope with a
    stray number in [nodes] (its witness recomputed) passes the schema
    checks and satisfies every stated invariant, and [verify] raises
    instead of admitting it. *)
Theorem verify_raises_on_stray_node :
  verify env_valid sample_anchors = Returned (true, "OK", [("stage", VStr "ok")]) /\
  stated_invariants env_stray_node sample_anchors /\
  verify env_stray_node sample_anchors = Raised AttributeError.
Proof.
  split; [vm_compute; reflexivity|].
  split; [exact stray_node_invariants|].
  vm_compute. reflexivity.
Qed.

(** C4. A certificate with the cycle A -> B -> A is rejected as not a DAG
    when its node list is empty, but with the number 1 in the node list
    [verify] raises before the acyclicity check is reached. *)
Theorem verify_raises_before_cycle_check :
  forall anchors : dict,
    verify (env_cycle (VList [])) anchors
    = Returned (false, REASON_TOPO, debug "topology" "not a DAG") /\
    verify (env_cycle (VList [VInt 1])) anchors = Raised AttributeError.
Proof. intros anchors. split; vm_compute; reflexivity. Qed.

(** C8. The rejection [verify] returns for an envelope that lacks a
    required field carries a stage and no detail. *)
Theorem verify_missing_field_has_no_detail :
  forall anchors : dict,
    verify [] anchors = Returned (false, REASON_SCHEMA, [("stage", VStr "schema")]) /\
    dict_get [("stage", VStr "schema")] "detail" = None.
Proof. intros anchors. split; reflexivity. Qed.

(** ** [verify] and the objects it is given *)

Lemma map_opt_impl {A B : Type} (f g : A -> option B) l r :
  (forall x y, f x = Some y -> g x = Some y) ->
  map_opt f l = Some r -> map_opt g l = Some r.
Proof.
  intros I. revert r. induction l as [|x l IH]; intros r; simpl; [auto|].
  destruct (f x) as [y|] eqn:F; [|discriminate].
  destruct (map_opt f l) as [r'|]; [|discriminate].
  intros [= <-]. now rewrite (I _ _ F), (IH r' eq_refl).
Qed.

Lemma load_item_impl {V W : Type} (f g : V -> option W) :
  (forall x y, f x = Some y -> g x = Some y) ->
  forall kv r, load_item f kv = Some r -> load_item g kv = Some r.
Proof.
  intros I kv r. unfold load_item.
  destruct (f (snd kv)) as [w|] eqn:F; [|discriminate].
  now rewrite (I _ _ F).
Qed.

(** Objects added to the store change no document already in it. *)
Lemma load_ext fuel h ext v x :
  load fuel h v = Some x -> load fuel (h ++ ext) v = Some x.
Proof.
  revert v x. induction fuel as [|f IH]; intros v x; simpl; [discriminate|].
  destruct v as [| | | |l]; auto.
  destruct (nth_error h l) as [o|] eqn:N; [|discriminate].
  rewrite nth_error_app1 by (apply nth_error_Some; congruence).
  rewrite N. destruct o as [items|elems].
  - destruct (map_opt (load_item (load f h)) items) as [r|] eqn:M;
      [|discriminate].
    erewrite map_opt_impl; [eauto| |exact M].
    apply load_item_impl, IH.
  - destruct (map_opt (load f h) elems) as [r|] eqn:M; [|discriminate].
    erewrite map_opt_impl; [eauto| |exact M]. apply IH.
Qed.

Lemma load_more_fuel fuel h v x :
  load fuel h v = Some x -> load (S fuel) h v = Some x.
Proof.
  revert v x. induction fuel as [|f IH]; intros v x; [discriminate|].
  intros L. cbn [load] in L |- *.
  destruct v as [| | | |l]; auto.
  destruct (nth_error h l) as [[items|elems]|]; [| |discriminate].
  - destruct (map_opt (load_item (load f h)) items) as [r|] eqn:M;
      [|discriminate].
    erewrite map_opt_impl; [eauto| |exact M].
    apply load_item_impl, IH.
  - destruct (map_opt (load f h) elems) as [r|] eqn:M; [|discriminate].
    erewrite map_opt_impl; [eauto| |exact M]. apply IH.
Qed.

Lemma map_opt_pop {V W : Type} (f : V -> option W) items e k :
  map_opt (load_item f) items = Some e ->
  map_opt (load_item f) (dict_pop items k) = Some (dict_pop e k).
Proof.
  unfold dict_pop. revert e.
  induction items as [|[k' v] items IH]; intros e; simpl.
  - now intros [= <-].
  - unfold load_item at 1. simpl.
    destruct (f v) as [w|] eqn:F; [|discriminate].
    destruct (map_opt (load_item f) items) as [r|]; [|discriminate].
    intros [= <-]. simpl. destruct (String.eqb k' k); simpl.
    + now apply IH.
    + unfold load_item at 1. simpl. rewrite F. now rewrite (IH r eq_refl).
Qed.

Lemma map_opt_get {V W : Type} (f : V -> option W) items e k :
  map_opt (load_item f) items = Some e ->
  match dict_get items k with
  | Some v => exists x, f v = Some x /\ dict_get e k = Some x
  | None => dict_get e k = None
  end.
Proof.
  revert e. induction items as [|[k' v] items IH]; intros e; simpl.
  - now intros [= <-].
  - unfold load_item at 1. cbn [fst snd].
    destruct (f v) as [w|] eqn:F; [|discriminate].
    destruct (map_opt (load_item f) items) as [r|]; [|discriminate].
    intros [= <-]. simpl. destruct (String.eqb k' k); [eauto|].
    now apply IH.
Qed.

Lemma heap_store_last h o o' :
  heap_store (h ++ [o]) (List.length h) o' = h ++ [o'].
Proof. induction h; simpl; [reflexivity|now f_equal]. Qed.

Lemma witness_gate_on_heap_spec f h env items e :
  nth_error h env = Some (ODict items) ->
  map_opt (load_item (load f h)) items = Some e ->
  witness_gate_on_heap (S f) h env
  = Some (witness_gate e, h ++ [ODict (dict_pop items "witness_hash")]).
Proof.
  intros N M. unfold witness_gate_on_heap, heap_alloc. rewrite N.
  rewrite heap_store_last.
  set (h2 := h ++ [ODict (dict_pop items "witness_hash")]).
  assert (L : load (S f) h2 (HRef (List.length h))
              = Some (VDict (dict_pop e "witness_hash"))).
  { cbn [load]. unfold h2 at 1. rewrite nth_error_app2, Nat.sub_diag by lia.
    cbn [nth_error].
    erewrite map_opt_pop; [reflexivity|].
    eapply map_opt_impl; [|exact M].
    apply load_item_impl. intros. now apply load_ext. }
  rewrite L.
  pose proof (map_opt_get _ _ _ "witness_hash" M) as G.
  unfold witness_gate, get_or_none.
  destruct (dict_get items "witness_hash") as [v|].
  - destruct G as [x [Lx Gx]]. rewrite Gx.
    apply load_more_fuel in Lx.
    apply (load_ext _ _ [ODict (dict_pop items "witness_hash")]) in Lx.
    fold h2 in Lx. rewrite Lx. reflexivity.
  - rewrite G. reflexivity.
Qed.

(** C10. [verify] never mutates its arguments.  With the envelope and the
    anchors held in a store as the dicts [e] and [a], [verify] on the
    store returns what [verify e a] returns and leaves every object of
    the store as it was: the envelope, its certificate and the anchors
    read the same afterwards.  The only object it adds is the copy of the
    envelope from which the witness gate pops [witness_hash]. *)
Theorem verify_leaves_arguments_unchanged :
  forall (fuel : nat) (h : heap) (env anchors : loc) (e a : dict),
    load fuel h (HRef env) = Some (VDict e) ->
    load fuel h (HRef anchors) = Some (VDict a) ->
    exists h',
      verify_on_heap fuel h env anchors = Some (verify e a, h') /\
      (forall l, (l < List.length h)%nat -> nth_error h' l = nth_error h l) /\
      (h' = h \/ exists copy, h' = h ++ [copy]) /\
      load fuel h' (HRef env) = Some (VDict e) /\
      load fuel h' (HRef anchors) = Some (VDict a).
Proof.
  intros fuel h env anchors e a Le La.
  unfold verify_on_heap, verify. rewrite Le, La.
  destruct (verify_gates e a) as [[o|]|x]; cbn [bind].
  - exists h. auto 6.
  - destruct fuel as [|f]; [discriminate|].
    pose proof Le as Le'. cbn [load] in Le'.
    destruct (nth_error h env) as [[items|elems]|] eqn:N;
      try discriminate;
      [|destruct (map_opt (load f h) elems); discriminate].
    destruct (map_opt (load_item (load f h)) items) as [e'|] eqn:M;
      [|discriminate].
    injection Le' as ->.
    rewrite (witness_gate_on_heap_spec f h env items e N M).
    eexists. split; [reflexivity|]. split; [|split; [|split]].
    + intros l B. now apply nth_error_app1.
    + right. eauto.
    + now apply load_ext.
    + now apply load_ext.
  - exists h. auto 6.
Qed.

Lemma verify_leaves_arguments_unchanged_witness :
  let '(h, env, anchors) := sample_heap in
  exists h',
    verify_on_heap (S (List.length h)) h env anchors
    = Some (verify env_valid sample_anchors, h') /\
    (forall l, (l < List.length h)%nat -> nth_error h' l = nth_error h l) /\
    (h' = h \/ exists copy, h' = h ++ [copy]) /\
    load (S (List.length h)) h' (HRef env) = Some (VDict env_valid) /\
    load (S (List.length h)) h' (HRef anchors) = Some (VDict sample_anchors).
Proof.
  apply (verify_leaves_arguments_unchanged
           (S (List.length (fst (fst sample_heap))))
           (fst (fst sample_heap)) (snd (fst sample_heap)) (snd sample_heap)
           env_valid sample_anchors);
    vm_compute; reflexivity.
Defined.

(** ** dicts as finite maps *)

Lemma dict_get_set_other {V : Type} (d : list (string * V)) k k' v :
  k' <> k -> dict_get (dict_set d k v) k' = dict_get d k'.
Proof.
  intros N. induction d as [|[k0 v0] d IH]; simpl.
  - destruct (String.eqb k k') eqn:E; [|reflexivity].
    apply String.eqb_eq in E. congruence.
  - destruct (String.eqb k0 k) eqn:E; simpl.
    + apply String.eqb_eq in E. subst.
      destruct (String.eqb k k') eqn:E'; [|reflexivity].
      apply String.eqb_eq in E'. congruence.
    + now rewrite IH.
Qed.

Lemma dict_get_Some_key {V : Type} (d : list (string * V)) k :
  In k (map fst d) <-> exists v, dict_get d k = Some v.
Proof.
  destruct (dict_get d k) as [v|] eqn:E.
  - split; [eauto|]. intros _. apply dict_get_In in E.
    now apply (in_map fst) in E.
  - apply dict_get_None in E. split; [tauto|]. now intros [v [=]].
Qed.

Lemma keys_dict_set_present {V : Type} (d : list (string * V)) k v :
  In k (map fst d) -> map fst (dict_set d k v) = map fst d.
Proof.
  induction d as [|[k0 v0] d IH]; simpl; [tauto|].
  intros I. destruct (String.eqb k0 k) eqn:E; simpl; [reflexivity|].
  f_equal. apply IH. destruct I as [-> | I]; [|exact I].
  now rewrite String.eqb_refl in E.
Qed.

Lemma keys_dict_set_absent {V : Type} (d : list (string * V)) k v :
  ~ In k (map fst d) -> map fst (dict_set d k v) = map fst d ++ [k].
Proof.
  induction d as [|[k0 v0] d IH]; simpl; [reflexivity|].
  intros N. destruct (String.eqb k0 k) eqn:E; simpl.
  - apply String.eqb_eq in E. tauto.
  - f_equal. apply IH. tauto.
Qed.

Lemma dict_get_first {V : Type} (d : list (string * V)) k v :
  NoDup (map fst d) -> In (k, v) d -> dict_get d k = Some v.
Proof.
  induction d as [|[k0 v0] d IH]; simpl; [tauto|].
  intros N I. inversion N as [|? ? N0 N']; subst.
  destruct I as [[= -> ->] | I].
  - now rewrite String.eqb_refl.
  - destruct (String.eqb k0 k) eqn:E; [|now apply IH].
    apply String.eqb_eq in E. subst. exfalso. apply N0.
    now apply (in_map fst) in I.
Qed.

(** ** Kahn's loop terminates within its fuel *)

Lemma indeg_sum_set indeg y d v :
  dict_get indeg y = Some d ->
  (indeg_sum (dict_set indeg y v) + Z.to_nat d
   = indeg_sum indeg + Z.to_nat v)%nat.
Proof.
  induction indeg as [|[k0 v0] indeg IH]; simpl; [discriminate|].
  destruct (String.eqb k0 y); simpl.
  - intros [= ->]. lia.
  - intros G. specialize (IH G). lia.
Qed.

Lemma relax_measure indeg queue y indeg' queue' :
  relax (indeg, queue) y = Returned (indeg', queue') ->
  (kahn_measure indeg' queue' <= kahn_measure indeg queue)%nat.
Proof.
  unfold relax, kahn_measure.
  destruct (dict_get indeg y) as [d|] eqn:G; [|discriminate].
  pose proof (indeg_sum_set indeg y d (d - 1) G) as S.
  unfold indeg_sum in S.
  destruct (Z.eqb (d - 1) 0) eqn:E; intros [= <- <-]; simpl.
  - apply Z.eqb_eq in E. lia.
  - lia.
Qed.

Lemma for_each_relax_measure outs indeg queue indeg' queue' :
  for_each outs relax (indeg, queue) = Returned (indeg', queue') ->
  (kahn_measure indeg' queue' <= kahn_measure indeg queue)%nat.
Proof.
  revert indeg queue.
  induction outs as [|y outs IH]; intros indeg queue; cbn [for_each].
  - now intros [= <- <-].
  - destruct (relax (indeg, queue) y) as [[indeg1 queue1]|e] eqn:R;
      cbn [bind]; [|discriminate].
    intros F. apply relax_measure in R. apply IH in F. lia.
Qed.

Lemma kahn_loop_terminates fuel adj indeg queue seen :
  (kahn_measure indeg queue < fuel)%nat ->
  kahn_loop fuel adj indeg queue seen <> None.
Proof.
  revert indeg queue seen.
  induction fuel as [|fuel IH]; intros indeg queue seen B; [lia|].
  cbn [kahn_loop]. destruct queue as [|x queue]; [discriminate|].
  destruct (for_each (adj_get adj x) relax (indeg, queue))
    as [[indeg' queue']|e] eqn:F; [|discriminate].
  apply IH. apply for_each_relax_measure in F.
  unfold kahn_measure in *. simpl in B. lia.
Qed.

(** ** Counting the edges that Kahn's loop has not consumed yet *)

Lemma cnt_app l1 l2 y : cnt (l1 ++ l2) y = (cnt l1 y + cnt l2 y)%nat.
Proof. apply count_occ_app. Qed.

Lemma cnt_pos l y : (0 < cnt l y)%nat <-> In y l.
Proof. unfold cnt. symmetry. apply count_occ_In. Qed.

Lemma cnt_zero l y : cnt l y = 0%nat <-> ~ In y l.
Proof. unfold cnt. symmetry. apply count_occ_not_In. Qed.

Lemma cnt_cons_same l y : cnt (y :: l) y = S (cnt l y).
Proof. unfold cnt. apply count_occ_cons_eq. reflexivity. Qed.

Lemma cnt_cons_other l x y : x <> y -> cnt (x :: l) y = cnt l y.
Proof. unfold cnt. apply count_occ_cons_neq. Qed.

Lemma set_mem_cons s x y :
  set_mem (x :: s) y = String.eqb y x || set_mem s y.
Proof. reflexivity. Qed.

Lemma pending_skip adj x done :
  ~ In x (map fst adj) -> pending adj (x :: done) = pending adj done.
Proof.
  unfold pending. induction adj as [|[a outs] adj IH]; [reflexivity|].
  cbn [map fst filter]. intros N. rewrite set_mem_cons.
  destruct (String.eqb a x) eqn:E.
  - apply String.eqb_eq in E. subst. exfalso. apply N. now left.
  - cbn [orb]. destruct (set_mem done a); cbn [negb flat_map snd];
      rewrite IH; auto; intros I; apply N; now right.
Qed.

Lemma pending_split adj x done y :
  NoDup (map fst adj) -> ~ In x done ->
  cnt (pending adj done) y
  = (cnt (adj_get adj x) y + cnt (pending adj (x :: done)) y)%nat.
Proof.
  intros N D. unfold adj_get.
  induction adj as [|[a outs] adj IH]; [reflexivity|].
  inversion N as [|? ? Na N']; subst.
  unfold pending in *. cbn [filter fst dict_get]. rewrite set_mem_cons.
  destruct (String.eqb a x) eqn:E.
  - apply String.eqb_eq in E. subst a.
    apply set_mem_false in D. rewrite D. cbn [negb orb flat_map snd].
    rewrite cnt_app. f_equal.
    fold (pending adj (x :: done)). fold (pending adj done).
    now rewrite pending_skip.
  - cbn [orb]. destruct (set_mem done a); cbn [negb flat_map snd].
    + now apply IH.
    + rewrite !cnt_app, (IH N'). lia.
Qed.

Lemma pending_nil adj : pending adj [] = flat_map snd adj.
Proof.
  unfold pending. induction adj as [|[a outs] adj IH]; [reflexivity|].
  cbn [filter fst]. change (set_mem [] a) with false.
  cbn [negb flat_map snd]. now rewrite IH.
Qed.

Lemma pending_In adj done y :
  In y (pending adj done) <->
  exists x outs, In (x, outs) adj /\ ~ In x done /\ In y outs.
Proof.
  unfold pending. rewrite in_flat_map. split.
  - intros [[x outs] [I O]]. apply filter_In in I. destruct I as [I F].
    apply negb_true_iff, set_mem_false in F. eauto.
  - intros [x [outs [I [D O]]]]. exists (x, outs). split; [|exact O].
    apply filter_In. split; [exact I|].
    now apply negb_true_iff, set_mem_false.
Qed.

(** ** The inner loop of Kahn's algorithm *)

Lemma for_each_relax_spec outs :
  forall indeg queue,
    (forall y, In y outs ->
               exists d, dict_get indeg y = Some d /\
                         Z.of_nat (cnt outs y) <= d) ->
    exists indeg' added,
      for_each outs relax (indeg, queue) = Returned (indeg', added ++ queue) /\
      map fst indeg' = map fst indeg /\
      (forall y, dict_get indeg' y
                 = option_map (fun d => d - Z.of_nat (cnt outs y))
                              (dict_get indeg y)) /\
      NoDup added /\
      (forall y, In y added <-> In y outs /\ dict_get indeg' y = Some 0).
Proof.
  induction outs as [|y outs IH]; intros indeg queue Pre.
  - exists indeg, []. split; [reflexivity|]. split; [reflexivity|].
    split; [|split; [constructor|simpl; tauto]].
    intros y. destruct (dict_get indeg y); simpl; [f_equal; lia|reflexivity].
  - destruct (Pre y (or_introl eq_refl)) as [d [G B]].
    rewrite cnt_cons_same in B.
    set (indeg1 := dict_set indeg y (d - 1)).
    set (queue1 := if Z.eqb (d - 1) 0 then y :: queue else queue).
    assert (R : relax (indeg, queue) y = Returned (indeg1, queue1)).
    { unfold relax. rewrite G. unfold indeg1, queue1.
      now destruct (Z.eqb (d - 1) 0). }
    assert (G1 : forall z, dict_get indeg1 z
                           = if string_dec z y then Some (d - 1)
                             else dict_get indeg z).
    { intros z. unfold indeg1. destruct (string_dec z y) as [-> | N].
      - apply dict_get_set.
      - now apply dict_get_set_other. }
    destruct (IH indeg1 queue1) as [indeg' [added [F [K [V [ND M]]]]]].
    { intros z I. rewrite G1. destruct (string_dec z y) as [-> | N].
      - exists (d - 1). split; [reflexivity|lia].
      - destruct (Pre z (or_intror I)) as [dz [Gz Bz]].
        rewrite cnt_cons_other in Bz by congruence. eauto. }
    assert (K1 : map fst indeg1 = map fst indeg).
    { apply keys_dict_set_present. apply dict_get_Some_key. eauto. }
    assert (V' : forall z, dict_get indeg' z
                           = option_map
                               (fun d0 => d0 - Z.of_nat (cnt (y :: outs) z))
                               (dict_get indeg z)).
    { intros z. rewrite V, G1. destruct (string_dec z y) as [-> | N].
      - rewrite G, cnt_cons_same. simpl. f_equal. lia.
      - rewrite cnt_cons_other by congruence. reflexivity. }
    assert (Vy : dict_get indeg' y = Some (d - 1 - Z.of_nat (cnt outs y))).
    { rewrite V, G1. destruct (string_dec y y); [reflexivity|congruence]. }
    destruct (Z.eqb (d - 1) 0) eqn:E.
    + apply Z.eqb_eq in E.
      assert (C : cnt outs y = 0%nat) by lia.
      exists indeg', (added ++ [y]).
      split; [cbn [for_each]; rewrite R; cbn [bind]; rewrite F;
              unfold queue1; now rewrite <- app_assoc|].
      split; [congruence|]. split; [exact V'|]. split.
      * apply NoDup_app; [exact ND|repeat constructor; tauto|].
        intros z Iz [<- | []]. apply M in Iz. apply cnt_zero in C. tauto.
      * intros z. rewrite in_app_iff, M. simpl. split.
        -- intros [[I Z0] | [<- | []]]; [tauto|].
           split; [now left|]. rewrite Vy. f_equal. lia.
        -- intros [[<- | I] Z0]; [|tauto]. right. now left.
    + apply Z.eqb_neq in E.
      exists indeg', added.
      split; [cbn [for_each]; rewrite R; cbn [bind]; exact F|].
      split; [congruence|]. split; [exact V'|]. split; [exact ND|].
      intros z. rewrite M. simpl. split; [tauto|].
      intros [[<- | I] Z0]; [|tauto].
      split; [|exact Z0].
      rewrite Vy in Z0. injection Z0 as Z0.
      apply cnt_pos. lia.
Qed.

(** ** The in-degrees Kahn's algorithm starts from *)

Lemma fold_incr_spec outs :
  forall indeg,
    (forall b, In b outs -> In b (map fst indeg)) ->
    map fst (fold_left indeg_incr outs indeg) = map fst indeg /\
    forall y, dict_get (fold_left indeg_incr outs indeg) y
              = option_map (fun d => d + Z.of_nat (cnt outs y))
                           (dict_get indeg y).
Proof.
  induction outs as [|b outs IH]; intros indeg Pre.
  - split; [reflexivity|]. intros y. simpl.
    destruct (dict_get indeg y); simpl; [f_equal; lia|reflexivity].
  - assert (Ib : In b (map fst indeg)) by (apply Pre; now left).
    destruct (proj1 (dict_get_Some_key indeg b) Ib) as [d G].
    assert (E : indeg_incr indeg b = dict_set indeg b (d + 1))
      by (unfold indeg_incr; now rewrite G).
    assert (K : map fst (indeg_incr indeg b) = map fst indeg)
      by (rewrite E; now apply keys_dict_set_present).
    cbn [fold_left].
    destruct (IH (indeg_incr indeg b)) as [K' V].
    { intros c I. rewrite K. apply Pre. now right. }
    split; [congruence|]. intros y. rewrite V, E.
    destruct (string_dec y b) as [-> | N].
    + rewrite dict_get_set, G, cnt_cons_same. simpl. f_equal. lia.
    + rewrite dict_get_set_other by exact N.
      rewrite cnt_cons_other by congruence. reflexivity.
Qed.

Lemma fold_incr_all_spec adj :
  forall indeg,
    (forall x outs b, In (x, outs) adj -> In b outs -> In b (map fst indeg)) ->
    map fst (fold_left (fun (i : indegree) (item : string * list string) =>
                          fold_left indeg_incr (snd item) i)
                       adj indeg) = map fst indeg /\
    forall y, dict_get (fold_left (fun (i : indegree)
                                       (item : string * list string) =>
                                     fold_left indeg_incr (snd item) i)
                                  adj indeg) y
              = option_map (fun d => d + Z.of_nat (cnt (flat_map snd adj) y))
                           (dict_get indeg y).
Proof.
  induction adj as [|[x outs] adj IH]; intros indeg Pre.
  - split; [reflexivity|]. intros y. simpl.
    destruct (dict_get indeg y); simpl; [f_equal; lia|reflexivity].
  - cbn [fold_left snd flat_map].
    destruct (fold_incr_spec outs indeg) as [K V].
    { intros b I. eapply Pre; [now left|exact I]. }
    destruct (IH (fold_left indeg_incr outs indeg)) as [K' V'].
    { intros x' outs' b I O. rewrite K. eapply Pre; [right; exact I|exact O]. }
    split; [congruence|]. intros y. rewrite V', V, cnt_app.
    destruct (dict_get indeg y); simpl; [f_equal; lia|reflexivity].
Qed.

Lemma dict_get_zeros nodes y :
  dict_get (map (fun n : string => (n, 0)) nodes) y
  = if in_dec string_dec y nodes then Some 0 else None.
Proof.
  induction nodes as [|n nodes IH]; [reflexivity|].
  cbn [map dict_get]. destruct (String.eqb n y) eqn:E.
  - apply String.eqb_eq in E. subst.
    destruct (in_dec string_dec y (y :: nodes)) as [_ | N];
      [reflexivity|exfalso; apply N; now left].
  - apply String.eqb_neq in E. rewrite IH.
    destruct (in_dec string_dec y nodes) as [I | N];
      destruct (in_dec string_dec y (n :: nodes)) as [I' | N'];
      try reflexivity.
    + exfalso. apply N'. now right.
    + destruct I' as [-> | I']; [congruence|contradiction].
Qed.

Lemma indeg_init_spec adj nodes :
  (forall x outs b, In (x, outs) adj -> In b outs -> In b nodes) ->
  map fst (indeg_init adj nodes) = nodes /\
  forall y, In y nodes ->
            dict_get (indeg_init adj nodes) y
            = Some (Z.of_nat (cnt (pending adj []) y)).
Proof.
  intros T. unfold indeg_init.
  assert (K0 : map fst (map (fun n : string => (n, 0)) nodes) = nodes).
  { rewrite map_map. simpl. apply map_id. }
  destruct (fold_incr_all_spec adj (map (fun n : string => (n, 0)) nodes))
    as [K V].
  { intros x outs b I O. rewrite K0. eapply T; eassumption. }
  split; [congruence|]. intros y I. rewrite V, dict_get_zeros, pending_nil.
  destruct (in_dec string_dec y nodes); [reflexivity|contradiction].
Qed.

(** ** Finite graphs: topological orders and cycles *)

Lemma topo_closed adj done :
  topo adj done ->
  forall w x, clos_trans string (edge adj) w x -> In x done -> In w done.
Proof.
  intros T w x C. apply clos_trans_tn1 in C.
  induction C as [x E | x z E C IH]; intros I.
  - induction done as [|p done IHd]; [contradiction|].
    destruct T as [Tp T]. destruct I as [-> | I].
    + right. now apply Tp.
    + right. now apply IHd.
  - apply IH. clear IH C.
    induction done as [|p done IHd]; [contradiction|].
    destruct T as [Tp T]. destruct I as [-> | I].
    + right. now apply Tp.
    + right. now apply IHd.
Qed.

Lemma topo_no_cycle adj done :
  NoDup done -> topo adj done ->
  forall x, In x done -> ~ clos_trans string (edge adj) x x.
Proof.
  induction done as [|p done IH]; intros N T x I C; [contradiction|].
  inversion N as [|? ? Np N']; subst. destruct T as [Tp T].
  destruct I as [-> | I]; [|now apply (IH N' T x I)].
  apply clos_trans_tn1 in C.
  inversion C as [E | w ? E C']; subst.
  - apply Np. now apply Tp.
  - apply Np. apply clos_tn1_trans in C'.
    apply (topo_closed adj done T x w C'). now apply Tp.
Qed.

Lemma walk_reaches adj x l z :
  walk adj (x :: l) -> In z l -> clos_trans string (edge adj) x z.
Proof.
  revert x. induction l as [|y l IH]; intros x W I; [contradiction|].
  destruct W as [E W]. destruct I as [-> | I].
  - now apply t_step.
  - eapply t_trans; [apply t_step; exact E|now apply IH].
Qed.

Lemma walk_repeat_cycle adj l :
  walk adj l -> ~ NoDup l -> exists x, clos_trans string (edge adj) x x.
Proof.
  induction l as [|x l IH]; intros W N.
  - exfalso. apply N. constructor.
  - destruct (in_dec string_dec x l) as [I | I].
    + exists x. eapply walk_reaches; eassumption.
    + apply IH.
      * destruct l; [exact Logic.I|]. now destruct W.
      * intros N'. apply N. now constructor.
Qed.

(** In a finite non-empty set of nodes where every node has a
    predecessor in the set, there is a cycle. *)
Lemma walk_backwards adj (U : list string) :
  (forall y, In y U -> exists x, In x U /\ edge adj x y) ->
  forall n y, In y U ->
              exists l, List.length l = S n /\ incl l U /\ walk adj l.
Proof.
  intros P n. induction n as [|n IH]; intros y I.
  - exists [y]. split; [reflexivity|]. split; [|exact Logic.I].
    intros z [<- | []]. exact I.
  - destruct (IH y I) as [l [L [S W]]].
    destruct l as [|h l]; [discriminate|].
    destruct (P h (S h (or_introl eq_refl))) as [x [Ix E]].
    exists (x :: h :: l). split; [simpl in *; lia|]. split.
    + intros z [<- | Iz]; [exact Ix|now apply S].
    + split; [exact E|exact W].
Qed.

Lemma predecessors_inside_cycle adj (U : list string) y :
  In y U ->
  (forall y, In y U -> exists x, In x U /\ edge adj x y) ->
  exists x, clos_trans string (edge adj) x x.
Proof.
  intros I P.
  destruct (walk_backwards adj U P (List.length U) y I) as [l [L [S W]]].
  apply (walk_repeat_cycle adj l W).
  intros N. pose proof (NoDup_incl_length N S). lia.
Qed.

(** ** Kahn's loop: the invariant *)

Lemma edge_entry adj x y :
  edge adj x y -> exists outs, In (x, outs) adj /\ In y outs.
Proof.
  unfold edge, adj_get. destruct (dict_get adj x) as [outs|] eqn:G;
    [|contradiction].
  intros I. exists outs. split; [now apply dict_get_In|exact I].
Qed.

Lemma entry_edge adj x outs y :
  NoDup (map fst adj) -> In (x, outs) adj -> In y outs -> edge adj x y.
Proof.
  intros N I O. unfold edge, adj_get. now rewrite (dict_get_first adj x outs N I).
Qed.

Lemma zero_keys_NoDup (l : indegree) :
  NoDup (map fst l) ->
  NoDup (map fst (filter (fun kv => Z.eqb (snd kv) 0) l)).
Proof.
  induction l as [|[a d] l IHl]; intros N; [constructor|].
  inversion N as [|? ? Na N']; subst. cbn [filter snd].
  destruct (Z.eqb d 0); [|now apply IHl].
  cbn [map fst]. constructor; [|now apply IHl].
  intros I. apply Na. apply in_map_iff in I.
  destruct I as [[a' d'] [E I]]. simpl in E. subst a'.
  apply filter_In in I. apply in_map_iff. exists (a, d'). tauto.
Qed.

Section Kahn.

Variable adj : adjacency.
Variable nodes : list string.
Hypothesis G : graph_ok adj nodes.

Lemma edge_source x y : edge adj x y -> In x nodes.
Proof.
  intros E. destruct (edge_entry adj x y E) as [outs [I _]].
  apply G. now apply (in_map fst) in I.
Qed.

Lemma edge_target x y : edge adj x y -> In y nodes.
Proof.
  intros E. destruct (edge_entry adj x y E) as [outs [I O]].
  destruct G as [_ [_ [_ T]]]. eapply T; eassumption.
Qed.

Lemma path_source x y : clos_trans string (edge adj) x y -> In x nodes.
Proof.
  induction 1 as [x y E | x y z _ IH _ _]; [|exact IH].
  now apply (edge_source x y).
Qed.

Lemma pending_counts_edges done x y :
  ~ In x done ->
  (cnt (adj_get adj x) y <= cnt (pending adj done) y)%nat.
Proof.
  intros D. rewrite (pending_split adj x done y); [lia|apply G|exact D].
Qed.

Lemma no_pending_all_preds_done done y :
  cnt (pending adj done) y = 0%nat ->
  forall w, edge adj w y -> In w done.
Proof.
  intros Z w E. destruct (in_dec string_dec w done) as [I | D]; [exact I|].
  pose proof (pending_counts_edges done w y D) as B.
  apply cnt_pos in E. lia.
Qed.

Lemma kahn_step indeg x queue done seen :
  kahn_inv adj nodes indeg (x :: queue) done seen ->
  exists indeg' added,
    for_each (adj_get adj x) relax (indeg, queue)
    = Returned (indeg', added ++ queue) /\
    kahn_inv adj nodes indeg' (added ++ queue) (x :: done) (seen + 1).
Proof.
  intros [K [V [ND [IN [Z [S T]]]]]].
  assert (Ix : In x nodes) by (apply IN; now left).
  assert (Dx : ~ In x done).
  { inversion ND as [|? ? Nx _]; subst. intros I. apply Nx.
    apply in_or_app. now right. }
  assert (Zx : cnt (pending adj done) x = 0%nat) by (apply Z; [exact Ix|now left]).
  assert (SP : forall y, cnt (pending adj done) y
                         = (cnt (adj_get adj x) y
                            + cnt (pending adj (x :: done)) y)%nat).
  { intros y. apply pending_split; [apply G|exact Dx]. }
  destruct (for_each_relax_spec (adj_get adj x) indeg queue)
    as [indeg' [added [F [K' [V' [NA M]]]]]].
  { intros y I. exists (Z.of_nat (cnt (pending adj done) y)). split.
    - apply V. now apply (edge_target x y).
    - specialize (SP y). lia. }
  assert (Vn : forall y, In y nodes ->
                         dict_get indeg' y
                         = Some (Z.of_nat (cnt (pending adj (x :: done)) y))).
  { intros y I. rewrite V', (V y I). simpl. f_equal.
    specialize (SP y). lia. }
  assert (Ma : forall y, In y added ->
                         In y nodes /\ (0 < cnt (adj_get adj x) y)%nat /\
                         cnt (pending adj (x :: done)) y = 0%nat).
  { intros y I. apply M in I. destruct I as [O Z0].
    assert (In y nodes) by now apply (edge_target x y).
    split; [assumption|]. split; [now apply cnt_pos|].
    rewrite (Vn y) in Z0 by assumption. injection Z0 as Z0. lia. }
  exists indeg', added. split; [exact F|].
  split; [congruence|]. split; [exact Vn|].
  split; [|split; [|split; [|split]]].
  - (* no repetition *)
    rewrite <- app_assoc. apply NoDup_app; [exact NA| |].
    + eapply Permutation_NoDup; [apply Permutation_middle|exact ND].
    + intros y Ia Io.
      destruct (Ma y Ia) as [In_ [Pos _]].
      assert (Q : In y ((x :: queue) ++ done)).
      { apply in_app_iff in Io. simpl in Io. simpl.
        rewrite in_app_iff. tauto. }
      apply (Z y In_) in Q. specialize (SP y). lia.
  - (* inside the node set *)
    intros y I. rewrite <- app_assoc in I. apply in_app_iff in I.
    destruct I as [I | I]; [now apply Ma|].
    apply IN. apply in_app_iff in I. simpl in I. simpl.
    rewrite in_app_iff. tauto.
  - (* zero in-degree = queued or done *)
    intros y I. split.
    + intros Z0.
      destruct (Nat.eq_dec (cnt (adj_get adj x) y) 0) as [C | C].
      * assert (Q : In y ((x :: queue) ++ done))
          by (apply (Z y I); specialize (SP y); lia).
        simpl in Q. rewrite in_app_iff in Q.
        rewrite <- app_assoc, !in_app_iff. simpl. tauto.
      * rewrite <- app_assoc. apply in_or_app. left. apply M. split.
        -- apply cnt_pos. lia.
        -- rewrite (Vn y I), Z0. reflexivity.
    + intros Q. rewrite <- app_assoc in Q. apply in_app_iff in Q.
      destruct Q as [Q | Q]; [now apply Ma|].
      assert (Q' : In y ((x :: queue) ++ done)).
      { apply in_app_iff in Q. simpl in Q. simpl.
        rewrite in_app_iff. tauto. }
      apply (Z y I) in Q'. specialize (SP y). lia.
  - subst seen. simpl List.length. lia.
  - split; [|exact T]. now apply no_pending_all_preds_done.
Qed.

Lemma kahn_loop_spec fuel :
  forall indeg queue done seen,
    (kahn_measure indeg queue < fuel)%nat ->
    kahn_inv adj nodes indeg queue done seen ->
    exists indeg' done',
      kahn_loop fuel adj indeg queue seen
      = Some (Returned (Z.of_nat (List.length done'), indeg')) /\
      kahn_inv adj nodes indeg' [] done' (Z.of_nat (List.length done')).
Proof.
  induction fuel as [|fuel IH]; intros indeg queue done seen B I; [lia|].
  cbn [kahn_loop]. destruct queue as [|x queue].
  - exists indeg, done.
    assert (seen = Z.of_nat (List.length done)) as -> by apply I.
    split; [reflexivity|exact I].
  - destruct (kahn_step indeg x queue done seen I)
      as [indeg' [added [F I']]].
    rewrite F. apply (IH indeg' (added ++ queue) (x :: done) (seen + 1)).
    + apply for_each_relax_measure in F.
      unfold kahn_measure in *. simpl in B. lia.
    + exact I'.
Qed.

Lemma kahn_inv_init :
  let indeg := indeg_init adj nodes in
  kahn_inv adj nodes indeg
           (rev (map fst (filter (fun kv => Z.eqb (snd kv) 0) indeg))) [] 0.
Proof.
  intros indeg.
  destruct (indeg_init_spec adj nodes) as [K V]; [apply G|].
  fold indeg in K, V.
  assert (NK : NoDup (map fst indeg)) by (rewrite K; apply G).
  assert (Q : forall y,
             In y (rev (map fst (filter (fun kv => Z.eqb (snd kv) 0) indeg)))
             <-> dict_get indeg y = Some 0).
  { intros y. rewrite <- in_rev, in_map_iff. split.
    - intros [[y' d] [E I]]. simpl in E. subst y'.
      apply filter_In in I. destruct I as [I Z0]. simpl in Z0.
      apply Z.eqb_eq in Z0. subst d. now apply dict_get_first.
    - intros D. exists (y, 0). split; [reflexivity|].
      apply filter_In. split; [now apply dict_get_In|reflexivity]. }
  split; [exact K|]. split; [exact V|].
  rewrite app_nil_r. split; [|split; [|split; [|split]]].
  - apply NoDup_rev.
    now apply zero_keys_NoDup.
  - intros y I. apply Q in I. rewrite <- K.
    apply dict_get_Some_key. eauto.
  - intros y I. rewrite Q, (V y I). split.
    + intros ->. reflexivity.
    + intros [= E]. lia.
  - reflexivity.
  - exact Logic.I.
Qed.

(** [_is_dag] returns, and its answer is whether the graph has no
    directed cycle. *)
Lemma is_dag_correct :
  exists b, _is_dag adj nodes = Returned b /\ (b = true <-> acyclic adj).
Proof.
  unfold _is_dag.
  set (indeg := indeg_init adj nodes).
  set (queue := rev (map fst (filter (fun kv => Z.eqb (snd kv) 0) indeg))).
  destruct (kahn_loop_spec (S (kahn_measure indeg queue)) indeg queue [] 0)
    as [indeg' [done [L [K [V [ND [IN [Z [_ T]]]]]]]]];
    [lia|apply kahn_inv_init|].
  rewrite L. eexists. split; [reflexivity|].
  cbn [app] in ND, IN, Z.
  assert (Len : List.length indeg' = List.length nodes)
    by (rewrite <- K; now rewrite length_map).
  rewrite Len, Z.eqb_eq, Nat2Z.inj_iff.
  pose proof G as [Nadj [Nnodes [Keys Targets]]].
  split.
  - (* every node was popped: the pop order is a topological order *)
    intros E x C.
    assert (Ix : In x nodes).
    { now apply (path_source x x). }
    apply (topo_no_cycle adj done ND T x); [|exact C].
    apply (NoDup_length_incl ND (l' := nodes)); [lia|exact IN|exact Ix].
  - (* a node never popped has a predecessor never popped *)
    intros A.
    set (U := filter (fun y => negb (set_mem done y)) nodes).
    destruct U as [|u U'] eqn:EU.
    + apply Nat.le_antisymm.
      * now apply NoDup_incl_length.
      * apply NoDup_incl_length; [exact Nnodes|].
        intros y I. destruct (in_dec string_dec y done) as [D | D];
          [exact D|].
        assert (In y U) as IU.
        { apply filter_In. split; [exact I|].
          now apply negb_true_iff, set_mem_false. }
        rewrite EU in IU. contradiction.
    + exfalso.
      assert (Iu : In u (filter (fun y => negb (set_mem done y)) nodes))
        by (fold U; rewrite EU; now left).
      destruct (predecessors_inside_cycle adj
                  (filter (fun y => negb (set_mem done y)) nodes) u Iu)
        as [x C]; [|exact (A x C)].
      intros y Iy. apply filter_In in Iy. destruct Iy as [Iy Dy].
      apply negb_true_iff, set_mem_false in Dy.
      assert (P : In y (pending adj done)).
      { apply cnt_pos. destruct (Nat.eq_dec (cnt (pending adj done) y) 0)
          as [Z0 | Z0]; [|lia].
        apply (Z y Iy) in Z0. contradiction. }
      apply pending_In in P. destruct P as [w [outs [Iw [Dw O]]]].
      exists w. split.
      * apply filter_In. split.
        -- apply Keys. now apply (in_map fst) in Iw.
        -- now apply negb_true_iff, set_mem_false.
      * now apply (entry_edge adj w outs y).
Qed.

End Kahn.

(** ** [_build_graph]: what the graph is *)

Lemma adj_get_setdefault adj k x :
  adj_get (adj_setdefault adj k) x = adj_get adj x.
Proof.
  unfold adj_setdefault, dict_mem, adj_get.
  destruct (dict_get adj k) eqn:Gk; [reflexivity|].
  induction adj as [|[a outs] adj IH]; simpl in *.
  - now destruct (String.eqb k x).
  - destruct (String.eqb a k); [discriminate|].
    destruct (String.eqb a x); [reflexivity|]. now apply IH.
Qed.

Lemma keys_setdefault adj k x :
  In x (map fst (adj_setdefault adj k)) <-> In x (map fst adj) \/ x = k.
Proof.
  unfold adj_setdefault, dict_mem.
  destruct (dict_get adj k) eqn:Gk.
  - assert (In k (map fst adj)) by (apply dict_get_Some_key; eauto).
    split; [tauto|]. intros [I | ->]; assumption.
  - rewrite map_app, in_app_iff. simpl. intuition.
Qed.

Lemma keys_setdefault_NoDup adj k :
  NoDup (map fst adj) -> NoDup (map fst (adj_setdefault adj k)).
Proof.
  intros N. unfold adj_setdefault, dict_mem.
  destruct (dict_get adj k) eqn:Gk; [exact N|].
  apply dict_get_None in Gk. rewrite map_app.
  apply NoDup_app; [exact N|repeat constructor; tauto|].
  intros x I [<- | []]. contradiction.
Qed.

Lemma adj_get_append adj a b x :
  adj_get (adj_append adj a b) x
  = if String.eqb a x then adj_get adj a ++ [b] else adj_get adj x.
Proof.
  unfold adj_get. induction adj as [|[k outs] adj IH]; simpl.
  - destruct (String.eqb a x); reflexivity.
  - destruct (String.eqb k a) eqn:Ka; simpl.
    + apply String.eqb_eq in Ka. subst k.
      destruct (String.eqb a x); reflexivity.
    + destruct (String.eqb k x) eqn:Kx.
      * apply String.eqb_eq in Kx. subst k.
        rewrite String.eqb_sym, Ka. reflexivity.
      * exact IH.
Qed.

Lemma keys_append adj a b x :
  In x (map fst (adj_append adj a b)) <-> In x (map fst adj) \/ x = a.
Proof.
  induction adj as [|[k outs] adj IH]; simpl.
  - intuition.
  - destruct (String.eqb k a) eqn:Ka; simpl.
    + apply String.eqb_eq in Ka. subst. intuition.
    + rewrite IH. tauto.
Qed.

Lemma keys_append_NoDup adj a b :
  NoDup (map fst adj) -> NoDup (map fst (adj_append adj a b)).
Proof.
  induction adj as [|[k outs] adj IH]; simpl; intros N.
  - repeat constructor. tauto.
  - inversion N as [|? ? Nk N']; subst.
    destruct (String.eqb k a) eqn:Ka; simpl.
    + now constructor.
    + constructor; [|now apply IH].
      rewrite keys_append. intros [I | ->]; [contradiction|].
      now rewrite String.eqb_refl in Ka.
Qed.

Lemma nonempty_str_Some v s :
  nonempty_str v = Some s -> v = VStr s /\ s <> "".
Proof.
  destruct v as [| | |t| |]; try discriminate.
  destruct t; [discriminate|]. intros [= <-]. split; [reflexivity|discriminate].
Qed.

Lemma add_node_spec adj nodeset n st' :
  add_node (adj, nodeset) n = Returned st' ->
  is_dict n = true /\
  (builder_inv adj nodeset -> builder_inv (fst st') (snd st')) /\
  (forall x, adj_get (fst st') x = adj_get adj x) /\
  (forall x, In x (snd st') <->
             In x nodeset \/ declared_node n = Some x).
Proof.
  unfold add_node, py_get, declared_node.
  destruct n as [| | | | |d]; try discriminate. unfold get_or_none.
  intros H. split; [reflexivity|].
  assert (H' : match nonempty_str (match dict_get d "id" with
                                   | Some x => x
                                   | None => VNone
                                   end) with
               | Some s => Returned (adj_setdefault adj s, set_add nodeset s)
               | None => Returned (adj, nodeset)
               end = Returned st')
    by (destruct (dict_get d "id"); exact H).
  clear H.
  destruct (nonempty_str _) as [s|]; injection H' as <-; cbn [fst snd].
  - split; [|split].
    + intros [N [Ns [K T]]]. split; [now apply keys_setdefault_NoDup|].
      split; [now apply set_add_NoDup|]. split.
      * intros x I. apply set_add_In. apply keys_setdefault in I.
        destruct I as [I | ->]; auto.
      * intros x y E. apply set_add_In. left. apply (T x y).
        unfold edge in *. now rewrite adj_get_setdefault in E.
    + intros x. apply adj_get_setdefault.
    + intros x. rewrite set_add_In. split; intros [I | E]; auto.
      * subst. auto.
      * injection E as <-. auto.
  - split; [tauto|]. split; [reflexivity|].
    intros x. split; [tauto|]. intros [I | E]; [exact I|discriminate].
Qed.

Lemma add_node_total adj nodeset n :
  is_dict n = true -> exists st', add_node (adj, nodeset) n = Returned st'.
Proof.
  destruct n as [| | | | |d]; try discriminate. intros _.
  unfold add_node, py_get.
  destruct (dict_get d "id") as [v|]; cbn [bind];
    destruct (nonempty_str _); eauto.
Qed.

Lemma add_nodes_spec ns :
  forall adj nodeset st',
    for_each ns add_node (adj, nodeset) = Returned st' ->
    forallb is_dict ns = true /\
    (builder_inv adj nodeset -> builder_inv (fst st') (snd st')) /\
    (forall x, adj_get (fst st') x = adj_get adj x) /\
    (forall x, In x (snd st') <-> In x nodeset \/ In x (node_ids ns)).
Proof.
  induction ns as [|n ns IH]; intros adj nodeset st'; cbn [for_each].
  - intros [= <-]. simpl. intuition.
  - destruct (add_node (adj, nodeset) n) as [[adj1 nodeset1]|e] eqn:A;
      cbn [bind]; [|discriminate].
    intros F. apply add_node_spec in A. cbn [fst snd] in A.
    destruct A as [D [J [Gt M]]].
    destruct (IH _ _ _ F) as [D' [J' [Gt' M']]].
    split; [simpl; now rewrite D, D'|].
    split; [auto|]. split; [intros x; now rewrite Gt', Gt|].
    intros x. rewrite M', M. unfold node_ids. cbn [flat_map].
    rewrite in_app_iff. fold (node_ids ns).
    destruct (declared_node n) as [s|]; simpl; split; intuition congruence.
Qed.

Lemma add_nodes_total ns :
  forall st, forallb is_dict ns = true ->
             exists st', for_each ns add_node st = Returned st'.
Proof.
  induction ns as [|n ns IH]; intros [adj nodeset] D; cbn [for_each].
  - eauto.
  - simpl in D. apply andb_true_iff in D. destruct D as [Dn D].
    destruct (add_node_total adj nodeset n Dn) as [st1 A].
    rewrite A. cbn [bind]. now apply IH.
Qed.

Lemma successors_cons e es x :
  successors (e :: es) x
  = match declared_edge e with
    | Some (a, b) => if String.eqb a x then [b] else []
    | None => []
    end ++ successors es x.
Proof.
  unfold successors, edge_pairs. cbn [flat_map].
  rewrite filter_app, map_app. f_equal.
  destruct (declared_edge e) as [[a b]|]; [|reflexivity].
  cbn [filter fst]. destruct (String.eqb a x); reflexivity.
Qed.

Lemma successors_In es x y :
  In y (successors es x) <-> In (x, y) (edge_pairs es).
Proof.
  unfold successors. rewrite in_map_iff. split.
  - intros [[a b] [E I]]. simpl in E. subst b.
    apply filter_In in I. destruct I as [I A]. simpl in A.
    apply String.eqb_eq in A. now subst.
  - intros I. exists (x, y). split; [reflexivity|].
    apply filter_In. split; [exact I|apply String.eqb_refl].
Qed.

Lemma successors_single e x :
  successors [e] x
  = match declared_edge e with
    | Some (a, b) => if String.eqb a x then [b] else []
    | None => []
    end.
Proof.
  rewrite successors_cons. change (successors [] x) with (@nil string).
  apply app_nil_r.
Qed.

Lemma add_edge_spec adj nodeset e st' :
  add_edge (adj, nodeset) e = Returned st' ->
  is_dict e = true /\
  (builder_inv adj nodeset -> builder_inv (fst st') (snd st')) /\
  (forall x, adj_get (fst st') x = adj_get adj x ++ successors [e] x) /\
  (forall x, In x (snd st') <->
             In x nodeset \/
             exists a b, declared_edge e = Some (a, b) /\ (x = a \/ x = b)).
Proof.
  unfold add_edge, py_get.
  destruct e as [| | | | |d]; try discriminate.
  intros H. split; [reflexivity|].
  assert (H' : match nonempty_str (get_or_none d "from"),
                     nonempty_str (get_or_none d "to") with
               | Some a, Some b =>
                   Returned (adj_append adj a b, set_add (set_add nodeset a) b)
               | _, _ => Returned (adj, nodeset)
               end = Returned st').
  { unfold get_or_none.
    destruct (dict_get d "from"); destruct (dict_get d "to"); exact H. }
  clear H.
  assert (S : forall x, successors [VDict d] x
                        = match declared_edge (VDict d) with
                          | Some (a, b) => if String.eqb a x then [b] else []
                          | None => []
                          end) by (intros; apply successors_single).
  unfold declared_edge in *.
  destruct (nonempty_str (get_or_none d "from")) as [a|];
    [destruct (nonempty_str (get_or_none d "to")) as [b|]|];
    injection H' as <-; cbn [fst snd].
  - split; [|split].
    + intros [N [Ns [K T]]]. split; [now apply keys_append_NoDup|].
      split; [now apply set_add_NoDup, set_add_NoDup|]. split.
      * intros x I. rewrite !set_add_In. apply keys_append in I.
        destruct I as [I | ->]; auto.
      * intros x y E. rewrite !set_add_In. unfold edge in E.
        rewrite adj_get_append in E.
        destruct (String.eqb a x) eqn:A.
        -- apply String.eqb_eq in A. subst x. apply in_app_iff in E.
           destruct E as [E | [<- | []]]; [|auto].
           left. left. now apply (T a y).
        -- left. left. now apply (T x y).
    + intros x. rewrite adj_get_append, S.
      destruct (String.eqb a x) eqn:A.
      * apply String.eqb_eq in A. now subst.
      * now rewrite !app_nil_r.
    + intros x. rewrite !set_add_In. split.
      * intros [[I | ->] | ->]; eauto 7.
      * intros [I | [a' [b' [[= <- <-] [-> | ->]]]]]; auto.
  - split; [tauto|]. split; [intros; now rewrite S, app_nil_r|].
    intros x. split; [tauto|]. intros [I | [a' [b' [E _]]]];
      [exact I|discriminate].
  - split; [tauto|]. split; [intros; now rewrite S, app_nil_r|].
    intros x. split; [tauto|]. intros [I | [a' [b' [E _]]]];
      [exact I|discriminate].
Qed.

Lemma add_edge_total adj nodeset e :
  is_dict e = true -> exists st', add_edge (adj, nodeset) e = Returned st'.
Proof.
  destruct e as [| | | | |d]; try discriminate. intros _.
  unfold add_edge, py_get.
  destruct (dict_get d "from") as [v|]; cbn [bind];
    destruct (dict_get d "to") as [w|]; cbn [bind];
    destruct (nonempty_str _); try destruct (nonempty_str _); eauto.
Qed.

Lemma edge_pairs_cons_In e es a b :
  In (a, b) (edge_pairs (e :: es)) <->
  declared_edge e = Some (a, b) \/ In (a, b) (edge_pairs es).
Proof.
  unfold edge_pairs. cbn [flat_map]. rewrite in_app_iff.
  destruct (declared_edge e) as [p|]; simpl; split;
    intuition (subst; auto; try congruence).
Qed.

Lemma add_edges_spec es :
  forall adj nodeset st',
    for_each es add_edge (adj, nodeset) = Returned st' ->
    forallb is_dict es = true /\
    (builder_inv adj nodeset -> builder_inv (fst st') (snd st')) /\
    (forall x, adj_get (fst st') x = adj_get adj x ++ successors es x) /\
    (forall x, In x (snd st') <->
               In x nodeset \/
               exists a b, In (a, b) (edge_pairs es) /\ (x = a \/ x = b)).
Proof.
  induction es as [|e es IH]; intros adj nodeset st'; cbn [for_each].
  - intros [= <-]. simpl. split; [reflexivity|]. split; [tauto|].
    split; [intros; now rewrite app_nil_r|].
    intros x. split; [tauto|]. intros [I | [a [b [[] _]]]]. exact I.
  - destruct (add_edge (adj, nodeset) e) as [[adj1 nodeset1]|x] eqn:A;
      cbn [bind]; [|discriminate].
    intros F. apply add_edge_spec in A. cbn [fst snd] in A.
    destruct A as [D [J [Gt M]]].
    destruct (IH _ _ _ F) as [D' [J' [Gt' M']]].
    split; [simpl; now rewrite D, D'|].
    split; [auto|]. split.
    + intros x. rewrite Gt', Gt, <- app_assoc. f_equal.
      now rewrite (successors_cons e es), successors_single.
    + intros x. rewrite M', M. split.
      * intros [[I | [a [b [E O]]]] | [a [b [I O]]]]; auto;
          right; exists a, b; rewrite edge_pairs_cons_In; auto.
      * intros [I | [a [b [I O]]]]; auto.
        apply edge_pairs_cons_In in I. destruct I as [E | I]; eauto 8.
Qed.

Lemma add_edges_total es :
  forall st, forallb is_dict es = true ->
             exists st', for_each es add_edge st = Returned st'.
Proof.
  induction es as [|e es IH]; intros [adj nodeset] D; cbn [for_each].
  - eauto.
  - simpl in D. apply andb_true_iff in D. destruct D as [De D].
    destruct (add_edge_total adj nodeset e De) as [st1 A].
    rewrite A. cbn [bind]. now apply IH.
Qed.

Lemma fold_setdefault_spec nodeset :
  forall adj,
    NoDup (map fst adj) ->
    NoDup (map fst (fold_left adj_setdefault nodeset adj)) /\
    (forall x, adj_get (fold_left adj_setdefault nodeset adj) x = adj_get adj x) /\
    (forall x, In x (map fst (fold_left adj_setdefault nodeset adj)) <->
               In x (map fst adj) \/ In x nodeset).
Proof.
  induction nodeset as [|n nodeset IH]; intros adj N; cbn [fold_left].
  - split; [exact N|]. split; [reflexivity|]. simpl. tauto.
  - destruct (IH (adj_setdefault adj n) (keys_setdefault_NoDup adj n N))
      as [N' [Gt K]].
    split; [exact N'|]. split.
    + intros x. now rewrite Gt, adj_get_setdefault.
    + intros x. rewrite K, keys_setdefault. simpl. intuition.
Qed.

(** [_build_graph] returns exactly when the node and edge entries can be
    iterated and are mappings; the graph it returns has the declared
    edges, over the declared nodes and the ends of the edges. *)
Lemma build_graph_spec tcc adj nodes :
  _build_graph tcc = Returned (adj, nodes) ->
  exists ns es,
    py_iter (tcc_list tcc "nodes") = Returned ns /\
    py_iter (tcc_list tcc "edges") = Returned es /\
    forallb is_dict ns = true /\
    forallb is_dict es = true /\
    graph_ok adj nodes /\
    (forall x, adj_get adj x = successors es x) /\
    (forall x, In x nodes <->
               In x (node_ids ns) \/
               exists a b, In (a, b) (edge_pairs es) /\ (x = a \/ x = b)).
Proof.
  unfold _build_graph, py_get. fold (tcc_list tcc "nodes").
  fold (tcc_list tcc "edges").
  assert (R : forall k, match dict_get tcc k with
                        | Some x => Returned x
                        | None => Returned (VList [])
                        end = Returned (tcc_list tcc k))
    by (intros k; unfold tcc_list; now destruct (dict_get tcc k)).
  rewrite !R. cbn [bind].
  destruct (py_iter (tcc_list tcc "nodes")) as [ns|] eqn:In_;
    cbn [bind]; [|discriminate].
  destruct (for_each ns add_node ([], [])) as [[adj1 set1]|] eqn:F1;
    cbn [bind]; [|discriminate].
  destruct (py_iter (tcc_list tcc "edges")) as [es|] eqn:Ie;
    cbn [bind]; [|discriminate].
  destruct (for_each es add_edge (adj1, set1)) as [[adj2 set2]|] eqn:F2;
    cbn [bind]; [|discriminate].
  intros [= <- <-].
  apply add_nodes_spec in F1. cbn [fst snd] in F1.
  destruct F1 as [D1 [J1 [G1 M1]]].
  apply add_edges_spec in F2. cbn [fst snd] in F2.
  destruct F2 as [D2 [J2 [G2 M2]]].
  assert (J : builder_inv adj2 set2).
  { apply J2, J1. split; [constructor|]. split; [constructor|].
    split; [intros x []|]. intros x y []. }
  destruct J as [N [Ns [K T]]].
  destruct (fold_setdefault_spec set2 adj2 N) as [N' [G' K']].
  exists ns, es.
  split; [reflexivity|]. split; [reflexivity|].
  split; [exact D1|]. split; [exact D2|]. split; [|split].
  - split; [exact N'|]. split; [exact Ns|]. split.
    + intros x. rewrite K'. split; [intros [I | I]; auto|auto].
    + intros x outs y I O. apply (T x y). unfold edge. rewrite <- G'.
      now apply (entry_edge _ x outs y).
  - intros x. rewrite G', G2, G1. reflexivity.
  - intros x. rewrite M2, M1. simpl. tauto.
Qed.

Lemma build_graph_total tcc ns es :
  py_iter (tcc_list tcc "nodes") = Returned ns ->
  py_iter (tcc_list tcc "edges") = Returned es ->
  forallb is_dict ns = true ->
  forallb is_dict es = true ->
  exists g, _build_graph tcc = Returned g.
Proof.
  intros In_ Ie Dn De. unfold _build_graph, py_get.
  fold (tcc_list tcc "nodes"). fold (tcc_list tcc "edges").
  assert (R : forall k, match dict_get tcc k with
                        | Some x => Returned x
                        | None => Returned (VList [])
                        end = Returned (tcc_list tcc k))
    by (intros k; unfold tcc_list; now destruct (dict_get tcc k)).
  rewrite !R. cbn [bind]. rewrite In_. cbn [bind].
  destruct (add_nodes_total ns ([], []) Dn) as [st1 F1].
  rewrite F1. cbn [bind]. rewrite Ie. cbn [bind].
  destruct (add_edges_total es st1 De) as [[adj2 set2] F2].
  rewrite F2. cbn [bind]. eauto.
Qed.

(** ** [_reachable]: the search terminates and finds what is reachable *)

Lemma set_mem_add seen x k :
  set_mem (set_add seen x) k = set_mem seen k || String.eqb k x.
Proof.
  apply eq_true_iff_eq.
  rewrite orb_true_iff, String.eqb_eq, (set_mem_In seen k),
    (set_mem_In (set_add seen x) k), set_add_In.
  tauto.
Qed.

Lemma unseen_sum_mono adj seen x :
  (unseen_sum adj (set_add seen x) <= unseen_sum adj seen)%nat.
Proof.
  induction adj as [|[k outs] adj IH]; simpl; [lia|].
  rewrite set_mem_add. destruct (set_mem seen k); simpl; [exact IH|].
  destruct (String.eqb k x); lia.
Qed.

Lemma unseen_sum_visit adj seen x :
  set_mem seen x = false ->
  (unseen_sum adj (set_add seen x) + List.length (adj_get adj x)
   <= unseen_sum adj seen)%nat.
Proof.
  intros U. unfold adj_get.
  induction adj as [|[k outs] adj IH]; simpl; [lia|].
  rewrite set_mem_add. destruct (String.eqb k x) eqn:E.
  - apply String.eqb_eq in E. subst k. rewrite U, orb_true_r.
    pose proof (unseen_sum_mono adj seen x). lia.
  - rewrite orb_false_r. destruct (set_mem seen k); lia.
Qed.

Lemma dfs_loop_terminates fuel adj sink :
  forall stack seen,
    (dfs_measure adj stack seen < fuel)%nat ->
    dfs_loop fuel adj sink stack seen <> None.
Proof.
  induction fuel as [|fuel IH]; intros stack seen B; [lia|].
  cbn [dfs_loop]. destruct stack as [|x stack]; [discriminate|].
  unfold dfs_measure in *. fold (unseen_sum adj seen) in B.
  simpl List.length in B.
  destruct (set_mem seen x) eqn:S.
  - apply IH. fold (unseen_sum adj seen). lia.
  - destruct (String.eqb x sink); [discriminate|].
    apply IH. fold (unseen_sum adj (set_add seen x)).
    rewrite rev_append_rev, length_app, length_rev.
    pose proof (unseen_sum_visit adj seen x S). lia.
Qed.

Section Search.

Variable adj : adjacency.
Variables root sink : string.

Lemma closed_set_holds_reachable seen :
  (forall z y, In z seen -> edge adj z y -> In y seen) ->
  forall x y, reachable adj x y -> In x seen -> In y seen.
Proof.
  intros C x y R. apply clos_rt_rt1n in R.
  induction R as [|x y z E _ IH]; [tauto|].
  intros I. apply IH. now apply (C x y).
Qed.

Lemma dfs_loop_spec fuel :
  forall stack seen,
    (dfs_measure adj stack seen < fuel)%nat ->
    dfs_inv adj root sink stack seen ->
    exists b, dfs_loop fuel adj sink stack seen = Some b /\
              (b = true <-> reachable adj root sink).
Proof.
  induction fuel as [|fuel IH]; intros stack seen B I; [lia|].
  pose proof (dfs_loop_terminates (S fuel) adj sink stack seen B) as NN.
  cbn [dfs_loop] in *. destruct I as [R [NS [C Rt]]].
  destruct stack as [|x stack].
  - exists false. split; [reflexivity|]. split; [discriminate|].
    intros Rs. exfalso. apply NS.
    apply (closed_set_holds_reachable seen C root sink Rs Rt).
  - destruct (set_mem seen x) eqn:S.
    + apply set_mem_In in S. apply IH.
      * unfold dfs_measure in *. simpl in B. lia.
      * split; [|split; [|split]].
        -- intros z Iz. apply R. now right.
        -- exact NS.
        -- intros z y Iz E. destruct (C z y Iz E) as [<- | Iy];
             [apply in_or_app; now right|exact Iy].
        -- destruct Rt as [<- | Rt]; [apply in_or_app; now right|exact Rt].
    + apply set_mem_false in S.
      destruct (String.eqb x sink) eqn:E.
      * apply String.eqb_eq in E. subst x.
        exists true. split; [reflexivity|]. split; [|reflexivity].
        intros _. apply R. now left.
      * apply String.eqb_neq in E.
        assert (M : forall y, In y (rev_append (adj_get adj x) stack
                                    ++ set_add seen x)
                              <-> In y (adj_get adj x) \/ In y stack \/
                                  In y seen \/ y = x).
        { intros y. rewrite rev_append_rev, !in_app_iff, <- in_rev, set_add_In.
          tauto. }
        apply IH.
        -- clear - B S. unfold dfs_measure in *.
           fold (unseen_sum adj seen) in B.
           fold (unseen_sum adj (set_add seen x)).
           rewrite rev_append_rev, length_app, length_rev.
           apply set_mem_false in S.
           pose proof (unseen_sum_visit adj seen x S).
           simpl List.length in B. lia.
        -- split; [|split; [|split]].
           ++ intros z Iz. apply M in Iz.
              destruct Iz as [Iz | [Iz | [Iz | ->]]].
              ** apply rt_trans with x; [apply R; now left|].
                 apply rt_step. exact Iz.
              ** apply R. right. apply in_or_app. now left.
              ** apply R. right. apply in_or_app. now right.
              ** apply R. now left.
           ++ rewrite set_add_In. intros [Is | Es]; [tauto|congruence].
           ++ intros z y Iz Ey. apply M. apply set_add_In in Iz.
              destruct Iz as [Iz | ->]; [|now left].
              specialize (C z y Iz Ey). simpl in C.
              rewrite in_app_iff in C.
              destruct C as [<- | [C | C]]; auto.
           ++ apply M. simpl in Rt. rewrite in_app_iff in Rt.
              destruct Rt as [<- | [Rt | Rt]]; auto.
Qed.

(** [_reachable] is reachability in the graph. *)
Lemma reachable_correct :
  _reachable adj root sink = true <-> reachable adj root sink.
Proof.
  unfold _reachable.
  destruct (dfs_loop_spec (S (dfs_measure adj [root] [])) [root] [])
    as [b [L Rb]]; [lia| |].
  - split; [|split; [|split]].
    + intros z [<- | []]. apply rt_refl.
    + tauto.
    + intros z y [].
    + now left.
  - rewrite L. exact Rb.
Qed.

End Search.

(** ** The gate chain as a sequence of tests *)

Lemma negb_false b : negb b = false -> b = true.
Proof. now destruct b. Qed.

Lemma verify_gates_pass env anchors :
  verify_gates env anchors = Returned None <-> passes_all_gates env anchors.
Proof.
  split.
  - intros H. gates_inv H; try discriminate. tidy.
    repeat match goal with
           | Q : negb _ = false |- _ => apply negb_false in Q
           end.
    subst.
    unfold passes_all_gates.
    do 20 eexists. repeat (split; [eassumption|]). eassumption.
  - intros (pd & est & tcc & adj & nodeset & root & receipt & tnode
            & payloadT & td & anode & payloadA & hc & he & gnode & payloadG
            & gate_outputs & budget_map & budget & b & H).
    decompose [and] H. clear H. unfold verify_gates.
    repeat match goal with
           | Q : ?l = _ |- context [?l] => rewrite Q; cbn [negb bind]
           end.
    reflexivity.
Qed.

(** ** The gates and the invariants of the specification *)

Lemma schema_ok_spec env :
  schema_ok env = true <->
  exists pd est tcc,
    _basic_schema_ok env = true /\
    nonempty_str (get_or_none env "proposal_digest") = Some pd /\
    py_in_set (get_or_none env "action_class") ALLOWED_ACTIONS = Returned true /\
    as_int (get_or_none env "energy_est_uj") = Some est /\
    Z.ltb est 0 = false /\
    get_or_none env "tcc" = VDict tcc.
Proof.
  unfold schema_ok, _basic_schema_ok, py_getitem, get_or_none, dict_mem.
  destruct (dict_get env "proposal_digest") as [pd|];
    [|split; [discriminate|intros (? & ? & ? & H & _); discriminate H]].
  destruct (dict_get env "action_class") as [ac|];
    [|split; [discriminate|intros (? & ? & ? & H & _); discriminate H]].
  destruct (dict_get env "energy_est_uj") as [est|];
    [|split; [discriminate|intros (? & ? & ? & H & _); discriminate H]].
  destruct (dict_get env "tcc") as [tcc|];
    [|split; [discriminate|intros (? & ? & ? & H & _); discriminate H]].
  cbn [bind].
  destruct (dict_get env "witness_hash") as [wh|]; cbn [bind].
  2:{ split; [destruct tcc; discriminate|].
      intros (? & ? & ? & H & _); discriminate H. }
  destruct tcc as [| | | | |tcc];
    try (split; [discriminate|intros (? & ? & ? & _ & _ & _ & _ & _ & H);
                              discriminate H]).
  rewrite !andb_true_iff. split.
  - intros [[[[[[P A] E] R] C] N] G].
    destruct (nonempty_str pd) as [s|]; [|discriminate].
    destruct (as_int est) as [z|]; [|discriminate].
    exists s, z, tcc.
    destruct (dict_get tcc "root"); [|discriminate].
    destruct (dict_get tcc "receipt"); [|discriminate].
    destruct (dict_get tcc "nodes"); [|discriminate].
    destruct (dict_get tcc "edges"); [|discriminate].
    cbn [bind]. repeat split; try reflexivity.
    + destruct ac; try discriminate. cbn [py_in_set]. now rewrite A.
    + apply Z.ltb_ge. now apply Z.leb_le.
  - intros (s & z & t & B & P & A & E & L & [= <-]).
    rewrite P, E.
    destruct (dict_get tcc "root"); [|discriminate].
    destruct (dict_get tcc "receipt"); [|discriminate].
    destruct (dict_get tcc "nodes"); [|discriminate].
    destruct (dict_get tcc "edges"); [|discriminate].
    repeat split; try reflexivity.
    + destruct ac; cbn [py_in_set] in A; try discriminate. now injection A.
    + apply Z.leb_le. now apply Z.ltb_ge.
Qed.

Lemma basic_schema_keys env tcc :
  _basic_schema_ok env = true -> get_or_none env "tcc" = VDict tcc ->
  dict_get env "tcc" = Some (VDict tcc) /\
  tcc_list tcc "nodes" = get_or_none tcc "nodes" /\
  tcc_list tcc "edges" = get_or_none tcc "edges".
Proof.
  unfold _basic_schema_ok, py_getitem, get_or_none, tcc_list.
  destruct (dict_get env "proposal_digest"); [|discriminate].
  destruct (dict_get env "action_class"); [|discriminate].
  destruct (dict_get env "energy_est_uj"); [|discriminate].
  destruct (dict_get env "tcc") as [tv|]; [|discriminate]. cbn [bind].
  destruct (dict_get env "witness_hash"); [|discriminate]. cbn [bind].
  intros B ->.
  destruct (dict_get tcc "root"); [|discriminate].
  destruct (dict_get tcc "receipt"); [|discriminate].
  destruct (dict_get tcc "nodes"); [|discriminate].
  destruct (dict_get tcc "edges"); [|discriminate].
  auto.
Qed.

Lemma list_of_dicts_spec v :
  list_of_dicts v = true <->
  exists l, py_iter v = Returned l /\ forallb is_dict l = true.
Proof.
  unfold list_of_dicts. destruct (py_iter v) as [l|e].
  - split; [eauto|]. now intros [l' [[= <-] F]].
  - split; [discriminate|]. now intros [l' [[=] _]].
Qed.

Lemma list_of_dicts_entries v l :
  py_iter v = Returned l -> forallb is_dict l = true -> l = entries v.
Proof.
  destruct v as [| | |s|l'|d]; simpl; try discriminate.
  - intros [= <-]. destruct s; [reflexivity|discriminate].
  - now intros [= <-].
  - intros [= <-]. destruct d; [reflexivity|discriminate].
Qed.

Lemma find_nodes_loop ty ns :
  forall acc,
    forallb is_dict ns = true ->
    for_each ns
      (fun acc n =>
         t <- py_get n "type" VNone ;;
         Returned (if py_eq t (VStr ty) then acc ++ [n] else acc))
      acc
    = Returned (acc ++ nodes_of_type ns ty).
Proof.
  induction ns as [|n ns IH]; intros acc D; cbn [for_each].
  - simpl. now rewrite app_nil_r.
  - simpl in D. apply andb_true_iff in D. destruct D as [Dn D].
    destruct n as [| | | | |d]; try discriminate.
    unfold nodes_of_type. cbn [filter has_type py_get].
    assert (T : match dict_get d "type" with
                | Some x => Returned x
                | None => Returned VNone
                end = Returned (get_or_none d "type"))
      by (unfold get_or_none; now destruct (dict_get d "type")).
    rewrite T. cbn [bind].
    destruct (py_eq (get_or_none d "type") (VStr ty)); rewrite (IH _ D).
    + now rewrite <- app_assoc.
    + reflexivity.
Qed.

Lemma find_nodes_loop_dicts ty ns :
  forall acc r,
    for_each ns
      (fun acc n =>
         t <- py_get n "type" VNone ;;
         Returned (if py_eq t (VStr ty) then acc ++ [n] else acc))
      acc
    = Returned r ->
    forallb is_dict ns = true.
Proof.
  induction ns as [|n ns IH]; intros acc r; cbn [for_each]; [reflexivity|].
  destruct n as [| | | | |d]; try discriminate.
  destruct (py_get (VDict d) "type" VNone) as [t|]; cbn [bind];
    [|discriminate].
  intros F. simpl. eapply IH. exact F.
Qed.

Lemma py_get_tcc_list tcc k :
  py_get (VDict tcc) k (VList []) = Returned (tcc_list tcc k).
Proof. unfold py_get, tcc_list. now destruct (dict_get tcc k). Qed.

Lemma find_nodes_spec tcc ty l :
  _find_nodes_by_type tcc ty = Returned l <->
  exists ns, py_iter (tcc_list tcc "nodes") = Returned ns /\
             forallb is_dict ns = true /\
             l = nodes_of_type ns ty.
Proof.
  unfold _find_nodes_by_type. rewrite py_get_tcc_list. cbn [bind].
  destruct (py_iter (tcc_list tcc "nodes")) as [ns|e]; cbn [bind].
  - split.
    + intros F. exists ns. split; [reflexivity|].
      pose proof (find_nodes_loop_dicts ty ns [] l F) as D.
      split; [exact D|].
      rewrite (find_nodes_loop ty ns [] D) in F. now injection F.
    + intros [ns' [[= <-] [D ->]]]. now rewrite (find_nodes_loop ty ns [] D).
  - split; [discriminate|]. now intros [ns' [[=] _]].
Qed.

Lemma payload_read n k dflt p v :
  py_get n "payload" (VDict []) = Returned p ->
  py_get p k dflt = Returned v ->
  payload_is_dict n = true /\
  v = match dict_get (payload_of n) k with Some x => x | None => dflt end.
Proof.
  unfold py_get, payload_is_dict, payload_of.
  destruct n as [| | | | |d]; try discriminate.
  destruct (dict_get d "payload") as [q|]; intros [= <-].
  - destruct q as [| | | | |q]; try discriminate.
    destruct (dict_get q k); intros [= <-]; auto.
  - simpl. intros [= <-]. auto.
Qed.

Lemma payload_read_total n k dflt :
  payload_is_dict n = true ->
  py_get n "payload" (VDict []) = Returned (VDict (payload_of n)) /\
  py_get (VDict (payload_of n)) k dflt
  = Returned match dict_get (payload_of n) k with
             | Some x => x
             | None => dflt
             end.
Proof.
  unfold py_get, payload_is_dict, payload_of.
  destruct n as [| | | | |d]; try discriminate.
  destruct (dict_get d "payload") as [q|].
  - destruct q as [| | | | |q]; try discriminate.
    intros _. split; [reflexivity|]. now destruct (dict_get q k).
  - intros _. split; reflexivity.
Qed.

Lemma budget_read anchors ac m b :
  py_get (VDict anchors) "energy_budget_uj" (VDict []) = Returned m ->
  py_get_key m (VStr ac) = Returned b ->
  match dict_get anchors "energy_budget_uj" with
  | Some (VDict _) | None => True
  | Some _ => False
  end /\
  b = budget_of anchors ac.
Proof.
  unfold py_get, py_get_key, budget_of, get_or_none.
  destruct (dict_get anchors "energy_budget_uj") as [q|]; intros [= <-].
  - destruct q as [| | | | |q]; try discriminate.
    unfold py_get. destruct (dict_get q ac); intros [= <-]; auto.
  - simpl. intros [= <-]. auto.
Qed.

Lemma budget_read_total anchors ac :
  match dict_get anchors "energy_budget_uj" with
  | Some (VDict _) | None => True
  | Some _ => False
  end ->
  exists m,
    py_get (VDict anchors) "energy_budget_uj" (VDict []) = Returned m /\
    py_get_key m (VStr ac) = Returned (budget_of anchors ac).
Proof.
  unfold py_get, py_get_key, budget_of, get_or_none.
  destruct (dict_get anchors "energy_budget_uj") as [q|].
  - destruct q as [| | | | |q]; try contradiction.
    intros _. eexists. split; [reflexivity|].
    unfold py_get. now destruct (dict_get q ac).
  - intros _. eexists. split; reflexivity.
Qed.

Lemma clos_trans_equiv (R S : string -> string -> Prop) :
  (forall x y, R x y <-> S x y) ->
  forall x y, clos_trans string R x y <-> clos_trans string S x y.
Proof.
  intros E x y. split; induction 1 as [x y H | x y z _ IH1 _ IH2];
    try (apply t_step; now apply E);
    eapply t_trans; eassumption.
Qed.

Lemma clos_refl_trans_equiv (R S : string -> string -> Prop) :
  (forall x y, R x y <-> S x y) ->
  forall x y, clos_refl_trans string R x y <-> clos_refl_trans string S x y.
Proof.
  intros E x y. split; induction 1 as [x y H | x | x y z _ IH1 _ IH2];
    try (apply rt_step; now apply E); try apply rt_refl;
    eapply rt_trans; eassumption.
Qed.

Lemma py_eq_VStr v s : py_eq v (VStr s) = true <-> v = VStr s.
Proof.
  destruct v as [| [|] | z | t | l | d]; simpl; split;
    try discriminate; try (intros H; discriminate H).
  - intros E. apply String.eqb_eq in E. now subst.
  - intros [= ->]. apply String.eqb_refl.
Qed.

Lemma verify_ok_iff env anchors :
  verify env anchors = Returned (true, "OK", [("stage", VStr "ok")]) <->
  verify_gates env anchors = Returned None /\
  get_or_none env "witness_hash"
  = VStr (compute_witness_hash (dict_pop env "witness_hash")).
Proof.
  unfold verify, witness_gate.
  destruct (verify_gates env anchors) as [[[[ok reason] d]|]|e] eqn:E;
    cbn [bind].
  - apply verify_gates_reason in E. destruct E as [-> _].
    split; [discriminate|]. now intros [[=] _].
  - rewrite <- py_eq_VStr.
    destruct (py_eq _ _); cbn [negb]; split; auto;
      try discriminate; now intros [_ [=]].
  - split; [discriminate|]. now intros [[=] _].
Qed.

Lemma graph_edges_agree adj es :
  (forall x, adj_get adj x = successors es x) ->
  forall x y, edge adj x y <-> tcc_edge es x y.
Proof.
  intros A x y. unfold edge, tcc_edge. rewrite A. apply successors_In.
Qed.

Lemma iter_entries v :
  list_of_dicts v = true ->
  py_iter v = Returned (entries v) /\ forallb is_dict (entries v) = true.
Proof.
  intros L. apply list_of_dicts_spec in L. destruct L as [l [I D]].
  pose proof (list_of_dicts_entries v l I D) as <-. auto.
Qed.

(** The graph part of the chain: what [_build_graph], [_is_dag] and
    [_reachable] decide together. *)
Lemma topology_gate_spec tcc root receipt :
  (exists adj nodeset,
      _build_graph tcc = Returned (adj, nodeset) /\
      _is_dag adj nodeset = Returned true /\
      _reachable adj root receipt = true) <->
  list_of_dicts (tcc_list tcc "nodes") = true /\
  list_of_dicts (tcc_list tcc "edges") = true /\
  tcc_acyclic (entries (tcc_list tcc "edges")) /\
  tcc_reachable (entries (tcc_list tcc "edges")) root receipt.
Proof.
  split.
  - intros (adj & nodeset & B & D & R).
    apply build_graph_spec in B.
    destruct B as (ns & es & In_ & Ie & Dn & De & G & A & _).
    pose proof (list_of_dicts_entries _ _ Ie De) as <-.
    pose proof (graph_edges_agree adj es A) as EQ.
    split; [apply list_of_dicts_spec; eauto|].
    split; [apply list_of_dicts_spec; eauto|].
    destruct (is_dag_correct adj nodeset G) as [b [D' Ac]].
    rewrite D in D'. injection D' as <-.
    split.
    + intros x C. apply (proj1 Ac eq_refl x).
      now apply (clos_trans_equiv _ _ EQ).
    + apply (clos_refl_trans_equiv _ _ EQ).
      now apply reachable_correct.
  - intros (Ln & Le & Ac & Rc).
    destruct (iter_entries _ Ln) as [In_ Dn].
    destruct (iter_entries _ Le) as [Ie De].
    destruct (build_graph_total tcc _ _ In_ Ie Dn De) as [[adj nodeset] B].
    exists adj, nodeset. split; [exact B|].
    apply build_graph_spec in B.
    destruct B as (ns & es & In' & Ie' & _ & _ & G & A & _).
    rewrite Ie in Ie'. injection Ie' as <-.
    pose proof (graph_edges_agree adj _ A) as EQ.
    destruct (is_dag_correct adj nodeset G) as [b [D' Ac']].
    split.
    + rewrite D'. f_equal. apply Ac'. intros x C. apply (Ac x).
      now apply (clos_trans_equiv _ _ EQ).
    + apply reachable_correct. now apply (clos_refl_trans_equiv _ _ EQ).
Qed.

Lemma find_nodes_entries tcc ty l :
  _find_nodes_by_type tcc ty = Returned l ->
  l = nodes_of_type (entries (tcc_list tcc "nodes")) ty.
Proof.
  intros F. apply find_nodes_spec in F. destruct F as (ns & I & D & ->).
  now rewrite (list_of_dicts_entries _ _ I D).
Qed.

Lemma find_nodes_total tcc ty :
  list_of_dicts (tcc_list tcc "nodes") = true ->
  _find_nodes_by_type tcc ty
  = Returned (nodes_of_type (entries (tcc_list tcc "nodes")) ty).
Proof.
  intros L. destruct (iter_entries _ L) as [I D].
  apply find_nodes_spec. eauto.
Qed.

Lemma py_in_set_true v s :
  py_in_set v s = Returned true <-> exists a, v = VStr a /\ In a s.
Proof.
  destruct v as [| | |t| |]; simpl; split;
    try discriminate; try (intros [a [E _]]; discriminate E).
  - intros [= E]. apply set_mem_In in E. eauto.
  - intros [a [[= <-] I]]. apply set_mem_In in I. now rewrite I.
Qed.

Lemma coverage_of_empty :
  forallb (set_mem (passed_gates [])) REQ_GATES_MIN = false.
Proof. reflexivity. Qed.

(** X8. [verify] admits an envelope exactly when the envelope is well
    shaped (the entries of nodes and edges, the payloads read and the
    budget table are mappings) and satisfies the invariants the
    specification states. *)
Theorem verify_admits_iff env anchors :
  verify env anchors = Returned (true, "OK", [("stage", VStr "ok")]) <->
  well_shaped env anchors /\ stated_invariants env anchors.
Proof.
  rewrite verify_ok_iff, verify_gates_pass. split.
  - intros [(pd & est & tcc & adj & nodeset & root & receipt & tnode
             & payloadT & td & anode & payloadA & hc & he & gnode & payloadG
             & gate_outputs & budget_map & budget & b
             & B & Pd & Ac & Es & El & Tc & Bg & Rt & Rc & Dg & Re
             & Ft & Pt & Td & Te & Fa & Pa & Hc & He & Ec & Ee
             & Fg & Pg & Go & Cv & Bm & Bk & Bi & Bl) W].
    destruct (basic_schema_keys env tcc B Tc) as (Dt & Tn & Tedges).
    destruct (proj1 (topology_gate_spec tcc root receipt)) as (Ln & Le & Acy & Rch);
      [eauto|].
    rewrite Tn in Ln. rewrite Tedges in Le, Acy, Rch.
    apply find_nodes_entries in Ft, Fa, Fg. rewrite Tn in Ft, Fa, Fg.
    destruct (payload_read _ _ _ _ _ Pt Td) as [St Vt].
    destruct (payload_read _ _ _ _ _ Pa Hc) as [Sa Vc].
    destruct (payload_read _ _ _ _ _ Pa He) as [_ Ve].
    destruct (payload_read _ _ _ _ _ Pg Go) as [Sg Vg].
    apply py_in_set_true in Ac. destruct Ac as [a [Ea Ia]].
    rewrite Ea in Bk.
    destruct (budget_read _ _ _ _ Bm Bk) as [Sb Vb].
    split.
    + exists tcc. split; [exact Dt|]. split; [exact Ln|].
      split; [exact Le|]. split; [|exact Sb].
      intros ty n [<- | [<- | [<- | []]]] I;
        [rewrite <- Ft in I | rewrite <- Fa in I | rewrite <- Fg in I];
        destruct I as [<- | []]; assumption.
    + split.
      * apply schema_ok_spec. exists pd, est, tcc.
        rewrite Ea. cbn [py_in_set]. apply set_mem_In in Ia. rewrite Ia.
        repeat split; first [assumption | reflexivity].
      * exists tcc, root, receipt, a, est, tnode, anode, gnode,
          gate_outputs, b.
        split; [exact Dt|]. split; [exact Rt|]. split; [exact Rc|].
        split; [exact Acy|]. split; [exact Rch|].
        split; [now symmetry|].
        split; [unfold get_or_none at 1; now rewrite <- Vt|].
        split; [now symmetry|].
        split; [unfold get_or_none at 1; now rewrite <- Vc|].
        split; [unfold get_or_none at 1; now rewrite <- Ve|].
        split; [now symmetry|].
        split.
        { destruct (dict_get (payload_of gnode) "gate_outputs") as [x|].
          - now subst x.
          - injection Vg as ->. rewrite coverage_of_empty in Cv.
            discriminate. }
        split; [now apply forallb_req_subset|].
        split; [exact Ea|]. split; [exact Es|].
        split; [now rewrite <- Vb|].
        split; [|exact W].
        rewrite Z.gtb_ltb in Bl. now apply Z.ltb_ge.
  - intros [(tcc & Dt & Ln & Le & Sp & Sb)
              (Sc & tcc' & root & receipt & a & est & tnode & anode & gnode
               & gate_outputs & b & Dt' & Rt & Rc & Acy & Rch & Ft & Td
               & Fa & Hc & He & Fg & Go & Cv & Ea & Es & Bi & Bl & W)].
    rewrite Dt in Dt'. injection Dt' as <-. split; [|exact W].
    apply schema_ok_spec in Sc.
    destruct Sc as (pd & est' & tcc' & B & Pd & Ac & Es' & El & Tc).
    rewrite Es in Es'. injection Es' as <-.
    assert (tcc' = tcc) as ->.
    { unfold get_or_none in Tc. rewrite Dt in Tc. now injection Tc. }
    destruct (basic_schema_keys env tcc B Tc) as (_ & Tn & Tedges).
    destruct (proj2 (topology_gate_spec tcc root receipt))
      as (adj & nodeset & Bg & Dg & Re).
    { rewrite Tn, Tedges. repeat split; assumption. }
    assert (Fn : forall ty, _find_nodes_by_type tcc ty
                            = Returned (nodes_of_type
                                          (entries (get_or_none tcc "nodes")) ty)).
    { intros ty. rewrite <- Tn. apply find_nodes_total. now rewrite Tn. }
    assert (St : payload_is_dict tnode = true).
    { apply (Sp "TargetRef"); [simpl; auto|rewrite Ft; now left]. }
    assert (Sa : payload_is_dict anode = true).
    { apply (Sp "IntentAnchor"); [simpl; auto|rewrite Fa; now left]. }
    assert (Sg : payload_is_dict gnode = true).
    { apply (Sp "GateVector"); [simpl; auto|rewrite Fg; now left]. }
    destruct (payload_read_total tnode "target_digest" VNone St) as [Pt Gt].
    destruct (payload_read_total anode "h_constitution" VNone Sa) as [Pa Gc].
    destruct (payload_read_total anode "h_energy_policy" VNone Sa) as [_ Ge].
    destruct (payload_read_total gnode "gate_outputs" (VList []) Sg) as [Pg Gg].
    rewrite Go in Gg.
    destruct (budget_read_total anchors a Sb) as (m & Bm & Bk).
    exists pd, est, tcc, adj, nodeset, root, receipt, tnode,
      (VDict (payload_of tnode)),
      (get_or_none (payload_of tnode) "target_digest"),
      anode, (VDict (payload_of anode)),
      (get_or_none (payload_of anode) "h_constitution"),
      (get_or_none (payload_of anode) "h_energy_policy"),
      gnode, (VDict (payload_of gnode)), gate_outputs, m,
      (budget_of anchors a), b.
    rewrite (Fn "TargetRef"), (Fn "IntentAnchor"), (Fn "GateVector"),
      Ft, Fa, Fg, Ea.
    rewrite Ea in Ac.
    repeat (split; [first [assumption | reflexivity]|]).
    split; [now apply forallb_req_subset|].
    split; [exact Bm|]. split; [exact Bk|]. split; [exact Bi|].
    rewrite Z.gtb_ltb. now apply Z.ltb_ge.
Qed.

(** ** Consequences for the gate chain *)

(** X4. On every graph [_build_graph] returns, [_is_dag] returns, and it
    answers true exactly when the graph has no directed cycle; the graph
    is the one the edge entries of the certificate declare. *)
Theorem is_dag_iff_acyclic tcc adj nodes :
  _build_graph tcc = Returned (adj, nodes) ->
  exists b, _is_dag adj nodes = Returned b /\
            (b = true <-> acyclic adj) /\
            (acyclic adj <-> tcc_acyclic (entries (tcc_list tcc "edges"))).
Proof.
  intros B. apply build_graph_spec in B.
  destruct B as (ns & es & _ & Ie & _ & De & G & A & _).
  pose proof (list_of_dicts_entries _ _ Ie De) as <-.
  destruct (is_dag_correct adj nodes G) as [b [D Ac]].
  exists b. split; [exact D|]. split; [exact Ac|].
  pose proof (graph_edges_agree adj es A) as EQ.
  unfold acyclic, tcc_acyclic.
  split; intros H x C; apply (H x); now apply (clos_trans_equiv _ _ EQ).
Qed.

(** An envelope that passes the schema checks, names its root and its
    receipt, lists mappings as nodes and edges, and whose edges contain a
    directed cycle, is rejected as not a DAG. *)
Theorem cycle_is_rejected env anchors tcc root receipt :
  schema_ok env = true ->
  dict_get env "tcc" = Some (VDict tcc) ->
  nonempty_str (get_or_none tcc "root") = Some root ->
  nonempty_str (get_or_none tcc "receipt") = Some receipt ->
  list_of_dicts (get_or_none tcc "nodes") = true ->
  list_of_dicts (get_or_none tcc "edges") = true ->
  ~ tcc_acyclic (entries (get_or_none tcc "edges")) ->
  verify env anchors
  = Returned (false, REASON_TOPO, debug "topology" "not a DAG").
Proof.
  intros Sc Dt Rt Rc Ln Le Cy.
  apply schema_ok_spec in Sc.
  destruct Sc as (pd & est & tcc' & B & Pd & Ac & Es & El & Tc).
  assert (tcc' = tcc) as ->.
  { unfold get_or_none in Tc. rewrite Dt in Tc. now injection Tc. }
  destruct (basic_schema_keys env tcc B Tc) as (_ & Tn & Te).
  rewrite <- Tn in Ln. rewrite <- Te in Le, Cy.
  destruct (iter_entries _ Ln) as [In_ Dn].
  destruct (iter_entries _ Le) as [Ie De].
  destruct (build_graph_total tcc _ _ In_ Ie Dn De) as [[adj nodeset] Bg].
  pose proof (build_graph_spec _ _ _ Bg)
    as (ns & es & _ & Ie' & _ & De' & G & A & _).
  pose proof (list_of_dicts_entries _ _ Ie' De') as ->.
  destruct (is_dag_correct adj nodeset G) as (b & D & A1).
  assert (A2 : acyclic adj -> tcc_acyclic (entries (tcc_list tcc "edges"))).
  { intros H x C. apply (H x).
    now apply (clos_trans_equiv _ _ (graph_edges_agree adj _ A)). }
  assert (b = false) as ->.
  { destruct b; [|reflexivity]. exfalso. apply Cy, A2, A1. reflexivity. }
  unfold verify, verify_gates.
  rewrite B, Pd, Ac, Es, El, Tc, Bg. cbn [bind negb].
  rewrite Rt, Rc, D. reflexivity.
Qed.


(** X9. Every triple [verify] returns has a reason of the closed
    enumeration,
    admits exactly with the reason OK, and carries a stage; a rejection
    carries a detail string, except the rejection for a missing field. *)
Theorem verify_outcome_shape env anchors ok reason dbg :
  verify env anchors = Returned (ok, reason, dbg) ->
  In reason ("OK" :: REASON) /\
  (ok = true <-> reason = "OK") /\
  (exists stage, dict_get dbg "stage" = Some (VStr stage)) /\
  (ok = false ->
   (exists detail, dict_get dbg "detail" = Some (VStr detail)) \/
   (_basic_schema_ok env = false /\ dbg = [("stage", VStr "schema")])).
Proof.
  unfold verify. intros H.
  destruct (verify_gates env anchors) as [[o|]|e] eqn:E; cbn [bind] in H;
    [| |discriminate].
  - injection H as ->.
    gates_inv E; try discriminate; injection E as <- <- <-;
      (split; [simpl; tauto|]);
      (split; [split; discriminate|]);
      (split; [eexists; reflexivity|]);
      intros _;
      first [ left; eexists; reflexivity
            | right; split; [now apply negb_true_iff|reflexivity] ].
  - unfold witness_gate in H.
    destruct (negb _); injection H as <- <- <-.
    + split; [simpl; tauto|]. split; [split; discriminate|].
      split; [eexists; reflexivity|]. intros _. left. eexists. reflexivity.
    + split; [simpl; tauto|]. split; [tauto|].
      split; [eexists; reflexivity|]. discriminate.
Qed.

(** * Further properties of the code *)

(** ** [_basic_schema_ok] *)

Lemma dict_mem_true {V : Type} (d : list (string * V)) k :
  dict_mem d k = true <-> exists v, dict_get d k = Some v.
Proof.
  unfold dict_mem. destruct (dict_get d k) as [v|].
  - split; [eauto|reflexivity].
  - split; [discriminate|]. intros [v H]. discriminate.
Qed.

(** The fields [_basic_schema_ok] asks for. *)
Lemma basic_schema_ok_fields env :
  _basic_schema_ok env = true ->
  (forall k, In k ["proposal_digest"; "action_class"; "energy_est_uj";
                   "tcc"; "witness_hash"] -> dict_mem env k = true) /\
  exists tcc, dict_get env "tcc" = Some (VDict tcc) /\
              forall k, In k ["root"; "receipt"; "nodes"; "edges"] ->
                        dict_mem tcc k = true.
Proof.
  unfold _basic_schema_ok, py_getitem.
  destruct (dict_get env "proposal_digest") eqn:E1; cbn [bind]; [|discriminate].
  destruct (dict_get env "action_class") eqn:E2; cbn [bind]; [|discriminate].
  destruct (dict_get env "energy_est_uj") eqn:E3; cbn [bind]; [|discriminate].
  destruct (dict_get env "tcc") as [t|] eqn:E4; cbn [bind]; [|discriminate].
  destruct (dict_get env "witness_hash") eqn:E5; cbn [bind]; [|discriminate].
  destruct t as [| | | | |tcc]; cbn [bind]; try discriminate.
  destruct (dict_get tcc "root") eqn:T1; cbn [bind]; [|discriminate].
  destruct (dict_get tcc "receipt") eqn:T2; cbn [bind]; [|discriminate].
  destruct (dict_get tcc "nodes") eqn:T3; cbn [bind]; [|discriminate].
  destruct (dict_get tcc "edges") eqn:T4; cbn [bind]; [|discriminate].
  intros _. split.
  - intros k I. apply dict_mem_true. simpl in I.
    repeat (destruct I as [<- | I]; [eauto|]). destruct I.
  - exists tcc. split; [reflexivity|].
    intros k I. apply dict_mem_true. simpl in I.
    repeat (destruct I as [<- | I]; [eauto|]). destruct I.
Qed.

(** X1. [_basic_schema_ok] never raises: it answers true exactly when the
    envelope has the five top-level fields and its [tcc] is a mapping
    with the fields root, receipt, nodes and edges; a [tcc] that is not a
    mapping makes the subscript raise, which is caught and answered
    false. *)
Theorem basic_schema_ok_iff env :
  _basic_schema_ok env = true <->
  (forall k, In k ["proposal_digest"; "action_class"; "energy_est_uj";
                   "tcc"; "witness_hash"] -> dict_mem env k = true) /\
  exists tcc, dict_get env "tcc" = Some (VDict tcc) /\
              forall k, In k ["root"; "receipt"; "nodes"; "edges"] ->
                        dict_mem tcc k = true.
Proof.
  split; [apply basic_schema_ok_fields|].
  unfold _basic_schema_ok, py_getitem.
  intros [Top [tcc [Et Sub]]].
  assert (K : forall k, In k ["proposal_digest"; "action_class";
                              "energy_est_uj"; "tcc"; "witness_hash"] ->
                        exists v, dict_get env k = Some v)
    by (intros k I; now apply dict_mem_true, Top).
  assert (S : forall k, In k ["root"; "receipt"; "nodes"; "edges"] ->
                        exists v, dict_get tcc k = Some v)
    by (intros k I; now apply dict_mem_true, Sub).
  destruct (K "proposal_digest") as [? ->]; [simpl; tauto|].
  destruct (K "action_class") as [? ->]; [simpl; tauto|].
  destruct (K "energy_est_uj") as [? ->]; [simpl; tauto|].
  destruct (K "witness_hash") as [? ->]; [simpl; tauto|].
  rewrite Et. cbn [bind].
  destruct (S "root") as [? ->]; [simpl; tauto|].
  destruct (S "receipt") as [? ->]; [simpl; tauto|].
  destruct (S "nodes") as [? ->]; [simpl; tauto|].
  destruct (S "edges") as [? ->]; [simpl; tauto|].
  reflexivity.
Qed.

(** ** [_build_graph] *)

Lemma add_nodes_raise ns :
  forall st e, for_each ns add_node st = Raised e -> e = AttributeError.
Proof.
  induction ns as [|n ns IH]; intros [adj nodeset] e; cbn [for_each];
    [discriminate|].
  destruct (add_node (adj, nodeset) n) as [st'|e'] eqn:A; cbn [bind].
  - apply IH.
  - intros [= <-]. unfold add_node, py_get in A.
    destruct n as [| | | | |d]; try (now injection A as <-).
    destruct (dict_get d "id") as [v|]; cbn [bind] in A;
      destruct (nonempty_str _); discriminate.
Qed.

Lemma add_edges_raise es :
  forall st e, for_each es add_edge st = Raised e -> e = AttributeError.
Proof.
  induction es as [|x es IH]; intros [adj nodeset] e; cbn [for_each];
    [discriminate|].
  destruct (add_edge (adj, nodeset) x) as [st'|e'] eqn:A; cbn [bind].
  - apply IH.
  - intros [= <-]. unfold add_edge, py_get in A.
    destruct x as [| | | | |d]; try (now injection A as <-).
    destruct (dict_get d "from") as [v|]; cbn [bind] in A;
      destruct (dict_get d "to") as [w|]; cbn [bind] in A;
      destruct (nonempty_str _); try destruct (nonempty_str _); discriminate.
Qed.

Lemma py_iter_raise v e : py_iter v = Raised e -> e = TypeError.
Proof. destruct v; simpl; congruence. Qed.

Lemma build_graph_raise tcc e :
  _build_graph tcc = Raised e -> e = TypeError \/ e = AttributeError.
Proof.
  intros B. unfold _build_graph in B. rewrite !py_get_tcc_list in B.
  cbn [bind] in B.
  destruct (py_iter (tcc_list tcc "nodes")) as [ns|e1] eqn:In_;
    cbn [bind] in B;
    [|injection B as <-; left; eapply py_iter_raise; eassumption].
  destruct (for_each ns add_node ([], [])) as [st1|e1] eqn:F1;
    cbn [bind] in B;
    [|injection B as <-; right; eapply add_nodes_raise; eassumption].
  destruct (py_iter (tcc_list tcc "edges")) as [es|e1] eqn:Ie;
    cbn [bind] in B;
    [|injection B as <-; left; eapply py_iter_raise; eassumption].
  destruct (for_each es add_edge st1) as [[adj nodeset]|e1] eqn:F2;
    cbn [bind] in B;
    [discriminate|injection B as <-; right; eapply add_edges_raise;
                    eassumption].
Qed.

(** X2. [_build_graph] returns exactly when what it iterates as nodes and
    as edges yields mappings only; otherwise it raises [TypeError] (a
    value that cannot be iterated) or [AttributeError] (an entry without
    [get]), and never [KeyError]. *)
Theorem build_graph_returns_iff tcc :
  match _build_graph tcc with
  | Returned _ =>
      list_of_dicts (tcc_list tcc "nodes") = true /\
      list_of_dicts (tcc_list tcc "edges") = true
  | Raised e =>
      (list_of_dicts (tcc_list tcc "nodes") = false \/
       list_of_dicts (tcc_list tcc "edges") = false) /\
      (e = TypeError \/ e = AttributeError)
  end.
Proof.
  destruct (_build_graph tcc) as [[adj nodes]|e] eqn:B.
  - apply build_graph_spec in B.
    destruct B as (ns & es & In_ & Ie & Dn & De & _).
    split; apply list_of_dicts_spec; eauto.
  - split; [|now apply (build_graph_raise tcc)].
    destruct (list_of_dicts (tcc_list tcc "nodes")) eqn:Ln; [|now left].
    destruct (list_of_dicts (tcc_list tcc "edges")) eqn:Le; [|now right].
    destruct (iter_entries _ Ln) as [In_ Dn].
    destruct (iter_entries _ Le) as [Ie De].
    destruct (build_graph_total tcc _ _ In_ Ie Dn De) as [g Bg].
    congruence.
Qed.

(** X3. The graph [_build_graph] returns: one adjacency list per node and
    no other key, every successor is a node, the successors of a node are
    the targets of the well-formed edge entries leaving it, in listing
    order and with repetitions, and the node set holds the declared ids
    and both ends of every well-formed edge.  Entries whose ids are not
    non-empty strings are dropped. *)
Theorem build_graph_result tcc adj nodes :
  _build_graph tcc = Returned (adj, nodes) ->
  graph_ok adj nodes /\
  (forall x, adj_get adj x = successors (entries (tcc_list tcc "edges")) x) /\
  (forall x, In x nodes <->
             In x (node_ids (entries (tcc_list tcc "nodes"))) \/
             exists a b, In (a, b) (edge_pairs (entries (tcc_list tcc "edges")))
                         /\ (x = a \/ x = b)).
Proof.
  intros B. apply build_graph_spec in B.
  destruct B as (ns & es & In_ & Ie & Dn & De & G & A & N).
  rewrite <- (list_of_dicts_entries _ _ In_ Dn).
  rewrite <- (list_of_dicts_entries _ _ Ie De).
  auto.
Qed.

Lemma build_graph_result_witness :
  let tcc := sample_tcc (VList (sample_nodes sample_hashes ++ [VDict []]))
                        (VList (sample_edges ++ [sample_edge "n_gates" "n_log"]))
  in
  exists adj nodes,
    _build_graph tcc = Returned (adj, nodes) /\
    graph_ok adj nodes /\
    (forall x, adj_get adj x = successors (entries (tcc_list tcc "edges")) x) /\
    (forall x, In x nodes <->
               In x (node_ids (entries (tcc_list tcc "nodes"))) \/
               exists a b,
                 In (a, b) (edge_pairs (entries (tcc_list tcc "edges")))
                 /\ (x = a \/ x = b)).
Proof.
  intros tcc.
  exists [("n_target", ["n_anchor"]); ("n_anchor", ["n_gates"]);
          ("n_gates", ["n_log"]); ("n_log", [])],
         ["n_target"; "n_anchor"; "n_gates"; "n_log"].
  split; [reflexivity|].
  apply (build_graph_result tcc). reflexivity.
Defined.

(** ** [_find_nodes_by_type] *)

Lemma find_nodes_loop_raise ty ns :
  forall acc,
    forallb is_dict ns = false ->
    for_each ns
      (fun acc n =>
         t <- py_get n "type" VNone ;;
         Returned (if py_eq t (VStr ty) then acc ++ [n] else acc))
      acc
    = Raised AttributeError.
Proof.
  induction ns as [|n ns IH]; intros acc F; [discriminate|].
  cbn [forallb] in F. cbn [for_each].
  destruct n as [| | | | |d]; try reflexivity.
  cbn [is_dict andb] in F. unfold py_get at 1.
  destruct (dict_get d "type"); cbn [bind]; now apply IH.
Qed.

(** X7. When [nodes] is a list, [_find_nodes_by_type] returns the entries
    whose [type] equals the requested one, in listing order, provided
    every entry is a mapping; one entry that is not a mapping makes it
    raise [AttributeError], whatever its position and whatever the type
    asked for. *)
Theorem find_nodes_by_type_outcome tcc ty l :
  tcc_list tcc "nodes" = VList l ->
  _find_nodes_by_type tcc ty
  = if forallb is_dict l then Returned (nodes_of_type l ty)
    else Raised AttributeError.
Proof.
  intros E. unfold _find_nodes_by_type.
  rewrite py_get_tcc_list, E. cbn [bind py_iter].
  destruct (forallb is_dict l) eqn:F.
  - now rewrite find_nodes_loop.
  - now apply find_nodes_loop_raise.
Qed.

Lemma find_nodes_by_type_outcome_witness :
  _find_nodes_by_type
    [("nodes", VList (sample_nodes sample_hashes ++ [VInt 1]))] "GateVector"
  = Raised AttributeError.
Proof.
  apply (find_nodes_by_type_outcome
           [("nodes", VList (sample_nodes sample_hashes ++ [VInt 1]))]
           "GateVector" (sample_nodes sample_hashes ++ [VInt 1])).
  reflexivity.
Defined.

(** ** [_is_dag] and [_reachable] *)

(** X5. The answer of [_is_dag] depends on the edges only: neither the
    order in which the node set and the adjacency are enumerated (Python
    fixes none for a set), nor the order and the repetitions inside a
    successor list, nor nodes without edges change it. *)
Theorem is_dag_ignores_order adj nodes adj' nodes' :
  graph_ok adj nodes -> graph_ok adj' nodes' ->
  (forall x y, edge adj x y <-> edge adj' x y) ->
  _is_dag adj nodes = _is_dag adj' nodes'.
Proof.
  intros G G' E.
  destruct (is_dag_correct adj nodes G) as [b [D A]].
  destruct (is_dag_correct adj' nodes' G') as [b' [D' A']].
  rewrite D, D'. f_equal.
  apply eq_true_iff_eq. rewrite A, A'. unfold acyclic.
  split; intros H x C; apply (H x); now apply (clos_trans_equiv _ _ E).
Qed.

Lemma is_dag_ignores_order_witness :
  _is_dag [("a", ["b"; "c"; "b"]); ("b", ["c"]); ("c", [])] ["a"; "b"; "c"]
  = _is_dag [("c", []); ("b", ["c"]); ("a", ["c"; "b"]); ("d", [])]
            ["d"; "c"; "a"; "b"].
Proof.
  apply is_dag_ignores_order.
  - repeat split.
    + repeat constructor; simpl; intuition discriminate.
    + repeat constructor; simpl; intuition discriminate.
    + simpl; tauto.
    + simpl; tauto.
    + intros x outs y I O. simpl in I.
      repeat (destruct I as [[= <- <-] | I]; [simpl in O; simpl; tauto|]).
      destruct I.
  - repeat split.
    + repeat constructor; simpl; intuition discriminate.
    + repeat constructor; simpl; intuition discriminate.
    + simpl; tauto.
    + simpl; tauto.
    + intros x outs y I O. simpl in I.
      repeat (destruct I as [[= <- <-] | I]; [simpl in O; simpl; tauto|]).
      destruct I.
  - intros x y. unfold edge, adj_get. cbn [dict_get].
    destruct (String.eqb "a" x) eqn:Ea.
    + apply String.eqb_eq in Ea. subst x. simpl. tauto.
    + destruct (String.eqb "b" x) eqn:Eb.
      * apply String.eqb_eq in Eb. subst x. simpl. tauto.
      * destruct (String.eqb "c" x) eqn:Ec.
        -- apply String.eqb_eq in Ec. subst x. simpl. tauto.
        -- destruct (String.eqb "d" x); simpl; tauto.
Defined.

Lemma last_default (l : list string) d d' :
  l <> [] -> last l d = last l d'.
Proof.
  induction l as [|a l IH]; intros N; [contradiction|].
  destruct l as [|b l]; [reflexivity|].
  change (last (b :: l) d = last (b :: l) d'). apply IH. discriminate.
Qed.

Lemma last_cons (l : list string) z d : last (z :: l) d = last l z.
Proof.
  destruct l as [|b l]; [reflexivity|].
  change (last (b :: l) d = last (b :: l) z). apply last_default. discriminate.
Qed.

Lemma reachable_walk adj x y :
  reachable adj x y <-> exists l, walk adj (x :: l) /\ last l x = y.
Proof.
  unfold reachable. split.
  - intros R. apply clos_rt_rt1n in R.
    induction R as [x | x z y E _ [l [W L]]].
    + exists []. split; [exact Logic.I|reflexivity].
    + exists (z :: l). split; [split; assumption|].
      now rewrite last_cons.
  - intros [l [W L]]. revert x W L.
    induction l as [|z l IH]; intros x W L.
    + simpl in L. subst y. apply rt_refl.
    + destruct W as [E W]. rewrite last_cons in L.
      eapply rt_trans; [apply rt_step; exact E|now apply IH].
Qed.

(** X6. [_reachable] answers true exactly when some walk leads from
    [root] to [sink]: a list of nodes, each among the successors recorded
    for the one before it.  The empty walk counts, so a node reaches
    itself even when the adjacency does not know it; the adjacency may
    hold cycles, the search still ends. *)
Theorem reachable_iff_path adj root sink :
  _reachable adj root sink = true <->
  exists l, walk adj (root :: l) /\ last l root = sink.
Proof.
  rewrite reachable_correct. apply reachable_walk.
Qed.

(** ** [verify]: the topology gate *)

Lemma topo_rejection_inv env anchors d :
  verify_gates env anchors = Returned (Some (false, REASON_TOPO, d)) ->
  exists tcc adj nodeset,
    get_or_none env "tcc" = VDict tcc /\
    _build_graph tcc = Returned (adj, nodeset) /\
    match nonempty_str (get_or_none tcc "root"),
          nonempty_str (get_or_none tcc "receipt") with
    | Some root, Some receipt =>
        _is_dag adj nodeset = Returned false \/
        _reachable adj root receipt = false
    | _, _ => True
    end.
Proof.
  intros H. gates_inv H; reasons; try discriminate;
    do 3 eexists; (split; [reflexivity|]); (split; [eassumption|]);
    repeat match goal with
           | E : nonempty_str _ = _ |- _ => rewrite E; clear E
           end;
    auto.
  - left. match goal with
          | N : negb ?b = true |- _ => destruct b; [discriminate|]
          end. assumption.
  - right. now apply negb_true_iff.
Qed.

(** X11. The topology gate of [verify], on an envelope that passes the
    schema checks and lists mappings as nodes and edges: a [root] or a
    [receipt] that is not a non-empty string is rejected as missing;
    otherwise a directed cycle anywhere among the edges is rejected as
    not a DAG; otherwise a receipt no walk from the root leads to is
    rejected as not reachable; otherwise no rejection of [verify] carries
    the topology reason. *)
Theorem topology_gate_outcome env anchors tcc :
  schema_ok env = true ->
  dict_get env "tcc" = Some (VDict tcc) ->
  list_of_dicts (get_or_none tcc "nodes") = true ->
  list_of_dicts (get_or_none tcc "edges") = true ->
  match nonempty_str (get_or_none tcc "root"),
        nonempty_str (get_or_none tcc "receipt") with
  | Some root, Some receipt =>
      (~ tcc_acyclic (entries (get_or_none tcc "edges")) ->
       verify env anchors
       = Returned (false, REASON_TOPO, debug "topology" "not a DAG")) /\
      (tcc_acyclic (entries (get_or_none tcc "edges")) ->
       ~ tcc_reachable (entries (get_or_none tcc "edges")) root receipt ->
       verify env anchors
       = Returned (false, REASON_TOPO,
                   debug "topology" "receipt not reachable from root")) /\
      (tcc_acyclic (entries (get_or_none tcc "edges")) ->
       tcc_reachable (entries (get_or_none tcc "edges")) root receipt ->
       forall d, verify env anchors <> Returned (false, REASON_TOPO, d))
  | _, _ =>
      verify env anchors
      = Returned (false, REASON_TOPO, debug "topology" "missing root/receipt")
  end.
Proof.
  intros Sc Dt Ln Le.
  apply schema_ok_spec in Sc.
  destruct Sc as (pd & est & tcc' & B & Pd & Ac & Es & El & Tc).
  assert (tcc' = tcc) as ->.
  { unfold get_or_none in Tc. rewrite Dt in Tc. now injection Tc. }
  destruct (basic_schema_keys env tcc B Tc) as (_ & Tn & Te).
  rewrite <- Tn in Ln. rewrite <- Te in Le |- *.
  destruct (iter_entries _ Ln) as [In_ Dn].
  destruct (iter_entries _ Le) as [Ie De].
  destruct (build_graph_total tcc _ _ In_ Ie Dn De) as [[adj nodeset] Bg].
  pose proof (build_graph_spec _ _ _ Bg) as (ns & es & _ & Ie' & _ & De' & G & A & _).
  pose proof (list_of_dicts_entries _ _ Ie' De') as <-.
  pose proof (graph_edges_agree adj _ A) as EQ.
  destruct (is_dag_correct adj nodeset G) as (b & D & A1).
  assert (A2 : acyclic adj <-> tcc_acyclic es).
  { unfold acyclic, tcc_acyclic.
    split; intros H x C; apply (H x); now apply (clos_trans_equiv _ _ EQ). }
  assert (R2 : forall root receipt,
             _reachable adj root receipt = true <-> tcc_reachable es root receipt).
  { intros root receipt. rewrite reachable_correct.
    apply (clos_refl_trans_equiv _ _ EQ). }
  destruct (nonempty_str (get_or_none tcc "root")) as [root|] eqn:Rt;
    [destruct (nonempty_str (get_or_none tcc "receipt")) as [receipt|] eqn:Rc|].
  - split; [|split].
    + intros Cy. assert (b = false) as ->.
      { destruct b; [|reflexivity]. exfalso. apply Cy, A2, A1. reflexivity. }
      unfold verify, verify_gates.
      rewrite B, Pd, Ac, Es, El, Tc, Bg. cbn [bind negb].
      rewrite Rt, Rc, D. reflexivity.
    + intros Cy Nr. assert (b = true) as ->.
      { apply A1, A2, Cy. }
      assert (Rf : _reachable adj root receipt = false).
      { destruct (_reachable adj root receipt) eqn:Rr; [|reflexivity].
        exfalso. apply Nr, R2, Rr. }
      unfold verify, verify_gates.
      rewrite B, Pd, Ac, Es, El, Tc, Bg. cbn [bind negb].
      rewrite Rt, Rc, D. cbn [bind negb]. rewrite Rf. reflexivity.
    + intros Cy Re d H.
      apply verify_from_gates in H; [|discriminate].
      apply topo_rejection_inv in H.
      destruct H as (tcc1 & adj1 & nodeset1 & Tc1 & Bg1 & H).
      rewrite Tc in Tc1. injection Tc1 as <-.
      rewrite Bg in Bg1. injection Bg1 as <- <-.
      rewrite Rt, Rc in H. destruct H as [H | H].
      * rewrite D in H. injection H as ->.
        assert (false = true) by (apply A1, A2, Cy). discriminate.
      * apply R2 in Re. congruence.
  - unfold verify, verify_gates.
    rewrite B, Pd, Ac, Es, El, Tc, Bg. cbn [bind negb].
    rewrite Rt, Rc. reflexivity.
  - unfold verify, verify_gates.
    rewrite B, Pd, Ac, Es, El, Tc, Bg. cbn [bind negb].
    rewrite Rt. reflexivity.
Qed.

Lemma topology_gate_outcome_witness :
  verify (env_cycle (VList [])) sample_anchors
  = Returned (false, REASON_TOPO, debug "topology" "not a DAG").
Proof.
  refine (proj1 (topology_gate_outcome (env_cycle (VList [])) sample_anchors
                   [("root", VStr "A"); ("receipt", VStr "B");
                    ("nodes", VList []);
                    ("edges", VList [sample_edge "A" "B"; sample_edge "B" "A"])]
                   eq_refl eq_refl eq_refl eq_refl) _).
  intros Ac. apply (Ac "A").
  apply t_trans with (y := "B"); apply t_step; vm_compute; auto.
Defined.

(** ** [verify]: what it raises, and when it cannot *)










(** ** Instances of the properties of the gate chain *)

Lemma is_dag_iff_acyclic_witness :
  let tcc := [("nodes", VList []);
              ("edges", VList [sample_edge "A" "B"; sample_edge "B" "A"])] in
  let adj := [("A", ["B"]); ("B", ["A"])] in
  exists b, _is_dag adj ["A"; "B"] = Returned b /\
            (b = true <-> acyclic adj) /\
            (acyclic adj <-> tcc_acyclic (entries (tcc_list tcc "edges"))).
Proof.
  intros tcc adj. apply (is_dag_iff_acyclic tcc). reflexivity.
Defined.

Lemma verify_outcome_shape_witness :
  let dbg := debug "topology" "not a DAG" in
  In REASON_TOPO ("OK" :: REASON) /\
  (false = true <-> REASON_TOPO = "OK") /\
  (exists stage, dict_get dbg "stage" = Some (VStr stage)) /\
  (false = false ->
   (exists detail, dict_get dbg "detail" = Some (VStr detail)) \/
   (_basic_schema_ok (env_cycle (VList [])) = false /\
    dbg = [("stage", VStr "schema")])).
Proof.
  intros dbg.
  apply (verify_outcome_shape (env_cycle (VList [])) sample_anchors).
  vm_compute. reflexivity.
Defined.


(** ** The witness gate and [_auto_fill_witness] *)




Lemma witness_hash_is_not_the_sentinel d :
  String.eqb "AUTO" (compute_witness_hash d) = false.
Proof.
  pose proof (sha256_hex_is_hexdigest (_canonical_json_bytes (VDict d))) as H.
  unfold is_hexdigest in H. apply andb_true_iff in H. destruct H as [L _].
  apply Nat.eqb_eq in L. fold (compute_witness_hash d) in L.
  destruct (String.eqb "AUTO" (compute_witness_hash d)) eqn:E; [|reflexivity].
  apply String.eqb_eq in E. rewrite <- E in L. discriminate.
Qed.



(** X15. [_auto_fill_witness] touches [witness_hash] only: it keeps the
    keys of the envelope and their order, and every other field; what it
    leaves in [witness_hash] is never the sentinel, so filling twice is
    filling once. *)
Theorem auto_fill_idempotent env :
  _auto_fill_witness (_auto_fill_witness env) = _auto_fill_witness env /\
  keys (_auto_fill_witness env) = keys env /\
  dict_pop (_auto_fill_witness env) "witness_hash"
  = dict_pop env "witness_hash" /\
  get_or_none (_auto_fill_witness env) "witness_hash" <> VStr "AUTO".
Proof.
  destruct (py_eq (get_or_none env "witness_hash") (VStr "AUTO")) eqn:A.
  - assert (F : _auto_fill_witness env
                = dict_set env "witness_hash"
                    (VStr (compute_witness_hash (dict_pop env "witness_hash"))))
      by (unfold _auto_fill_witness; now rewrite A).
    assert (G : get_or_none
                  (dict_set env "witness_hash"
                     (VStr (compute_witness_hash (dict_pop env "witness_hash"))))
                  "witness_hash"
                = VStr (compute_witness_hash (dict_pop env "witness_hash"))).
    { unfold get_or_none. now rewrite dict_get_set. }
    rewrite !F. split; [|split; [|split]].
    + unfold _auto_fill_witness. rewrite G. cbn [py_eq].
      rewrite String.eqb_sym, witness_hash_is_not_the_sentinel. reflexivity.
    + apply keys_dict_set_present. apply dict_get_Some_key.
      apply py_eq_VStr in A. unfold get_or_none in A.
      destruct (dict_get env "witness_hash"); [eauto|discriminate].
    + apply dict_pop_set.
    + rewrite G. intros [= E].
      pose proof (witness_hash_is_not_the_sentinel
                    (dict_pop env "witness_hash")) as N.
      rewrite E, String.eqb_refl in N. discriminate.
  - assert (F : _auto_fill_witness env = env)
      by (unfold _auto_fill_witness; now rewrite A).
    rewrite !F. split; [|split; [|split]]; try reflexivity.
    intros E. rewrite E in A. discriminate.
Qed.

(** ** [verify]: stages and reasons *)

(** The stage of a diagnostic. *)
Lemma verify_gates_stage env anchors reason d :
  verify_gates env anchors = Returned (Some (false, reason, d)) ->
  exists stage,
    dict_get d "stage" = Some (VStr stage) /\
    In (reason, stage)
       [(REASON_SCHEMA, "schema"); (REASON_TOPO, "topology");
        (REASON_TARGET, "targetref"); (REASON_SCHEMA, "anchor");
        (REASON_ANCHOR_C, "anchor_const"); (REASON_ANCHOR_E, "anchor_energy");
        (REASON_SCHEMA, "gatevector"); (REASON_COVER, "coverage");
        (REASON_SCHEMA, "budget"); (REASON_BUDGET, "budget")] /\
    dict_get d "detail" <> Some (VStr "tcc not dict").
Proof.
  intros H. gates_inv H; try discriminate; injection H as <- <-;
    try (eexists; split; [reflexivity|]; split;
         [simpl; tauto|discriminate]).
  all: exfalso.
  all: match goal with
       | B : negb (_basic_schema_ok ?e) = false,
         T : get_or_none ?e "tcc" = _ |- _ =>
           apply negb_false in B; apply basic_schema_ok_fields in B;
           destruct B as [_ [tcc [Dt _]]];
           unfold get_or_none in T; rewrite Dt in T; discriminate
       end.
Qed.

(** X16. Which reason goes with which stage: a rejection of [verify]
    carries one of eleven pairs of reason and stage; [schema_invalid] is
    also the reason of the stages anchor, gatevector and budget (a wrong
    node count, a [gate_outputs] that is no list, a missing budget).  The
    detail is never the one of the test that [tcc] is a mapping: the
    check of the required fields has already rejected such an
    envelope. *)
Theorem verify_stage_reason_table env anchors reason d :
  verify env anchors = Returned (false, reason, d) ->
  exists stage,
    dict_get d "stage" = Some (VStr stage) /\
    In (reason, stage)
       [(REASON_SCHEMA, "schema"); (REASON_TOPO, "topology");
        (REASON_TARGET, "targetref"); (REASON_SCHEMA, "anchor");
        (REASON_ANCHOR_C, "anchor_const"); (REASON_ANCHOR_E, "anchor_energy");
        (REASON_SCHEMA, "gatevector"); (REASON_COVER, "coverage");
        (REASON_SCHEMA, "budget"); (REASON_BUDGET, "budget");
        (REASON_WITNESS, "witness")] /\
    dict_get d "detail" <> Some (VStr "tcc not dict").
Proof.
  unfold verify. intros H.
  destruct (verify_gates env anchors) as [[[[ok r] d']|]|e] eqn:E;
    cbn [bind] in H; [| |discriminate].
  - injection H as -> -> ->.
    destruct (verify_gates_stage _ _ _ _ E) as (stage & S & I & N).
    exists stage. split; [exact S|]. split; [|exact N].
    simpl in I |- *. tauto.
  - unfold witness_gate in H. destruct (negb _); [|discriminate].
    injection H as <- <-. exists "witness".
    split; [reflexivity|]. split; [simpl; tauto|discriminate].
Qed.

Lemma verify_stage_reason_table_witness :
  exists stage,
    dict_get (debug "topology" "not a DAG") "stage" = Some (VStr stage) /\
    In (REASON_TOPO, stage)
       [(REASON_SCHEMA, "schema"); (REASON_TOPO, "topology");
        (REASON_TARGET, "targetref"); (REASON_SCHEMA, "anchor");
        (REASON_ANCHOR_C, "anchor_const"); (REASON_ANCHOR_E, "anchor_energy");
        (REASON_SCHEMA, "gatevector"); (REASON_COVER, "coverage");
        (REASON_SCHEMA, "budget"); (REASON_BUDGET, "budget");
        (REASON_WITNESS, "witness")] /\
    dict_get (debug "topology" "not a DAG") "detail"
    <> Some (VStr "tcc not dict").
Proof.
  apply (verify_stage_reason_table (env_cycle (VList [])) sample_anchors).
  vm_compute. reflexivity.
Defined.

(** ** The canonical encoding is unambiguous *)

Lemma sapp_assoc (a b c : string) : ((a ++ b) ++ c = a ++ (b ++ c))%string.
Proof. induction a as [|x a IH]; simpl; [reflexivity|now rewrite IH]. Qed.

Lemma unescape_escape c x :
  unescape_char (escape_char c ++ x) = Some (c, x).
Proof.
  destruct c as [[] [] [] [] [] [] [] []]; reflexivity.
Qed.

Lemma escape_char_head c :
  exists h t, escape_char c = String h t /\ h <> dquote.
Proof.
  destruct c as [[] [] [] [] [] [] [] []];
    (eexists; eexists; split; [reflexivity|discriminate]).
Qed.

Lemma escape_unambiguous s :
  forall s' r r',
    (escape s ++ String dquote r = escape s' ++ String dquote r')%string ->
    s = s' /\ r = r'.
Proof.
  induction s as [|a s IH]; intros [|a' s'] r r' E; cbn [escape] in E.
  - simpl in E. injection E as <-. auto.
  - exfalso. destruct (escape_char_head a') as (h & t & Eh & N).
    rewrite Eh in E. simpl in E. injection E as <-. now apply N.
  - exfalso. destruct (escape_char_head a) as (h & t & Eh & N).
    rewrite Eh in E. simpl in E. injection E as ->. now apply N.
  - rewrite !sapp_assoc in E.
    apply (f_equal unescape_char) in E. rewrite !unescape_escape in E.
    injection E as <- E. apply IH in E. destruct E as [<- <-]. auto.
Qed.

Lemma json_string_unambiguous s s' r r' :
  (json_string s ++ r = json_string s' ++ r')%string -> s = s' /\ r = r'.
Proof.
  unfold json_string, str1. cbn [append]. intros [= E].
  rewrite !sapp_assoc in E. cbn [append] in E.
  now apply escape_unambiguous.
Qed.

(** Numerals *)

Lemma uint_chars d c :
  In c (list_ascii_of_string (NilEmpty.string_of_uint d)) ->
  is_num_char c = true.
Proof.
  induction d; simpl; try tauto;
    (intros [<- | I]; [reflexivity|now apply IHd]).
Qed.

Lemma nilzero_uint d :
  d <> Decimal.Nil -> NilZero.string_of_uint d = NilEmpty.string_of_uint d.
Proof. destruct d; [contradiction|reflexivity..]. Qed.

Lemma str_of_Z_chars z c :
  In c (list_ascii_of_string (str_of_Z z)) -> is_num_char c = true.
Proof.
  unfold str_of_Z. destruct z as [|p|p]; cbn [Z.to_int NilZero.string_of_int].
  - simpl. intros [<- | []]. reflexivity.
  - rewrite nilzero_uint by apply DecimalPos.Unsigned.to_uint_nonnil.
    apply uint_chars.
  - rewrite nilzero_uint by apply DecimalPos.Unsigned.to_uint_nonnil.
    simpl. intros [<- | I]; [reflexivity|]. eapply uint_chars. exact I.
Qed.

Lemma str_of_Z_inj z z' : str_of_Z z = str_of_Z z' -> z = z'.
Proof.
  unfold str_of_Z. intros E.
  assert (N : forall x, Z.to_int x <> Decimal.Pos Decimal.Nil /\
                        Z.to_int x <> Decimal.Neg Decimal.Nil).
  { intros [|p|p]; simpl; split; try discriminate; intros [= H];
      now apply DecimalPos.Unsigned.to_uint_nonnil in H. }
  apply (f_equal NilZero.int_of_string) in E.
  rewrite !NilZero.isi in E by apply N.
  injection E as E. now apply DecimalZ.to_int_inj.
Qed.

Lemma str_of_Z_head z :
  exists h t, str_of_Z z = String h t /\ is_num_char h = true.
Proof.
  destruct (str_of_Z z) as [|h t] eqn:E.
  - exfalso. unfold str_of_Z in E.
    destruct z as [|p|p]; cbn [Z.to_int NilZero.string_of_int] in E;
      try discriminate.
    rewrite nilzero_uint in E by apply DecimalPos.Unsigned.to_uint_nonnil.
    pose proof (DecimalPos.Unsigned.to_uint_nonnil p) as N.
    destruct (Pos.to_uint p); try discriminate. now apply N.
  - exists h, t. split; [reflexivity|].
    apply (str_of_Z_chars z). rewrite E. now left.
Qed.

Lemma num_char_not_stop c : is_num_char c = true -> is_stop c = false.
Proof.
  unfold is_num_char. cbn [list_ascii_of_string existsb].
  rewrite !orb_true_iff.
  intros H. repeat (destruct H as [H | H];
                    [apply Ascii.eqb_eq in H; subst; reflexivity|]).
  discriminate.
Qed.

(** Two tokens without a stop character, each followed by a stop or by
    nothing, match only as wholes. *)
Lemma token_split s :
  forall s' r r',
    (forall c, In c (list_ascii_of_string s) -> is_stop c = false) ->
    (forall c, In c (list_ascii_of_string s') -> is_stop c = false) ->
    stops r -> stops r' ->
    (s ++ r = s' ++ r')%string -> s = s' /\ r = r'.
Proof.
  induction s as [|a s IH]; intros [|a' s'] r r' F F' S S' E; simpl in E.
  - auto.
  - exfalso. subst r. simpl in S.
    rewrite (F' a') in S by now left. discriminate.
  - exfalso. subst r'. simpl in S'.
    rewrite (F a) in S' by now left. discriminate.
  - injection E as <- E.
    destruct (IH s' r r') as [<- <-]; auto.
    + intros c I. apply F. now right.
    + intros c I. apply F'. now right.
Qed.

Lemma dumps_class v :
  exists h t, dumps v = String h t /\
              head_class h = value_class v /\ is_stop h = false.
Proof.
  destruct v as [|[|]|z|s|l|d]; cbn [dumps];
    try (eexists; eexists; split; [reflexivity|split; reflexivity]).
  destruct (str_of_Z_head z) as (h & t & E & N). exists h, t.
  split; [exact E|]. split; [|now apply num_char_not_stop].
  unfold head_class. rewrite N.
  unfold is_num_char in N. cbn [list_ascii_of_string existsb] in N.
  rewrite !orb_true_iff in N.
  repeat (destruct N as [N | N];
          [apply Ascii.eqb_eq in N; subst; reflexivity|]).
  discriminate.
Qed.

Lemma concat_seq items close r :
  ((String.concat "," items ++ String close "") ++ r)%string
  = seq_enc items close r.
Proof.
  destruct items as [|x items]; [reflexivity|].
  cbn [seq_enc]. revert x.
  induction items as [|y items IH]; intros x.
  - cbn [String.concat seq_rest]. now rewrite sapp_assoc.
  - change (String.concat "," (x :: y :: items))
      with (x ++ "," ++ String.concat "," (y :: items))%string.
    rewrite !sapp_assoc. f_equal. cbn [append seq_rest]. f_equal.
    rewrite <- IH. now rewrite sapp_assoc.
Qed.

Lemma seq_rest_stops items close r :
  is_stop close = true -> stops (seq_rest items close r).
Proof. intros C. destruct items; simpl; [exact C|reflexivity]. Qed.

Section Sequences.

Variables A : Type.
Variable enc : A -> string.
Variable ok : A -> Prop.
Variable rel : A -> A -> Prop.
Variable close : ascii.
Hypothesis close_stop : is_stop close = true.
Hypothesis close_not_comma : close <> ","%char.
Hypothesis enc_head :
  forall y, exists h t, enc y = String h t /\ is_stop h = false.

Lemma seq_rest_unambiguous l1 :
  Forall (item_unambiguous enc ok rel) l1 ->
  forall l2 r r',
    Forall ok l2 ->
    seq_rest (map enc l1) close r = seq_rest (map enc l2) close r' ->
    Forall2 rel l1 l2 /\ r = r'.
Proof.
  induction 1 as [|x l1 Hx _ IH]; intros [|y l2] r r' O E;
    cbn [map seq_rest] in E.
  - injection E as <-. auto.
  - exfalso. injection E as E _. now apply close_not_comma.
  - exfalso. injection E as E _. now apply close_not_comma.
  - injection E as E. inversion O as [|? ? Oy O']; subst.
    apply Hx in E; auto using seq_rest_stops.
    destruct E as [R E]. apply IH in E; [|exact O'].
    destruct E as [F <-]. auto.
Qed.

Lemma seq_enc_unambiguous l1 l2 r r' :
  Forall (item_unambiguous enc ok rel) l1 -> Forall ok l2 ->
  seq_enc (map enc l1) close r = seq_enc (map enc l2) close r' ->
  Forall2 rel l1 l2 /\ r = r'.
Proof.
  intros U O E. destruct l1 as [|x l1], l2 as [|y l2]; cbn [map seq_enc] in E.
  - injection E as <-. auto.
  - exfalso. destruct (enc_head y) as (h & t & Eh & N).
    rewrite Eh in E. simpl in E. injection E as <- _. congruence.
  - exfalso. destruct (enc_head x) as (h & t & Eh & N).
    rewrite Eh in E. simpl in E. injection E as -> _. congruence.
  - inversion U as [|? ? Hx U']; subst. inversion O as [|? ? Oy O']; subst.
    apply Hx in E; auto using seq_rest_stops.
    destruct E as [R E]. apply seq_rest_unambiguous in E; auto.
    destruct E as [F <-]. auto.
Qed.

End Sequences.

Lemma Forall2_In_l {A B : Type} (R : A -> B -> Prop) l1 l2 x :
  Forall2 R l1 l2 -> In x l1 -> exists y, In y l2 /\ R x y.
Proof.
  induction 1 as [|a b l1 l2 Rab _ IH]; intros I; [contradiction|].
  destruct I as [<- | I].
  - exists b. split; [now left|exact Rab].
  - destruct (IH I) as [y [Iy Ry]]. exists y. split; [now right|exact Ry].
Qed.

Lemma json_item_head (c : string * value) :
  exists h t, json_item (fst c, dumps (snd c)) = String h t /\
              is_stop h = false.
Proof.
  unfold json_item, json_string. cbn [fst snd append].
  eexists. eexists. split; reflexivity.
Qed.

Lemma dumps_head v :
  exists h t, dumps v = String h t /\ is_stop h = false.
Proof. destruct (dumps_class v) as (h & t & E & _ & N). eauto. Qed.

(** An encoded value followed by a stop or by nothing is read back in one
    way only. *)
Lemma dumps_unambiguous a :
  forall b r r',
    wf_value b = true -> stops r -> stops r' ->
    (dumps a ++ r = dumps b ++ r')%string ->
    struct_eq a b = true /\ r = r'.
Proof.
  induction a as [| x | x | s | l1 IH | d1 IH] using value_ind;
    intros b r r' Wb Sr Sr' E.
  2: destruct x.
  all: assert (C : value_class b = value_class _)
      by (destruct (dumps_class b) as (hb & tb & Eb & Cb & _);
          rewrite <- Cb;
          match type of E with
          | (dumps ?a ++ _ = _)%string =>
              destruct (dumps_class a) as (ha & ta & Ea & Ca & _);
              rewrite <- Ca; rewrite Ea, Eb in E
          end;
          simpl in E; now injection E as <-).
  all: destruct b as [|[|]|y|t|l2|d2]; try discriminate C; clear C.
  - simpl in E. injection E as <-. auto.
  - simpl in E. injection E as <-. auto.
  - simpl in E. injection E as <-. auto.
  - cbn [dumps] in E. apply token_split in E; auto.
    + destruct E as [E <-]. apply str_of_Z_inj in E. subst.
      cbn [struct_eq]. now rewrite Z.eqb_refl.
    + intros c I. eapply num_char_not_stop, str_of_Z_chars. exact I.
    + intros c I. eapply num_char_not_stop, str_of_Z_chars. exact I.
  - cbn [dumps] in E. apply json_string_unambiguous in E.
    destruct E as [<- <-]. cbn [struct_eq]. now rewrite String.eqb_refl.
  - cbn [dumps] in E. cbn [append] in E. injection E as E.
    change "]" with (String "]" "") in E.
    rewrite !concat_seq in E.
    apply (seq_enc_unambiguous value dumps (fun y => wf_value y = true)
             (fun x y => struct_eq x y = true)) in E;
      auto using dumps_head; try discriminate.
    + destruct E as [F <-]. split; [|reflexivity]. now apply struct_eq_list.
    + apply Forall_forall. apply wf_value_list. exact Wb.
  - rewrite !dumps_dict in E. cbn [append] in E. injection E as E.
    change "}" with (String "}" "") in E.
    rewrite !sort_items_map, !map_map, !concat_seq in E.
    apply wf_value_dict in Wb. destruct Wb as [N2 W2].
    apply (seq_enc_unambiguous (string * value)
             (fun c => json_item (fst c, dumps (snd c)))
             (fun c => wf_value (snd c) = true)
             (fun c c' => fst c = fst c' /\ struct_eq (snd c) (snd c') = true))
      in E; auto using json_item_head; try discriminate.
    + destruct E as [F <-]. split; [|reflexivity].
      apply struct_eq_dict. split.
      * rewrite (Permutation_length (sort_items_perm d1)).
        rewrite (Permutation_length (sort_items_perm d2)).
        eapply Forall2_length. exact F.
      * intros k v I.
        assert (I' : In (k, v) (sort_items d1))
          by (eapply Permutation_in; [apply sort_items_perm|exact I]).
        destruct (Forall2_In_l _ _ _ _ F I') as [[k' w] [Iw [Ek Ew]]].
        cbn [fst snd] in Ek, Ew. subst k'.
        exists w. split; [|exact Ew].
        apply dict_get_first; [exact N2|].
        eapply Permutation_in; [apply Permutation_sym, sort_items_perm|].
        exact Iw.
    + eapply Permutation_Forall; [apply sort_items_perm|].
      apply Forall_forall. intros [k v] I.
      rewrite Forall_forall in IH. specialize (IH (k, v) I). cbn [snd] in IH.
      intros [k' w] q q' Ow Sq Sq' Eq. cbn [fst snd] in *.
      unfold json_item in Eq. cbn [fst snd] in Eq.
      rewrite !sapp_assoc in Eq.
      apply json_string_unambiguous in Eq. destruct Eq as [<- Eq].
      cbn [append] in Eq. injection Eq as Eq.
      apply IH in Eq; auto. destruct Eq as [S <-]. auto.
    + eapply Permutation_Forall; [apply sort_items_perm|].
      apply Forall_forall. intros [k v] I. cbn [snd]. eapply W2. exact I.
Qed.

(** X17. The canonical encoding determines the value: two values, as
    Python holds them, have the same canonical bytes exactly when they
    are equal in structure and content, up to the insertion order of the
    keys of their dicts.  So two envelopes with the same witness hash
    either are the same document or collide under SHA-256. *)
Theorem canonical_json_injective a b :
  wf_value a = true -> wf_value b = true ->
  (_canonical_json_bytes a = _canonical_json_bytes b <->
   struct_eq a b = true).
Proof.
  intros Wa Wb. unfold _canonical_json_bytes. split.
  - intros E.
    destruct (dumps_unambiguous a b "" "" Wb Logic.I Logic.I) as [S _]; auto.
    now rewrite E.
  - now apply dumps_struct_eq.
Qed.

Lemma canonical_json_injective_witness :
  let a := VDict [("a", VInt 1); ("b", VList [VStr "x"; VNone])] in
  let b := VDict [("b", VList [VStr "x"; VNone]); ("a", VInt 1)] in
  _canonical_json_bytes a = _canonical_json_bytes b <-> struct_eq a b = true.
Proof.
  intros a b. apply canonical_json_injective; reflexivity.
Defined.

(** ** The encoders write no control character *)

Lemma all_printable_app s t :
  all_printable (s ++ t) = all_printable s && all_printable t.
Proof. unfold all_printable. now rewrite list_ascii_app, forallb_app. Qed.

Lemma escape_char_printable c : all_printable (escape_char c) = true.
Proof. destruct c as [[] [] [] [] [] [] [] []]; reflexivity. Qed.

Lemma escape_printable s : all_printable (escape s) = true.
Proof.
  induction s as [|c s IH]; [reflexivity|].
  cbn [escape]. now rewrite all_printable_app, escape_char_printable, IH.
Qed.

Lemma json_string_printable s : all_printable (json_string s) = true.
Proof.
  unfold json_string. change (String dquote ?x) with (str1 dquote ++ x)%string.
  now rewrite !all_printable_app, escape_printable.
Qed.

Lemma num_char_printable c : is_num_char c = true -> printable c = true.
Proof.
  unfold is_num_char. cbn [list_ascii_of_string existsb].
  rewrite !orb_true_iff.
  intros H. repeat (destruct H as [H | H];
                    [apply Ascii.eqb_eq in H; subst; reflexivity|]).
  discriminate.
Qed.

Lemma str_of_Z_printable z : all_printable (str_of_Z z) = true.
Proof.
  apply forallb_forall. intros c I.
  now apply num_char_printable, (str_of_Z_chars z).
Qed.

Lemma concat_printable sep l :
  all_printable sep = true ->
  Forall (fun s => all_printable s = true) l ->
  all_printable (String.concat sep l) = true.
Proof.
  intros S F. induction F as [|x l Hx F IH]; [reflexivity|].
  destruct l as [|y l]; [exact Hx|].
  change (String.concat sep (x :: y :: l))
    with (x ++ sep ++ String.concat sep (y :: l))%string.
  now rewrite !all_printable_app, Hx, S, IH.
Qed.

Lemma dumps_default_printable v : all_printable (dumps_default v) = true.
Proof.
  induction v as [| [|] | z | s | l IH | d IH] using value_ind;
    try reflexivity.
  - apply str_of_Z_printable.
  - apply json_string_printable.
  - cbn [dumps_default]. rewrite !all_printable_app.
    rewrite concat_printable; [reflexivity|reflexivity|].
    apply Forall_map. exact IH.
  - cbn [dumps_default]. rewrite !all_printable_app.
    rewrite concat_printable; [reflexivity|reflexivity|].
    apply Forall_map. eapply Forall_impl; [|exact IH].
    intros [k x] H. cbn [snd] in H.
    now rewrite !all_printable_app, json_string_printable, H.
Qed.

Lemma dumps_printable v : all_printable (dumps v) = true.
Proof.
  induction v as [| [|] | z | s | l IH | d IH] using value_ind;
    try reflexivity.
  - apply str_of_Z_printable.
  - apply json_string_printable.
  - cbn [dumps]. rewrite !all_printable_app.
    rewrite concat_printable; [reflexivity|reflexivity|].
    apply Forall_map. exact IH.
  - rewrite dumps_dict, !all_printable_app.
    rewrite concat_printable; [reflexivity|reflexivity|].
    apply Forall_map.
    eapply Permutation_Forall; [apply sort_items_perm|].
    apply Forall_map. eapply Forall_impl; [|exact IH].
    intros [k x] H. cbn [fst snd] in *. unfold json_item. cbn [fst snd].
    now rewrite !all_printable_app, json_string_printable, H.
Qed.

Lemma count_lines_app s t :
  count_lines (s ++ t) = (count_lines s + count_lines t)%nat.
Proof.
  induction s as [|c s IH]; [reflexivity|].
  cbn [append count_lines]. rewrite IH. lia.
Qed.

Lemma printable_no_line s : all_printable s = true -> count_lines s = O.
Proof.
  unfold all_printable. induction s as [|c s IH]; [reflexivity|].
  cbn [list_ascii_of_string forallb count_lines].
  intros H. apply andb_true_iff in H. destruct H as [P H].
  rewrite (IH H).
  destruct (Ascii.eqb c newline) eqn:E; [|reflexivity].
  apply Ascii.eqb_eq in E. subst. discriminate.
Qed.

(** X18. The canonical bytes of a value hold no control character, in
    particular no line break: every control character of a string is
    written as an escape, and the encoder puts no white space between the
    tokens. *)
Theorem canonical_json_has_no_control_character v c :
  In c (list_ascii_of_string (_canonical_json_bytes v)) ->
  (32 <= N_of_ascii c)%N.
Proof.
  intros I. pose proof (dumps_printable v) as P.
  unfold all_printable in P. rewrite forallb_forall in P.
  specialize (P c I). unfold printable in P.
  apply negb_true_iff, N.ltb_ge in P. exact P.
Qed.

Lemma canonical_json_has_no_control_character_witness :
  (32 <= N_of_ascii "\"%char)%N.
Proof.
  apply (canonical_json_has_no_control_character
           (VStr (String newline EmptyString))).
  vm_compute. tauto.
Defined.

(** ** [_append_jsonl] and [_read_bytes] *)

Lemma read_set fs p data : _read_bytes (dict_set fs p data) p = data.
Proof.
  unfold _read_bytes, dict_mem. now rewrite dict_get_set.
Qed.

Lemma read_set_other fs p q data :
  q <> p -> _read_bytes (dict_set fs p data) q = _read_bytes fs q.
Proof.
  intros N. unfold _read_bytes, dict_mem. now rewrite dict_get_set_other.
Qed.

Lemma read_content fs p :
  _read_bytes fs p = match dict_get fs p with
                     | Some content => content
                     | None => EmptyString
                     end.
Proof. unfold _read_bytes, dict_mem. now destruct (dict_get fs p). Qed.

Lemma append_jsonl_content fs path obj :
  _read_bytes (_append_jsonl fs path obj) path
  = (_read_bytes fs path ++ dumps_default (VDict obj)
       ++ String newline EmptyString)%string.
Proof. unfold _append_jsonl. now rewrite read_set, <- read_content. Qed.

Lemma append_jsonl_lines fs path obj :
  count_lines (_read_bytes (_append_jsonl fs path obj) path)
  = S (count_lines (_read_bytes fs path)).
Proof.
  rewrite append_jsonl_content, !count_lines_app.
  rewrite (printable_no_line _ (dumps_default_printable (VDict obj))).
  cbn [count_lines]. rewrite Ascii.eqb_refl. lia.
Qed.

Lemma append_jsonl_other fs path obj q :
  q <> path -> dict_get (_append_jsonl fs path obj) q = dict_get fs q.
Proof. intros N. unfold _append_jsonl. now apply dict_get_set_other. Qed.

(** X19. [_append_jsonl] adds exactly one line to the file: the record,
    which holds no line break of its own, and the line end.  A missing
    file is created, what the file held stays in front, and no other
    file changes. *)
Theorem append_jsonl_adds_one_line fs path obj :
  _read_bytes (_append_jsonl fs path obj) path
  = (_read_bytes fs path ++ dumps_default (VDict obj)
       ++ String newline EmptyString)%string /\
  count_lines (_read_bytes (_append_jsonl fs path obj) path)
  = S (count_lines (_read_bytes fs path)) /\
  (forall q, q <> path ->
             dict_get (_append_jsonl fs path obj) q = dict_get fs q).
Proof.
  split; [apply append_jsonl_content|].
  split; [apply append_jsonl_lines|].
  intros q. apply append_jsonl_other.
Qed.

(** ** The body of the runner's loop *)






(** ** Texts that UTF-8 can encode *)

Lemma head_high_app a b :
  head_high (a ++ b) = match a with
                       | EmptyString => head_high b
                       | _ => head_high a
                       end.
Proof. destruct a; reflexivity. Qed.

Lemma last_lead_cons c c' s :
  last_lead (String c (String c' s)) = last_lead (String c' s).
Proof. reflexivity. Qed.

Lemma last_lead_app a b :
  last_lead (a ++ b) = match b with
                       | EmptyString => last_lead a
                       | _ => last_lead b
                       end.
Proof.
  induction a as [|c a IH].
  - destruct b; reflexivity.
  - destruct a as [|c' a].
    + destruct b; reflexivity.
    + change (String c (String c' a) ++ b)%string
        with (String c (String c' (a ++ b))).
      rewrite !last_lead_cons.
      change (String c' (a ++ b)) with (String c' a ++ b)%string.
      exact IH.
Qed.

Lemma has_surrogate_app a b :
  has_surrogate (a ++ b) =
  has_surrogate a || has_surrogate b || (last_lead a && head_high b).
Proof.
  induction a as [|c a IH].
  - cbn [append has_surrogate last_lead orb andb]. now rewrite orb_false_r.
  - cbn [append has_surrogate]. rewrite IH, head_high_app.
    destruct a as [|c' a].
    + cbn [has_surrogate last_lead head_high orb andb].
      rewrite andb_false_r, orb_false_r. cbn [orb].
      apply orb_comm.
    + rewrite last_lead_cons.
      destruct (N.eqb (N_of_ascii c) 237 && head_high (String c' a));
        reflexivity.
Qed.

Lemma clean_app a b :
  clean a = true -> clean b = true -> clean (a ++ b) = true.
Proof.
  unfold clean. rewrite !andb_true_iff, !negb_true_iff.
  intros [[Sa Ha] La] [[Sb Hb] Lb].
  rewrite has_surrogate_app, head_high_app, last_lead_app, Sa, Sb, La.
  repeat split.
  - now destruct a.
  - now destruct b.
Qed.


Lemma low_clean s : low s = true -> clean s = true.
Proof.
  unfold low, clean. induction s as [|c s IH]; [reflexivity|].
  cbn [list_ascii_of_string forallb]. intros H.
  apply andb_true_iff in H. destruct H as [C H].
  specialize (IH H).
  apply andb_true_iff in IH. destruct IH as [IH L].
  apply andb_true_iff in IH. destruct IH as [S _].
  apply negb_true_iff in S, L. apply N.ltb_lt in C.
  assert (E : N.eqb (N_of_ascii c) 237 = false) by (apply N.eqb_neq; lia).
  assert (G : N.leb 160 (N_of_ascii c) = false) by (apply N.leb_gt; lia).
  cbn [has_surrogate head_high]. rewrite E, S, G. cbn [andb orb negb].
  destruct s as [|c' s]; [cbn [last_lead]; now rewrite E|].
  rewrite last_lead_cons. now rewrite L.
Qed.

Lemma escape_char_cases c :
  escape_char c = str1 c \/
  (low (escape_char c) = true /\ escape_char c <> EmptyString /\
   low (str1 c) = true).
Proof.
  destruct c as [[] [] [] [] [] [] [] []];
    first [ left; reflexivity
          | right; split; [reflexivity|split; [discriminate|reflexivity]] ].
Qed.

Lemma has_surrogate_escape s :
  has_surrogate (escape s) = has_surrogate s /\
  head_high (escape s) = head_high s.
Proof.
  induction s as [|c s [IH1 IH2]]; [split; reflexivity|].
  cbn [escape].
  destruct (escape_char_cases c) as [-> | (L & N & Lc)].
  - cbn [str1 append has_surrogate head_high]. now rewrite IH1, IH2.
  - pose proof (low_clean _ L) as C. pose proof (low_clean _ Lc) as Cc.
    unfold clean in C, Cc.
    rewrite !andb_true_iff, !negb_true_iff in C, Cc.
    destruct C as [[S H] T]. destruct Cc as [[_ Hc] Tc].
    cbn [str1 last_lead head_high] in Hc, Tc.
    rewrite has_surrogate_app, head_high_app, S, T, IH1.
    cbn [has_surrogate head_high]. rewrite Tc, Hc. cbn [andb orb].
    rewrite orb_false_r.
    split; [reflexivity|].
    destruct (escape_char c); [contradiction|exact H].
Qed.

Lemma json_string_clean s :
  has_surrogate s = false -> clean (json_string s) = true.
Proof.
  intros H. unfold json_string, clean.
  destruct (has_surrogate_escape s) as [E _]. rewrite H in E.
  change (String dquote (escape s ++ str1 dquote))
    with (str1 dquote ++ (escape s ++ str1 dquote))%string.
  rewrite !andb_true_iff, !negb_true_iff. repeat split.
  - rewrite !has_surrogate_app, E.
    change (has_surrogate (str1 dquote)) with false.
    change (last_lead (str1 dquote)) with false.
    change (head_high (str1 dquote)) with false.
    now rewrite andb_false_r.
  - rewrite last_lead_app.
    destruct (escape s ++ str1 dquote)%string eqn:Q; [|rewrite <- Q].
    + destruct (escape s); discriminate.
    + now rewrite last_lead_app.
Qed.

Lemma num_char_low c : is_num_char c = true -> N.ltb (N_of_ascii c) 128 = true.
Proof.
  unfold is_num_char. cbn [list_ascii_of_string existsb].
  rewrite !orb_true_iff.
  intros H. repeat (destruct H as [H | H];
                    [apply Ascii.eqb_eq in H; subst; reflexivity|]).
  discriminate.
Qed.

Lemma str_of_Z_clean z : clean (str_of_Z z) = true.
Proof.
  apply low_clean, forallb_forall. intros c I.
  now apply num_char_low, (str_of_Z_chars z).
Qed.

Lemma concat_clean sep l :
  clean sep = true ->
  Forall (fun s => clean s = true) l ->
  clean (String.concat sep l) = true.
Proof.
  intros S F. induction F as [|x l Hx F IH]; [reflexivity|].
  destruct l as [|y l]; [exact Hx|].
  change (String.concat sep (x :: y :: l))
    with (x ++ sep ++ String.concat sep (y :: l))%string.
  apply clean_app; [exact Hx|]. apply clean_app; [exact S|exact IH].
Qed.

Lemma encodable_items (d : list (string * value)) :
  encodable (VDict d) = true ->
  Forall (fun kv => has_surrogate (fst kv) = false /\
                    encodable (snd kv) = true) d.
Proof.
  cbn [encodable]. rewrite forallb_forall. intros H.
  apply Forall_forall. intros [k x] I. specialize (H _ I).
  cbn beta iota in H. apply andb_true_iff in H.
  now rewrite negb_true_iff in H.
Qed.


(** The same for the text [_append_jsonl] writes. *)
Lemma encodable_dumps_default_clean v :
  encodable v = true -> clean (dumps_default v) = true.
Proof.
  induction v as [| [|] | z | s | l IH | d IH] using value_ind;
    try reflexivity.
  - intros _. apply str_of_Z_clean.
  - cbn [encodable]. rewrite negb_true_iff. apply json_string_clean.
  - cbn [encodable dumps_default]. rewrite forallb_forall. intros E.
    apply clean_app; [reflexivity|]. apply clean_app; [|reflexivity].
    apply concat_clean; [reflexivity|].
    apply Forall_map. rewrite Forall_forall in *. auto.
  - intros E. apply encodable_items in E.
    cbn [dumps_default].
    apply clean_app; [reflexivity|]. apply clean_app; [|reflexivity].
    apply concat_clean; [reflexivity|].
    apply Forall_map. rewrite Forall_forall in *.
    intros [k x] I. destruct (E _ I) as [K X]. cbn [fst snd] in *.
    apply clean_app; [now apply json_string_clean|].
    apply clean_app; [reflexivity|exact (IH _ I X)].
Qed.








Lemma encodable_get d k :
  encodable (VDict d) = true -> encodable (get_or_none d k) = true.
Proof.
  intros E. apply encodable_items in E. unfold get_or_none.
  induction E as [|[k' x] d [_ X] _ IH]; [reflexivity|].
  cbn [dict_get fst snd] in *. now destruct (String.eqb k' k).
Qed.

Lemma encodable_tcc_field env k v :
  encodable (VDict env) = true ->
  tcc_field env k = Returned v -> encodable v = true.
Proof.
  intros E. unfold tcc_field, py_get.
  pose proof (encodable_get env "tcc" E) as T. unfold get_or_none in T.
  destruct (dict_get env "tcc") as [t|]; cbn [bind].
  - destruct t as [| | | | |tcc]; try discriminate.
    pose proof (encodable_get tcc k T) as Q. unfold get_or_none in Q.
    destruct (dict_get tcc k); intros [= <-]; exact Q.
  - intros [= <-]. reflexivity.
Qed.




(** ** [verify] on an envelope of sound shape *)



(** ** The outcome of one vector *)



(** ** The runner's loop and [main] *)

Lemma sapp_cancel (a x y : string) : (a ++ x = a ++ y)%string -> x = y.
Proof.
  induction a as [|c a IH]; simpl; [auto|]. intros [= E]. now apply IH.
Qed.

Lemma path_join_inj a b b' : path_join a b = path_join a b' -> b = b'.
Proof.
  unfold path_join. destruct a as [|c a]; [auto|].
  destruct (ends_with (String c a) "/"); intros E.
  - now apply sapp_cancel in E.
  - apply sapp_cancel in E. now injection E.
Qed.

Lemma dict_get_pop_same {V : Type} (d : list (string * V)) k :
  dict_get (dict_pop d k) k = None.
Proof.
  unfold dict_pop. induction d as [|[k' v] d IH]; [reflexivity|].
  cbn [filter fst]. destruct (String.eqb k' k) eqn:E; cbn [negb].
  - exact IH.
  - cbn [dict_get]. now rewrite E.
Qed.

Lemma dict_get_pop_other {V : Type} (d : list (string * V)) k q :
  q <> k -> dict_get (dict_pop d k) q = dict_get d q.
Proof.
  intros N. unfold dict_pop. induction d as [|[k' v] d IH]; [reflexivity|].
  cbn [filter fst]. destruct (String.eqb k' k) eqn:E; cbn [negb dict_get].
  - apply String.eqb_eq in E. subst k'.
    destruct (String.eqb k q) eqn:E'; [|exact IH].
    apply String.eqb_eq in E'. congruence.
  - now rewrite IH.
Qed.

Lemma remove_if_exists_same fs p : dict_get (remove_if_exists fs p) p = None.
Proof.
  unfold remove_if_exists, dict_mem.
  destruct (dict_get fs p) eqn:E; [apply dict_get_pop_same|exact E].
Qed.

Lemma remove_if_exists_other fs p q :
  q <> p -> dict_get (remove_if_exists fs p) q = dict_get fs q.
Proof.
  intros N. unfold remove_if_exists.
  destruct (dict_mem fs p); [now apply dict_get_pop_other|reflexivity].
Qed.

Lemma remove_all_spec ps fs q :
  dict_get (fold_left remove_if_exists ps fs) q
  = if set_mem ps q then None else dict_get fs q.
Proof.
  revert fs. induction ps as [|p ps IH]; intros fs; [reflexivity|].
  cbn [fold_left]. rewrite IH.
  change (set_mem (p :: ps) q) with (String.eqb q p || set_mem ps q).
  destruct (set_mem ps q); [now rewrite orb_true_r|].
  rewrite orb_false_r. destruct (String.eqb q p) eqn:E.
  - apply String.eqb_eq in E. subst. apply remove_if_exists_same.
  - apply String.eqb_neq in E. now apply remove_if_exists_other.
Qed.

Section RunnerProofs.

Variable ROOT : string.
Variable now : nat -> Z.
Variable anchors : dict.

Lemma receipts_not_tomb : receipts_path ROOT <> tomb_path ROOT.
Proof. intros E. apply path_join_inj in E. discriminate. Qed.

Lemma seal_not_receipts : seal_path ROOT <> receipts_path ROOT.
Proof. intros E. apply path_join_inj in E. discriminate. Qed.

Lemma seal_not_tomb : seal_path ROOT <> tomb_path ROOT.
Proof. intros E. apply path_join_inj in E. discriminate. Qed.

Lemma summary_not_receipts : summary_path ROOT <> receipts_path ROOT.
Proof. intros E. apply path_join_inj in E. discriminate. Qed.

Lemma summary_not_tomb : summary_path ROOT <> tomb_path ROOT.
Proof. intros E. apply path_join_inj in E. discriminate. Qed.

Lemma summary_not_seal : summary_path ROOT <> seal_path ROOT.
Proof. intros E. apply path_join_inj in E. discriminate. Qed.

(** One more vector: one more line in one of the two ledger files, one
    more row, one more reading of the clock. *)
Lemma process_vector_step fn doc st st1 :
  process_vector ROOT now anchors fn doc st = Returned st1 ->
  exists (a b : nat) path obj row,
    (a + b = 1)%nat /\
    (path = if Nat.eqb a 1 then receipts_path ROOT else tomb_path ROOT) /\
    rs_fs st1 = _append_jsonl (rs_fs st) path obj /\
    rs_ok st1 = rs_ok st + Z.of_nat a /\
    rs_fail st1 = rs_fail st + Z.of_nat b /\
    rs_details st1 = rs_details st ++ [row] /\
    row_file row = VStr fn /\
    rs_tick st1 = S (rs_tick st) /\
    admitted anchors (fn, doc) = Nat.eqb a 1.
Proof.
  intros P. destruct doc as [| | | | |env]; try discriminate P.
  unfold admitted. cbn [snd]. unfold process_vector in P.
  destruct (verify (_auto_fill_witness env) anchors)
    as [[[[|] reason] dbg]|e]; cbn [bind] in P; [| |discriminate].
  - repeat match type of P with
           | bind ?m _ = _ => destruct m; cbn [bind] in P; [|discriminate]
           end.
    injection P as <-.
    exists 1%nat, 0%nat. do 3 eexists.
    cbn [rs_fs rs_ok rs_fail rs_details rs_tick].
    repeat split. lia.
  - repeat match type of P with
           | bind ?m _ = _ => destruct m; cbn [bind] in P; [|discriminate]
           end.
    injection P as <-.
    exists 0%nat, 1%nat. do 3 eexists.
    cbn [rs_fs rs_ok rs_fail rs_details rs_tick].
    repeat split; lia.
Qed.

Lemma run_loop_spec files :
  forall st eo st',
    run_loop ROOT now anchors files st = (eo, st') ->
    exists a b : nat,
      rs_ok st' = rs_ok st + Z.of_nat a /\
      rs_fail st' = rs_fail st + Z.of_nat b /\
      count_lines (_read_bytes (rs_fs st') (receipts_path ROOT))
      = (count_lines (_read_bytes (rs_fs st) (receipts_path ROOT)) + a)%nat /\
      count_lines (_read_bytes (rs_fs st') (tomb_path ROOT))
      = (count_lines (_read_bytes (rs_fs st) (tomb_path ROOT)) + b)%nat /\
      rs_tick st' = (rs_tick st + (a + b))%nat /\
      map row_file (rs_details st')
      = map row_file (rs_details st) ++
        map VStr (firstn (a + b) (map fst files)) /\
      (forall q, q <> receipts_path ROOT -> q <> tomb_path ROOT ->
                 dict_get (rs_fs st') q = dict_get (rs_fs st) q) /\
      a = List.length (filter (admitted anchors) (firstn (a + b) files)) /\
      match eo with
      | None => (a + b = List.length files)%nat
      | Some e =>
          exists fn doc,
            nth_error files (a + b) = Some (fn, doc) /\
            process_vector ROOT now anchors fn doc st' = Raised e
      end.
Proof.
  induction files as [|[fn doc] files IH]; intros st eo st' R;
    cbn [run_loop] in R.
  - injection R as <- <-. exists 0%nat, 0%nat.
    rewrite !Z.add_0_r, !Nat.add_0_r. cbn [firstn map]. rewrite app_nil_r.
    repeat split; auto.
  - destruct (process_vector ROOT now anchors fn doc st) as [st1|e] eqn:P.
    + apply process_vector_step in P.
      destruct P as (a1 & b1 & path & obj & row & S1 & Ep & Ef & Eo & Efl
                     & Ed & Er & Et & Ea).
      apply IH in R.
      destruct R as (a & b & Ho & Hf & Hr & Ht & Hk & Hd & Hq & Hc & He).
      pose proof (append_jsonl_lines (rs_fs st) path obj) as L.
      pose proof (fun q => append_jsonl_other (rs_fs st) path obj q) as Other.
      rewrite <- Ef in L, Other.
      exists (a1 + a)%nat, (b1 + b)%nat.
      assert (Cases : (a1 = 1%nat /\ b1 = 0%nat /\ path = receipts_path ROOT) \/
                      (a1 = 0%nat /\ b1 = 1%nat /\ path = tomb_path ROOT)).
      { destruct a1 as [|[|a1]]; [right|left|lia];
          cbn [Nat.eqb] in Ep; repeat split; auto; lia. }
      split; [lia|]. split; [lia|].
      assert (Rd : forall q, q <> path ->
                             _read_bytes (rs_fs st1) q = _read_bytes (rs_fs st) q).
      { intros q N. rewrite !read_content. now rewrite Other. }
      split; [|split; [|split; [|split; [|split; [|split]]]]].
      * rewrite Hr. destruct Cases as [(-> & -> & ->) | (-> & -> & ->)].
        -- rewrite L. lia.
        -- rewrite Rd by apply receipts_not_tomb. lia.
      * rewrite Ht. destruct Cases as [(-> & -> & ->) | (-> & -> & ->)].
        -- rewrite Rd; [lia|]. intros E. symmetry in E.
           now apply receipts_not_tomb in E.
        -- rewrite L. lia.
      * lia.
      * rewrite Hd, Ed, map_app. cbn [map]. rewrite Er.
        replace (a1 + a + (b1 + b))%nat with (S (a + b)) by lia.
        cbn [map fst firstn]. now rewrite <- app_assoc.
      * intros q N1 N2. rewrite Hq by assumption. apply Other.
        destruct Cases as [(_ & _ & ->) | (_ & _ & ->)]; assumption.
      * replace (a1 + a + (b1 + b))%nat with (S (a + b)) by lia.
        cbn [firstn filter]. rewrite Ea.
        destruct Cases as [(-> & _ & _) | (-> & _ & _)];
          cbn [Nat.eqb List.length]; lia.
      * replace (a1 + a + (b1 + b))%nat with (S (a + b)) by lia.
        destruct eo; cbn [List.length nth_error]; [exact He|lia].
    + injection R as <- <-. exists 0%nat, 0%nat.
      rewrite !Z.add_0_r, !Nat.add_0_r. cbn [firstn map List.length].
      rewrite app_nil_r. repeat split; auto.
      exists fn, doc. split; [reflexivity|exact P].
Qed.

Lemma clean_state fs :
  let fs0 := fold_left remove_if_exists
               [receipts_path ROOT; tomb_path ROOT; seal_path ROOT;
                summary_path ROOT] fs in
  _read_bytes fs0 (receipts_path ROOT) = EmptyString /\
  _read_bytes fs0 (tomb_path ROOT) = EmptyString /\
  dict_get fs0 (seal_path ROOT) = None /\
  dict_get fs0 (summary_path ROOT) = None.
Proof.
  intros fs0. unfold fs0. rewrite !read_content, !remove_all_spec.
  cbn [set_mem existsb]. rewrite !String.eqb_refl, ?orb_true_r. auto.
Qed.

Lemma ledger_untouched_by_seal fs :
  (forall obj data,
      _read_bytes (dict_set (_append_jsonl fs (seal_path ROOT) obj)
                            (summary_path ROOT) data) (receipts_path ROOT)
      = _read_bytes fs (receipts_path ROOT)) /\
  (forall obj data,
      _read_bytes (dict_set (_append_jsonl fs (seal_path ROOT) obj)
                            (summary_path ROOT) data) (tomb_path ROOT)
      = _read_bytes fs (tomb_path ROOT)).
Proof.
  split; intros obj data; unfold _append_jsonl.
  - rewrite read_set_other by apply not_eq_sym, summary_not_receipts.
    now rewrite read_set_other by apply not_eq_sym, seal_not_receipts.
  - rewrite read_set_other by apply not_eq_sym, summary_not_tomb.
    now rewrite read_set_other by apply not_eq_sym, seal_not_tomb.
Qed.

(** X21. When [main] returns, the ledger accounts for every vector: the
    receipts file holds one line per envelope [verify] admits after the
    witness is filled in, the tombstone file one line per envelope it
    rejects, together one line per [.json] file of the vector directory,
    whatever those files held before the run; the summary written
    carries these two counts and one row per vector, in the sorted order
    of the file names; the counts are the ones printed. *)
Theorem main_accounts_for_every_vector vec_dir fs out fs' :
  main ROOT now anchors vec_dir fs = (Returned out, fs') ->
  exists (n_ok n_fail : nat) rows,
    (n_ok + n_fail = List.length (vector_files vec_dir))%nat /\
    n_ok = List.length (filter (admitted anchors) (vector_files vec_dir)) /\
    count_lines (_read_bytes fs' (receipts_path ROOT)) = n_ok /\
    count_lines (_read_bytes fs' (tomb_path ROOT)) = n_fail /\
    _read_bytes fs' (summary_path ROOT)
    = dumps_indent 0 (VDict [("ok", VInt (Z.of_nat n_ok));
                             ("fail", VInt (Z.of_nat n_fail));
                             ("details", VList rows)]) /\
    map row_file rows = map VStr (map fst (vector_files vec_dir)) /\
    out = ["DONE.";
           ("OK=" ++ str_of_Z (Z.of_nat n_ok) ++
            " FAIL=" ++ str_of_Z (Z.of_nat n_fail))%string;
           ("Outputs: " ++ OUT_DIR ROOT)%string].
Proof.
  unfold main. intros M.
  destruct (clean_state fs) as (C1 & C2 & _).
  destruct (run_loop ROOT now anchors (vector_files vec_dir) _)
    as [[e|] st] eqn:R; [discriminate|].
  injection M as <- <-.
  apply run_loop_spec in R. cbn [rs_fs rs_ok rs_fail rs_details rs_tick] in R.
  destruct R as (a & b & Ho & Hf & Hr & Ht & _ & Hd & _ & Hc & He).
  rewrite C1 in Hr. rewrite C2 in Ht. cbn [count_lines] in Hr, Ht.
  exists a, b, (rs_details st). rewrite Ho, Hf. cbn [Z.add].
  split; [exact He|].
  split; [now rewrite He, firstn_all in Hc|].
  rewrite read_set_other by apply not_eq_sym, summary_not_receipts.
  rewrite read_set_other by apply not_eq_sym, summary_not_tomb.
  unfold _append_jsonl.
  rewrite read_set_other by apply not_eq_sym, seal_not_receipts.
  rewrite read_set_other by apply not_eq_sym, seal_not_tomb.
  rewrite read_set.
  split; [exact Hr|]. split; [exact Ht|]. split; [reflexivity|].
  split; [|reflexivity].
  rewrite Hd, He. cbn [map app].
  rewrite <- (length_map fst (vector_files vec_dir)). now rewrite firstn_all.
Qed.

(** X22. When [main] raises, the batch leaves neither a seal nor a
    summary, even if earlier runs had left some: both files are removed
    first and written only after the loop.  The ledger holds the lines
    of the vectors before the one that raised, which is the first, in
    the sorted order of the names, whose processing raises. *)
Theorem main_abort_leaves_no_seal vec_dir fs e fs' :
  main ROOT now anchors vec_dir fs = (Raised e, fs') ->
  dict_mem fs' (seal_path ROOT) = false /\
  dict_mem fs' (summary_path ROOT) = false /\
  exists fn doc st,
    nth_error (vector_files vec_dir)
              (count_lines (_read_bytes fs' (receipts_path ROOT)) +
               count_lines (_read_bytes fs' (tomb_path ROOT)))
    = Some (fn, doc) /\
    process_vector ROOT now anchors fn doc st = Raised e.
Proof.
  unfold main. intros M.
  destruct (clean_state fs) as (C1 & C2 & C3 & C4).
  destruct (run_loop ROOT now anchors (vector_files vec_dir) _)
    as [[e'|] st] eqn:R; [|discriminate].
  injection M as <- <-.
  apply run_loop_spec in R. cbn [rs_fs rs_ok rs_fail rs_details rs_tick] in R.
  destruct R as (a & b & _ & _ & Hr & Ht & _ & _ & Hq & _ & fn & doc & Hn & Hp).
  rewrite C1 in Hr. rewrite C2 in Ht. cbn [count_lines] in Hr, Ht.
  unfold dict_mem.
  rewrite (Hq _ seal_not_receipts seal_not_tomb), C3.
  rewrite (Hq _ summary_not_receipts summary_not_tomb), C4.
  split; [reflexivity|]. split; [reflexivity|].
  exists fn, doc, st. rewrite Hr, Ht. cbn [Nat.add]. auto.
Qed.

(** X23. When [main] returns, the seal file holds one record, and the
    digests in it are those of the receipts file and of the tombstone
    file as the run leaves them (a file that was never written counts as
    empty), the root digest being taken over the two contents with a
    line break between; its time stamp is the reading of the clock that
    follows those of the vectors. *)
Theorem main_seal_matches_ledger vec_dir fs out fs' :
  main ROOT now anchors vec_dir fs = (Returned out, fs') ->
  let receipts_bytes := _read_bytes fs' (receipts_path ROOT) in
  let tomb_bytes := _read_bytes fs' (tomb_path ROOT) in
  _read_bytes fs' (seal_path ROOT)
  = (dumps_default
       (VDict [("kind", VStr "LEDGER_SEAL");
               ("ts", VInt (now (List.length (vector_files vec_dir))));
               ("receipts_sha256", VStr (_sha256_hex receipts_bytes));
               ("tombstone_sha256", VStr (_sha256_hex tomb_bytes));
               ("root_sha256",
                VStr (_sha256_hex
                        (receipts_bytes ++ String newline EmptyString
                           ++ tomb_bytes)%string))])
       ++ String newline EmptyString)%string.
Proof.
  unfold main. intros M.
  destruct (clean_state fs) as (_ & _ & C3 & _).
  destruct (run_loop ROOT now anchors (vector_files vec_dir) _)
    as [[e|] st] eqn:R; [discriminate|].
  injection M as <- <-.
  apply run_loop_spec in R. cbn [rs_fs rs_ok rs_fail rs_details rs_tick] in R.
  destruct R as (a & b & _ & _ & _ & _ & Hk & _ & Hq & _ & He).
  cbn [Nat.add] in Hk. rewrite He in Hk.
  cbv zeta.
  destruct (ledger_untouched_by_seal (rs_fs st)) as [U1 U2].
  rewrite !U1, !U2.
  rewrite read_set_other by apply not_eq_sym, summary_not_seal.
  unfold _append_jsonl. rewrite read_set.
  rewrite (Hq _ seal_not_receipts seal_not_tomb), C3, Hk.
  reflexivity.
Qed.

End RunnerProofs.

Lemma main_accounts_for_every_vector_witness :
  let anchors := sample_anchors in
  let vec_dir :=
    [("b.json",
      VDict (sample_env (VStr "FAST")
               (sample_tcc (VList (sample_nodes sample_hashes))
                           (VList sample_edges))));
     ("a.json", VDict (env_cycle (VList [])));
     ("notes.txt", VNone)] in
  let fs' := snd sample_run in
  exists (n_ok n_fail : nat) rows,
    (n_ok + n_fail = List.length (vector_files vec_dir))%nat /\
    n_ok = List.length (filter (admitted anchors) (vector_files vec_dir)) /\
    count_lines (_read_bytes fs' (receipts_path "/repo")) = n_ok /\
    count_lines (_read_bytes fs' (tomb_path "/repo")) = n_fail /\
    _read_bytes fs' (summary_path "/repo")
    = dumps_indent 0 (VDict [("ok", VInt (Z.of_nat n_ok));
                             ("fail", VInt (Z.of_nat n_fail));
                             ("details", VList rows)]) /\
    map row_file rows = map VStr (map fst (vector_files vec_dir)) /\
    ["DONE."; "OK=1 FAIL=1"; "Outputs: /repo/out"]
    = ["DONE.";
       ("OK=" ++ str_of_Z (Z.of_nat n_ok) ++
        " FAIL=" ++ str_of_Z (Z.of_nat n_fail))%string;
       ("Outputs: " ++ OUT_DIR "/repo")%string].
Proof.
  intros anchors vec_dir fs'.
  apply (main_accounts_for_every_vector "/repo" (fun _ => 1700000000)
           anchors vec_dir
           [("/repo/out/receipts.jsonl", "stale");
            ("/repo/out/ledger_seal.jsonl", "stale")]).
  vm_compute. reflexivity.
Defined.

Lemma main_abort_leaves_no_seal_witness :
  let fs' := snd sample_aborted_run in
  dict_mem fs' (seal_path "/repo") = false /\
  dict_mem fs' (summary_path "/repo") = false /\
  exists fn doc st,
    nth_error (vector_files [("b.json", VList []);
                             ("a.json", VDict (env_cycle (VList [])));
                             ("c.json", VDict (env_cycle (VList [])))])
              (count_lines (_read_bytes fs' (receipts_path "/repo")) +
               count_lines (_read_bytes fs' (tomb_path "/repo")))
    = Some (fn, doc) /\
    process_vector "/repo" (fun _ => 1700000000) sample_anchors fn doc st
    = Raised AttributeError.
Proof.
  intros fs'.
  apply (main_abort_leaves_no_seal "/repo" (fun _ => 1700000000)
           sample_anchors _ [("/repo/out/summary.json", "stale")]).
  vm_compute. reflexivity.
Defined.

Lemma main_seal_matches_ledger_witness :
  let fs' := snd sample_run in
  let receipts_bytes := _read_bytes fs' (receipts_path "/repo") in
  let tomb_bytes := _read_bytes fs' (tomb_path "/repo") in
  _read_bytes fs' (seal_path "/repo")
  = (dumps_default
       (VDict [("kind", VStr "LEDGER_SEAL");
               ("ts", VInt 1700000000);
               ("receipts_sha256", VStr (_sha256_hex receipts_bytes));
               ("tombstone_sha256", VStr (_sha256_hex tomb_bytes));
               ("root_sha256",
                VStr (_sha256_hex
                        (receipts_bytes ++ String newline EmptyString
                           ++ tomb_bytes)%string))])
       ++ String newline EmptyString)%string.
Proof.
  intros fs'.
  apply (main_seal_matches_ledger "/repo" (fun _ => 1700000000)
           sample_anchors
           [("b.json",
             VDict (sample_env (VStr "FAST")
                      (sample_tcc (VList (sample_nodes sample_hashes))
                                  (VList sample_edges))));
            ("a.json", VDict (env_cycle (VList [])));
            ("notes.txt", VNone)]
           [("/repo/out/receipts.jsonl", "stale");
            ("/repo/out/ledger_seal.jsonl", "stale")]
           ["DONE."; "OK=1 FAIL=1"; "Outputs: /repo/out"]).
  vm_compute. reflexivity.
Defined.

(** ** The witness hash binds the envelope *)

Lemma map_fst_filter_key {V : Type} (d : list (string * V)) k :
  map fst (dict_pop d k) = filter (fun x => negb (String.eqb x k)) (map fst d).
Proof.
  unfold dict_pop. induction d as [|[k' v] d IH]; [reflexivity|].
  cbn [filter map fst]. destruct (negb (String.eqb k' k)); cbn [map fst];
    now rewrite IH.
Qed.

Lemma wf_value_pop d k :
  wf_value (VDict d) = true -> wf_value (VDict (dict_pop d k)) = true.
Proof.
  rewrite !wf_value_dict. intros [N W]. split.
  - rewrite map_fst_filter_key. now apply NoDup_filter.
  - intros k' x I. unfold dict_pop in I. apply filter_In in I.
    eapply W. apply I.
Qed.

(** X24. Tamper evidence, up to collisions of the hash: two admitted
    envelopes that carry the same [witness_hash] hold, in all their
    other fields, the same document (up to the order of keys), or their
    canonical encodings are two different byte strings with the same
    SHA-256 digest. *)
Theorem witness_binds_the_envelope env env' anchors anchors' :
  wf_value (VDict env) = true -> wf_value (VDict env') = true ->
  verify env anchors = Returned (true, "OK", [("stage", VStr "ok")]) ->
  verify env' anchors' = Returned (true, "OK", [("stage", VStr "ok")]) ->
  get_or_none env "witness_hash" = get_or_none env' "witness_hash" ->
  let doc := VDict (dict_pop env "witness_hash") in
  let doc' := VDict (dict_pop env' "witness_hash") in
  struct_eq doc doc' = true \/
  (_canonical_json_bytes doc <> _canonical_json_bytes doc' /\
   _sha256_hex (_canonical_json_bytes doc)
   = _sha256_hex (_canonical_json_bytes doc')).
Proof.
  intros W W' V V' E doc doc'.
  apply verify_ok_iff in V, V'. destruct V as [_ H], V' as [_ H'].
  rewrite H, H' in E. injection E as E. unfold compute_witness_hash in E.
  destruct (struct_eq doc doc') eqn:S; [now left|right].
  split; [|exact E].
  intros B.
  destruct (dumps_unambiguous doc doc' "" "" (wf_value_pop _ _ W')
              Logic.I Logic.I) as [S' _].
  - unfold _canonical_json_bytes in B. now rewrite B.
  - congruence.
Qed.

Lemma witness_binds_the_envelope_witness :
  let doc := VDict (dict_pop env_valid "witness_hash") in
  let doc' := VDict (dict_pop (rev env_valid) "witness_hash") in
  struct_eq doc doc' = true \/
  (_canonical_json_bytes doc <> _canonical_json_bytes doc' /\
   _sha256_hex (_canonical_json_bytes doc)
   = _sha256_hex (_canonical_json_bytes doc')).
Proof.
  apply (witness_binds_the_envelope env_valid (rev env_valid)
           sample_anchors sample_anchors);
    vm_compute; reflexivity.
Defined.

(** ** [verify] reads the envelope as a document *)

Lemma same_scalar a b :
  same a b ->
  match a with
  | VList _ | VDict _ => True
  | _ => a = b
  end.
Proof.
  intros (_ & _ & E). destruct a, b; try discriminate E; try exact Logic.I.
  - reflexivity.
  - apply Bool.eqb_prop in E. now subst.
  - apply Z.eqb_eq in E. now subst.
  - apply String.eqb_eq in E. now subst.
Qed.

Lemma same_list l b :
  same (VList l) b -> exists l', b = VList l' /\ Forall2 same l l'.
Proof.
  intros (Wa & Wb & E). destruct b as [| | | |l'|]; try discriminate E.
  exists l'. split; [reflexivity|].
  apply struct_eq_list in E. rewrite wf_value_list in Wa, Wb.
  induction E as [|x y l l' Exy E IH]; constructor.
  - repeat split; [apply Wa|apply Wb|exact Exy]; now left.
  - apply IH; intros z I; [apply Wa|apply Wb]; now right.
Qed.

Lemma same_dict d b :
  same (VDict d) b ->
  exists d', b = VDict d' /\
             List.length d = List.length d' /\
             forall k, same_opt (dict_get d k) (dict_get d' k).
Proof.
  intros (Wa & Wb & E). destruct b as [| | | | |d']; try discriminate E.
  exists d'. split; [reflexivity|].
  apply struct_eq_dict in E. destruct E as [L E].
  apply wf_value_dict in Wa, Wb.
  destruct Wa as [N W], Wb as [N' W'].
  split; [exact L|]. intros k.
  assert (Keys : forall x, In x (map fst d) -> In x (map fst d')).
  { intros x I. apply dict_get_Some_key in I. destruct I as [v G].
    apply dict_get_In in G. destruct (E x v G) as [w [G' _]].
    apply dict_get_Some_key. eauto. }
  assert (Keys' : forall x, In x (map fst d') -> In x (map fst d)).
  { intros x. apply (NoDup_length_incl N).
    - rewrite !length_map. lia.
    - exact Keys. }
  destruct (dict_get d k) as [v|] eqn:G.
  - apply dict_get_In in G. destruct (E k v G) as [w [G' S]].
    rewrite G'. repeat split; [eapply W|eapply W'; apply dict_get_In|]; eauto.
  - destruct (dict_get d' k) as [w|] eqn:G'; [|exact Logic.I].
    apply dict_get_None in G. apply G, Keys', dict_get_Some_key. eauto.
Qed.

Lemma same_None : same VNone VNone.
Proof. repeat split. Qed.

Lemma same_get_or_none d d' k :
  same (VDict d) (VDict d') -> same (get_or_none d k) (get_or_none d' k).
Proof.
  intros S. apply same_dict in S. destruct S as (d0 & [= <-] & _ & G).
  specialize (G k). unfold get_or_none.
  destruct (dict_get d k), (dict_get d' k); try contradiction;
    [exact G|apply same_None].
Qed.

(** A function that looks at scalars only cannot tell the two apart. *)
Lemma same_scalar_fn {A : Type} (f : value -> A) a b :
  (forall l l', f (VList l) = f (VList l')) ->
  (forall d d', f (VDict d) = f (VDict d')) ->
  same a b -> f a = f b.
Proof.
  intros Fl Fd S. pose proof (same_scalar a b S) as Q.
  destruct a; try (now rewrite Q).
  - apply same_list in S. destruct S as (l' & -> & _). apply Fl.
  - apply same_dict in S. destruct S as (d' & -> & _). apply Fd.
Qed.

Lemma py_eq_list l1 l2 :
  py_eq (VList l1) (VList l2) = true <->
  Forall2 (fun x y => py_eq x y = true) l1 l2.
Proof.
  cbn [py_eq]. revert l2.
  induction l1 as [|x l1 IH]; intros [|y l2]; split; intros H;
    try discriminate; try constructor; try (now inversion H).
  - apply andb_true_iff in H. tauto.
  - apply andb_true_iff in H. apply IH. tauto.
  - inversion H; subst. apply andb_true_iff. split; [assumption|now apply IH].
Qed.

Lemma py_eq_dict d1 d2 :
  py_eq (VDict d1) (VDict d2) = true <->
  List.length d1 = List.length d2 /\
  forall k v, In (k, v) d1 ->
              exists w, dict_get d2 k = Some w /\ py_eq v w = true.
Proof.
  cbn [py_eq]. rewrite andb_true_iff, Nat.eqb_eq.
  apply and_iff_compat_l.
  induction d1 as [|[k v] d1 IH].
  - split; [intros _ ? ? []|reflexivity].
  - rewrite andb_true_iff, IH. split.
    + intros [A B] k' v' [[= <- <-] | I]; [|now apply B].
      destruct (dict_get d2 k) as [w|]; [|discriminate]. now exists w.
    + intros F. split.
      * destruct (F k v (or_introl eq_refl)) as [w [-> E]]. exact E.
      * intros k' v' I. apply F. now right.
Qed.

Lemma same_sym a b : same a b -> same b a.
Proof.
  revert b.
  induction a as [| x | x | s | l IH | d IH] using value_ind; intros b S.
  - pose proof (same_scalar _ _ S) as <-. exact S.
  - pose proof (same_scalar _ _ S) as <-. exact S.
  - pose proof (same_scalar _ _ S) as <-. exact S.
  - pose proof (same_scalar _ _ S) as <-. exact S.
  - destruct (same_list _ _ S) as (l' & -> & F).
    destruct S as (Wa & Wb & _). repeat split; auto.
    apply struct_eq_list.
    induction F as [|x y l l' Sxy F IHF]; constructor.
    + inversion IH; subst. now apply H1.
    + inversion IH; subst. apply IHF; auto.
      * rewrite wf_value_list in *. intros z I. apply Wa. now right.
      * rewrite wf_value_list in *. intros z I. apply Wb. now right.
  - destruct (same_dict _ _ S) as (d' & -> & L & G).
    destruct S as (Wa & Wb & _). repeat split; auto.
    apply struct_eq_dict. split; [now symmetry|].
    intros k w I.
    apply wf_value_dict in Wb. destruct Wb as [N' _].
    pose proof (dict_get_first _ _ _ N' I) as G'.
    specialize (G k). rewrite G' in G.
    destruct (dict_get d k) as [v|] eqn:Gv; [|contradiction].
    exists v. split; [reflexivity|].
    rewrite Forall_forall in IH.
    apply dict_get_In in Gv.
    now apply (IH (k, v) Gv w).
Qed.

Lemma py_eq_same a :
  forall a' b b', same a a' -> same b b' -> py_eq a b = py_eq a' b'.
Proof.
  induction a as [| x | x | s | l IH | d IH] using value_ind;
    intros a' b b' Sa Sb.
  1-4: pose proof (same_scalar _ _ Sa) as <-;
       pose proof (same_scalar _ _ Sb) as Q;
       destruct b; try (now rewrite Q);
       [apply same_list in Sb; destruct Sb as (? & -> & _)
       |apply same_dict in Sb; destruct Sb as (? & -> & _)];
       try reflexivity; destruct x; reflexivity.
  - destruct (same_list _ _ Sa) as (l' & -> & Fa).
    pose proof (same_scalar _ _ Sb) as Q.
    destruct b as [| | | |l2|d2]; try (now rewrite <- Q).
    + destruct (same_list _ _ Sb) as (l2' & -> & Fb).
      apply eq_true_iff_eq. rewrite !py_eq_list.
      clear Sa Sb Q. revert l2 l2' Fb.
      induction Fa as [|x x' l l' Sx Fa IHF]; intros l2 l2' Fb.
      * destruct Fb as [|y y' l2 l2' Sy Fb]; split; intros P;
          inversion P; constructor.
      * inversion IH as [|? ? Hx IH']; subst.
        destruct Fb as [|y y' l2 l2' Sy Fb].
        -- split; intros P; inversion P.
        -- split; intros P; inversion P; subst; constructor.
           ++ now rewrite <- (Hx x' y y').
           ++ now apply (IHF IH' l2 l2').
           ++ now rewrite (Hx x' y y').
           ++ now apply (IHF IH' l2 l2').
    + destruct (same_dict _ _ Sb) as (d2' & -> & _). reflexivity.
  - destruct (same_dict _ _ Sa) as (d' & -> & La & Ga).
    pose proof (same_scalar _ _ Sb) as Q.
    destruct b as [| | | |l2|d2]; try (now rewrite <- Q).
    + destruct (same_list _ _ Sb) as (l2' & -> & _). reflexivity.
    + destruct (same_dict _ _ Sb) as (d2' & -> & Lb & Gb).
      apply eq_true_iff_eq. rewrite !py_eq_dict.
      destruct Sa as (Wa & Wa' & _).
      apply wf_value_dict in Wa, Wa'.
      destruct Wa as [N _], Wa' as [N' _].
      rewrite Forall_forall in IH.
      split; intros [L H]; (split; [lia|]); intros k v I.
      * pose proof (dict_get_first _ _ _ N' I) as G'.
        pose proof (Ga k) as Gk. rewrite G' in Gk.
        destruct (dict_get d k) as [v0|] eqn:G0; [|contradiction].
        apply dict_get_In in G0.
        destruct (H k v0 G0) as [w [Gw E]].
        pose proof (Gb k) as Gk'. rewrite Gw in Gk'.
        destruct (dict_get d2' k) as [w'|]; [|contradiction].
        exists w'. split; [reflexivity|].
        pose proof (IH (k, v0) G0 v w w') as Qi. cbn [snd] in Qi.
        rewrite <- Qi; assumption.
      * pose proof (dict_get_first _ _ _ N I) as G0.
        pose proof (Ga k) as Gk. rewrite G0 in Gk.
        destruct (dict_get d' k) as [v'|] eqn:G'; [|contradiction].
        apply dict_get_In in G'.
        destruct (H k v' G') as [w' [Gw' E]].
        pose proof (Gb k) as Gk'. rewrite Gw' in Gk'.
        destruct (dict_get d2 k) as [w|]; [|contradiction].
        exists w. split; [reflexivity|].
        pose proof (IH (k, v) I v' w w') as Qi. cbn [snd] in Qi.
        rewrite Qi; assumption.
Qed.

Lemma same_refl_str s : same (VStr s) (VStr s).
Proof. repeat split. cbn [struct_eq]. apply String.eqb_refl. Qed.

Lemma same_wf a b : same a b -> wf_value a = true /\ wf_value b = true.
Proof. intros (A & B & _). auto. Qed.

Lemma same_dict_intro d d' :
  wf_value (VDict d) = true -> wf_value (VDict d') = true ->
  (forall k, same_opt (dict_get d k) (dict_get d' k)) ->
  same (VDict d) (VDict d').
Proof.
  intros W W' G. repeat split; auto.
  apply wf_value_dict in W, W'. destruct W as [N _], W' as [N' _].
  apply struct_eq_dict. split.
  - rewrite <- (length_map fst d), <- (length_map fst d').
    apply Permutation_length, NoDup_Permutation; auto.
    intros k. rewrite !dict_get_Some_key. specialize (G k).
    destruct (dict_get d k), (dict_get d' k); try contradiction;
      split; intros [x E]; try discriminate; eauto.
  - intros k v I. pose proof (dict_get_first _ _ _ N I) as E.
    specialize (G k). rewrite E in G.
    destruct (dict_get d' k) as [w|]; [|contradiction].
    exists w. split; [reflexivity|apply G].
Qed.

Lemma same_pop d d' k :
  same (VDict d) (VDict d') ->
  same (VDict (dict_pop d k)) (VDict (dict_pop d' k)).
Proof.
  intros S. destruct (same_wf _ _ S) as [W W'].
  destruct (same_dict _ _ S) as (d0 & [= <-] & _ & G).
  apply same_dict_intro; try now apply wf_value_pop.
  intros q. destruct (String.eqb q k) eqn:E.
  - apply String.eqb_eq in E. subst q.
    rewrite !dict_get_pop_same. exact Logic.I.
  - apply String.eqb_neq in E. rewrite !dict_get_pop_other by exact E.
    apply G.
Qed.

Lemma same_witness_hash d d' :
  same (VDict d) (VDict d') ->
  compute_witness_hash (dict_pop d "witness_hash")
  = compute_witness_hash (dict_pop d' "witness_hash").
Proof.
  intros S. apply (same_pop _ _ "witness_hash") in S.
  destruct S as (W & W' & E). unfold compute_witness_hash, _canonical_json_bytes.
  f_equal. now apply dumps_struct_eq.
Qed.

Lemma same_tcc_list d d' k :
  same (VDict d) (VDict d') -> same (tcc_list d k) (tcc_list d' k).
Proof.
  intros S. apply same_dict in S. destruct S as (d0 & [= <-] & _ & G).
  specialize (G k). unfold tcc_list.
  destruct (dict_get d k), (dict_get d' k); try contradiction;
    [exact G|repeat split].
Qed.

Lemma py_get_same v v' k dflt dflt' :
  same v v' -> same dflt dflt' ->
  same_result same (py_get v k dflt) (py_get v' k dflt').
Proof.
  intros S D. pose proof (same_scalar _ _ S) as Q.
  destruct v as [| | | |l|d]; try (rewrite <- Q; reflexivity).
  - apply same_list in S. destruct S as (l' & -> & _). reflexivity.
  - apply same_dict in S. destruct S as (d' & -> & _ & G).
    specialize (G k). cbn [py_get].
    destruct (dict_get d k), (dict_get d' k); try contradiction; assumption.
Qed.

(** Two runs of a loop over the same entries, from related states. *)
Lemma for_each_same {S : Type} (rel : S -> S -> Prop)
  (body : S -> value -> result S) l l' :
  (forall st st' n n', rel st st' -> same n n' ->
                       same_result rel (body st n) (body st' n')) ->
  Forall2 same l l' ->
  forall st st', rel st st' ->
                 same_result rel (for_each l body st) (for_each l' body st').
Proof.
  intros B F. induction F as [|n n' l l' Sn F IH]; intros st st' R.
  - exact R.
  - cbn [for_each]. pose proof (B st st' n n' R Sn) as Q.
    destruct (body st n) as [s1|e], (body st' n') as [s1'|e'];
      try contradiction; cbn [bind].
    + now apply IH.
    + exact Q.
Qed.

Lemma for_each_strings {S : Type} (body : S -> value -> result S)
  (l : list string) st :
  (forall st s, body st (VStr s) = Raised AttributeError) ->
  for_each (map VStr l) body st
  = match l with [] => Returned st | _ => Raised AttributeError end.
Proof.
  intros B. destruct l as [|s l]; [reflexivity|].
  cbn [map for_each]. now rewrite B.
Qed.

(** The loop [for n in v] over the same value. *)
Lemma iterate_same {S : Type} (rel : S -> S -> Prop)
  (body : S -> value -> result S) v v' st st' :
  (forall st st' n n', rel st st' -> same n n' ->
                       same_result rel (body st n) (body st' n')) ->
  (forall st s, body st (VStr s) = Raised AttributeError) ->
  same v v' -> rel st st' ->
  same_result rel (ns <- py_iter v ;; for_each ns body st)
                  (ns <- py_iter v' ;; for_each ns body st').
Proof.
  intros B A Sv R. pose proof (same_scalar _ _ Sv) as Q.
  destruct v as [| | |s|l|d]; try (rewrite <- Q; reflexivity).
  - rewrite <- Q. cbn [py_iter bind].
    destruct (list_ascii_of_string s) as [|c cs]; [exact R|].
    cbn [map for_each]. rewrite !A. reflexivity.
  - apply same_list in Sv. destruct Sv as (l' & -> & F).
    cbn [py_iter bind]. now apply for_each_same.
  - apply same_dict in Sv. destruct Sv as (d' & -> & L & _).
    cbn [py_iter bind]. rewrite <- !(map_map fst VStr).
    rewrite !for_each_strings by exact A.
    destruct d, d'; try discriminate L; [exact R|reflexivity].
Qed.

Lemma same_result_eq {A : Type} (r r' : result A) :
  same_result eq r r' -> r = r'.
Proof. destruct r, r'; simpl; intros H; try contradiction; congruence. Qed.

Lemma nonempty_str_same a b : same a b -> nonempty_str a = nonempty_str b.
Proof. now apply same_scalar_fn. Qed.

Lemma add_node_same st n n' : same n n' -> add_node st n = add_node st n'.
Proof.
  intros S. unfold add_node. destruct st as [adj nodeset].
  pose proof (py_get_same n n' "id" VNone VNone S same_None) as Q.
  destruct (py_get n "id" VNone), (py_get n' "id" VNone); try contradiction;
    cbn [bind].
  - now rewrite (nonempty_str_same _ _ Q).
  - now rewrite Q.
Qed.

Lemma add_edge_same st e e' : same e e' -> add_edge st e = add_edge st e'.
Proof.
  intros S. unfold add_edge. destruct st as [adj nodeset].
  pose proof (py_get_same e e' "from" VNone VNone S same_None) as Q1.
  pose proof (py_get_same e e' "to" VNone VNone S same_None) as Q2.
  destruct (py_get e "from" VNone), (py_get e' "from" VNone);
    try contradiction; cbn [bind]; [|now rewrite Q1].
  destruct (py_get e "to" VNone), (py_get e' "to" VNone);
    try contradiction; cbn [bind]; [|now rewrite Q2].
  now rewrite (nonempty_str_same _ _ Q1), (nonempty_str_same _ _ Q2).
Qed.

Lemma build_graph_alt tcc :
  _build_graph tcc
  = (st1 <- (ns <- py_iter (tcc_list tcc "nodes") ;;
             for_each ns add_node ([], [])) ;;
     st2 <- (es <- py_iter (tcc_list tcc "edges") ;;
             for_each es add_edge st1) ;;
     let '(adj, nodeset) := st2 in
     Returned (fold_left adj_setdefault nodeset adj, nodeset)).
Proof.
  unfold _build_graph. rewrite !py_get_tcc_list. cbn [bind].
  destruct (py_iter (tcc_list tcc "nodes")) as [ns|e]; cbn [bind];
    [|reflexivity].
  destruct (for_each ns add_node ([], [])) as [st1|e]; cbn [bind];
    [|reflexivity].
  destruct (py_iter (tcc_list tcc "edges")) as [es|e]; reflexivity.
Qed.

Lemma build_graph_same tcc tcc' :
  same (VDict tcc) (VDict tcc') -> _build_graph tcc = _build_graph tcc'.
Proof.
  intros S. rewrite !build_graph_alt.
  assert (N : (ns <- py_iter (tcc_list tcc "nodes") ;;
               for_each ns add_node ([], []))
              = (ns <- py_iter (tcc_list tcc' "nodes") ;;
                 for_each ns add_node ([], []))).
  { apply same_result_eq. apply iterate_same; auto using same_tcc_list.
    - intros st st' n n' <- Sn. rewrite (add_node_same st n n' Sn).
      destruct (add_node st n'); reflexivity.
    - intros [adj nodeset] s. reflexivity. }
  assert (E : forall st1,
             (es <- py_iter (tcc_list tcc "edges") ;; for_each es add_edge st1)
             = (es <- py_iter (tcc_list tcc' "edges") ;;
                for_each es add_edge st1)).
  { intros st1. apply same_result_eq.
    apply iterate_same; auto using same_tcc_list.
    - intros st st' n n' <- Sn. rewrite (add_edge_same st n n' Sn).
      destruct (add_edge st n'); reflexivity.
    - intros [adj nodeset] s. reflexivity. }
  rewrite N.
  destruct (ns <- py_iter (tcc_list tcc' "nodes") ;;
            for_each ns add_node ([], [])) as [st1|e]; cbn [bind];
    [|reflexivity].
  now rewrite E.
Qed.

Lemma find_nodes_same tcc tcc' ty :
  same (VDict tcc) (VDict tcc') ->
  same_result (Forall2 same) (_find_nodes_by_type tcc ty)
                             (_find_nodes_by_type tcc' ty).
Proof.
  intros S. unfold _find_nodes_by_type. rewrite !py_get_tcc_list. cbn [bind].
  apply iterate_same; auto using same_tcc_list.
  - intros acc acc' n n' R Sn.
    pose proof (py_get_same n n' "type" VNone VNone Sn same_None) as Q.
    destruct (py_get n "type" VNone), (py_get n' "type" VNone);
      try contradiction; cbn [bind]; [|exact Q].
    rewrite (py_eq_same _ _ _ _ Q (same_refl_str ty)).
    destruct (py_eq _ _); cbn [same_result]; [|exact R].
    apply Forall2_app; [exact R|]. constructor; [exact Sn|constructor].
Qed.

Lemma gate_step_same passed it it' :
  same it it' -> gate_step passed it = gate_step passed it'.
Proof.
  intros S. pose proof (same_scalar _ _ S) as Q.
  destruct it as [| | | |l|d]; try (now rewrite <- Q).
  - apply same_list in S. destruct S as (l' & -> & _). reflexivity.
  - destruct (same_dict _ _ S) as (d' & -> & _).
    cbn [gate_step].
    pose proof (same_get_or_none d d' "gate_id" S) as G.
    pose proof (same_get_or_none d d' "output" S) as O.
    rewrite (py_eq_same _ _ (VInt 0) (VInt 0) O) by (repeat split).
    pose proof (same_scalar _ _ G) as Qg.
    destruct (get_or_none d "gate_id") as [| | |g|lg|dg];
      try (now rewrite <- Qg).
    + apply same_list in G. destruct G as (? & -> & _). reflexivity.
    + apply same_dict in G. destruct G as (? & -> & _). reflexivity.
Qed.

Lemma passed_gates_same gos gos' :
  Forall2 same gos gos' -> passed_gates gos = passed_gates gos'.
Proof.
  unfold passed_gates. intros F. generalize (@nil string).
  induction F as [|x y l l' Sx F IH]; intros acc; [reflexivity|].
  cbn [fold_left]. rewrite (gate_step_same acc x y Sx). apply IH.
Qed.

Lemma basic_schema_ok_same env env' :
  same (VDict env) (VDict env') -> _basic_schema_ok env = _basic_schema_ok env'.
Proof.
  intros S. destruct (same_dict _ _ S) as (d0 & [= <-] & _ & G).
  unfold _basic_schema_ok, py_getitem.
  pose proof (G "proposal_digest") as G1. pose proof (G "action_class") as G2.
  pose proof (G "energy_est_uj") as G3. pose proof (G "tcc") as G4.
  pose proof (G "witness_hash") as G5.
  destruct (dict_get env "proposal_digest"), (dict_get env' "proposal_digest");
    try contradiction; cbn [bind]; [|reflexivity].
  destruct (dict_get env "action_class"), (dict_get env' "action_class");
    try contradiction; cbn [bind]; [|reflexivity].
  destruct (dict_get env "energy_est_uj"), (dict_get env' "energy_est_uj");
    try contradiction; cbn [bind]; [|reflexivity].
  destruct (dict_get env "tcc") as [t|], (dict_get env' "tcc") as [t'|];
    try contradiction; cbn [bind]; [|reflexivity].
  destruct (dict_get env "witness_hash"), (dict_get env' "witness_hash");
    try contradiction; cbn [bind]; [|reflexivity].
  pose proof (same_scalar _ _ G4) as Q.
  destruct t as [| | | |l|d]; try (now rewrite <- Q).
  - apply same_list in G4. destruct G4 as (l' & -> & _). reflexivity.
  - apply same_dict in G4. destruct G4 as (d' & -> & _ & T).
    pose proof (T "root") as T1. pose proof (T "receipt") as T2.
    pose proof (T "nodes") as T3. pose proof (T "edges") as T4.
    destruct (dict_get d "root"), (dict_get d' "root");
      try contradiction; cbn [bind]; [|reflexivity].
    destruct (dict_get d "receipt"), (dict_get d' "receipt");
      try contradiction; cbn [bind]; [|reflexivity].
    destruct (dict_get d "nodes"), (dict_get d' "nodes");
      try contradiction; cbn [bind]; [|reflexivity].
    destruct (dict_get d "edges"), (dict_get d' "edges");
      try contradiction; reflexivity.
Qed.

Lemma py_get_key_same m m' k :
  same m m' -> same_result same (py_get_key m k) (py_get_key m' k).
Proof.
  intros S. pose proof (same_scalar _ _ S) as Q.
  destruct m as [| | | |l|d]; try (rewrite <- Q; reflexivity).
  - apply same_list in S. destruct S as (l' & -> & _). reflexivity.
  - destruct (same_dict _ _ S) as (d' & -> & _). cbn [py_get_key].
    destruct k; try reflexivity; try apply same_None.
    apply py_get_same; [exact S|apply same_None].
Qed.

Lemma same_empty_dict : same (VDict []) (VDict []).
Proof. repeat split. Qed.

Lemma same_empty_list : same (VList []) (VList []).
Proof. repeat split. Qed.

Lemma str_of_len_same l l' :
  Forall2 same l l' -> str_of_len l = str_of_len l'.
Proof. intros F. unfold str_of_len. now rewrite (Forall2_length F). Qed.

(** Both sides of a goal read a field with [py_get]: either both raise
    the same exception, or the two values are the same document. *)
Ltac read_same Q :=
  match type of Q with
  | same_result _ ?r ?r' =>
      destruct r, r'; try contradiction; cbn [bind];
      [|cbn [same_result] in Q; rewrite Q; reflexivity]
  end.

Lemma verify_gates_same env env' anchors anchors' :
  same (VDict env) (VDict env') -> same (VDict anchors) (VDict anchors') ->
  verify_gates env anchors = verify_gates env' anchors'.
Proof.
  intros Se Sa. unfold verify_gates, reject. cbv zeta.
  rewrite <- (basic_schema_ok_same env env' Se).
  destruct (_basic_schema_ok env); cbn [negb]; [|reflexivity].
  (* proposal_digest *)
  pose proof (same_get_or_none env env' "proposal_digest" Se) as Spd.
  rewrite <- (nonempty_str_same _ _ Spd).
  destruct (nonempty_str (get_or_none env "proposal_digest")) as [pd|] eqn:Npd;
    [|reflexivity].
  (* action_class *)
  pose proof (same_get_or_none env env' "action_class" Se) as Sac.
  rewrite <- (same_scalar_fn (fun v => py_in_set v ALLOWED_ACTIONS) _ _
                (fun _ _ => eq_refl) (fun _ _ => eq_refl) Sac).
  destruct (py_in_set (get_or_none env "action_class") ALLOWED_ACTIONS)
    as [[|]|e] eqn:Ac; cbn [bind negb]; [|reflexivity|reflexivity].
  apply py_in_set_true in Ac. destruct Ac as [ac [Eac _]].
  rewrite Eac in Sac. pose proof (same_scalar _ _ Sac) as <-. rewrite Eac.
  (* energy_est_uj *)
  pose proof (same_get_or_none env env' "energy_est_uj" Se) as Ses.
  rewrite <- (same_scalar_fn as_int _ _
                (fun _ _ => eq_refl) (fun _ _ => eq_refl) Ses).
  rewrite <- (same_scalar_fn str_of_int _ _
                (fun _ _ => eq_refl) (fun _ _ => eq_refl) Ses).
  destruct (as_int (get_or_none env "energy_est_uj")) as [est|]; [|reflexivity].
  destruct (Z.ltb est 0); [reflexivity|].
  (* tcc *)
  pose proof (same_get_or_none env env' "tcc" Se) as St.
  pose proof (same_scalar _ _ St) as Qt.
  destruct (get_or_none env "tcc") as [| | | |lt|tcc];
    try (rewrite <- Qt; reflexivity).
  { apply same_list in St. destruct St as (l' & -> & _). reflexivity. }
  destruct (same_dict _ _ St) as (tcc' & Et & _). rewrite Et in St |- *.
  clear Qt Et.
  rewrite <- (build_graph_same tcc tcc' St).
  destruct (_build_graph tcc) as [[adj nodeset]|e]; cbn [bind]; [|reflexivity].
  rewrite <- (nonempty_str_same _ _ (same_get_or_none tcc tcc' "root" St)).
  rewrite <- (nonempty_str_same _ _ (same_get_or_none tcc tcc' "receipt" St)).
  destruct (nonempty_str (get_or_none tcc "root")) as [root|]; [|reflexivity].
  destruct (nonempty_str (get_or_none tcc "receipt")) as [receipt|];
    [|reflexivity].
  destruct (_is_dag adj nodeset) as [[|]|e]; cbn [bind negb];
    [|reflexivity|reflexivity].
  destruct (_reachable adj root receipt); cbn [negb]; [|reflexivity].
  (* TargetRef *)
  pose proof (find_nodes_same tcc tcc' "TargetRef" St) as FT. read_same FT.
  cbn [same_result] in FT.
  destruct FT as [|tnode tnode' ? ? Stn FT]; [reflexivity|].
  destruct FT as [|? ? ? ? S2 FT];
    [|now rewrite (str_of_len_same _ _
                     (Forall2_cons _ _ Stn (Forall2_cons _ _ S2 FT)))].
  pose proof (py_get_same _ _ "payload" _ _ Stn same_empty_dict) as PT.
  read_same PT. cbn [same_result] in PT.
  pose proof (py_get_same _ _ "target_digest" _ _ PT same_None) as TD.
  read_same TD. cbn [same_result] in TD.
  rewrite <- (py_eq_same _ _ _ _ TD Spd).
  destruct (negb (py_eq _ (get_or_none env "proposal_digest")));
    [reflexivity|].
  (* IntentAnchor *)
  pose proof (find_nodes_same tcc tcc' "IntentAnchor" St) as FA. read_same FA.
  cbn [same_result] in FA.
  destruct FA as [|anode anode' ? ? San FA]; [reflexivity|].
  destruct FA as [|? ? ? ? S2 FA];
    [|now rewrite (str_of_len_same _ _
                     (Forall2_cons _ _ San (Forall2_cons _ _ S2 FA)))].
  pose proof (py_get_same _ _ "payload" _ _ San same_empty_dict) as PA.
  read_same PA. cbn [same_result] in PA.
  pose proof (py_get_same _ _ "h_constitution" _ _ PA same_None) as HC.
  read_same HC. cbn [same_result] in HC.
  pose proof (py_get_same _ _ "h_energy_policy" _ _ PA same_None) as HE.
  read_same HE. cbn [same_result] in HE.
  rewrite <- (py_eq_same _ _ _ _ HC
                (same_get_or_none anchors anchors' "constitution_hash_current" Sa)).
  destruct (negb (py_eq _ (get_or_none anchors "constitution_hash_current")));
    [reflexivity|].
  rewrite <- (py_eq_same _ _ _ _ HE
                (same_get_or_none anchors anchors' "energy_policy_hash_current" Sa)).
  destruct (negb (py_eq _ (get_or_none anchors "energy_policy_hash_current")));
    [reflexivity|].
  (* GateVector *)
  pose proof (find_nodes_same tcc tcc' "GateVector" St) as FG. read_same FG.
  cbn [same_result] in FG.
  destruct FG as [|gnode gnode' ? ? Sgn FG]; [reflexivity|].
  destruct FG as [|? ? ? ? S2 FG];
    [|now rewrite (str_of_len_same _ _
                     (Forall2_cons _ _ Sgn (Forall2_cons _ _ S2 FG)))].
  pose proof (py_get_same _ _ "payload" _ _ Sgn same_empty_dict) as PG.
  read_same PG. cbn [same_result] in PG.
  pose proof (py_get_same _ _ "gate_outputs" _ _ PG same_empty_list) as GO.
  read_same GO. cbn [same_result] in GO.
  pose proof (same_scalar _ _ GO) as Qg.
  match type of GO with
  | same ?g _ => destruct g as [| | | |gos|dg]; try (rewrite <- Qg; reflexivity)
  end.
  2:{ apply same_dict in GO. destruct GO as (? & -> & _). reflexivity. }
  apply same_list in GO. destruct GO as (gos' & -> & Fg).
  rewrite <- (passed_gates_same _ _ Fg).
  destruct (negb (forallb _ REQ_GATES_MIN)); [reflexivity|].
  (* budget *)
  pose proof (py_get_same _ _ "energy_budget_uj" _ _ Sa same_empty_dict) as BM.
  read_same BM. cbn [same_result] in BM.
  pose proof (py_get_key_same _ _ (VStr ac) BM) as BK.
  read_same BK. cbn [same_result] in BK.
  rewrite <- (same_scalar_fn as_int _ _
                (fun _ _ => eq_refl) (fun _ _ => eq_refl) BK).
  rewrite <- (same_scalar_fn str_of_int _ _
                (fun _ _ => eq_refl) (fun _ _ => eq_refl) BK).
  reflexivity.
Qed.

(** X25. [verify] reads its arguments as documents: two envelopes, and
    two anchor configurations, that are equal in structure and content
    get the same answer, whatever the order in which the keys of their
    dicts, at any depth, were inserted.  The order of the entries of a
    list does count. *)
Theorem verify_ignores_key_order env env' anchors anchors' :
  wf_value (VDict env) = true -> wf_value (VDict env') = true ->
  wf_value (VDict anchors) = true -> wf_value (VDict anchors') = true ->
  struct_eq (VDict env) (VDict env') = true ->
  struct_eq (VDict anchors) (VDict anchors') = true ->
  verify env anchors = verify env' anchors'.
Proof.
  intros We We' Wa Wa' Ee Ea.
  assert (Se : same (VDict env) (VDict env')) by (repeat split; assumption).
  assert (Sa : same (VDict anchors) (VDict anchors'))
    by (repeat split; assumption).
  unfold verify. rewrite <- (verify_gates_same env env' anchors anchors' Se Sa).
  destruct (verify_gates env anchors) as [[o|]|e]; cbn [bind]; try reflexivity.
  unfold witness_gate. cbv zeta.
  rewrite <- (same_witness_hash env env' Se).
  rewrite <- (py_eq_same _ _ _ _
                (same_get_or_none env env' "witness_hash" Se)
                (same_refl_str _)).
  reflexivity.
Qed.

Lemma verify_ignores_key_order_witness :
  let env' :=
    rev (map (fun kv => match snd kv with
                        | VDict t => (fst kv, VDict (rev t))
                        | _ => kv
                        end) env_valid) in
  verify env_valid sample_anchors = verify env' (rev sample_anchors).
Proof.
  intros env'.
  apply verify_ignores_key_order; vm_compute; reflexivity.
Defined.
